(** * Template helper functions of the HAProxy template router

    A shallow embedding of [pkg/router/template/template_helper.go] and the
    properties its description states about it.

    Go strings are byte strings: they are modelled by [string] (a list of
    8-bit [ascii]), compared bytewise as Go compares them.  Go maps are
    modelled by stdpp's [gmap]; a [range] over a map visits the entries in
    an unspecified order, so every function that ranges over a map takes
    the visiting order as an explicit argument ([..._range]) and the
    function of the source's name fixes one order. *)

From Stdlib Require Import ZArith Ascii String.
From stdpp Require Import gmap strings list sorting fin_maps.

#[local] Set Warnings "-clear-no-such-hyp".
Local Open Scope N_scope.

(** ** The Go standard library, as far as the helpers use it *)

Module GoStrings.

Definition bytes (s : string) : list ascii := String.list_ascii_of_string s.
Definition str (l : list ascii) : string := String.string_of_list_ascii l.
Definition byteN (c : ascii) : N := N_of_ascii c.

(** [strings.Join]. *)
Definition Join (elems : list string) (sep : string) : string :=
  String.concat sep elems.

(** UTF-8 decoding, [utf8.DecodeRuneInString]: the number of bytes of the
    rune at the head of [s].  An ill-formed or truncated sequence decodes
    to [utf8.RuneError] with width 1. *)
Definition isCont (c : ascii) : bool :=
  (0x80 <=? byteN c) && (byteN c <=? 0xBF).

Definition inRange (lo hi : N) (c : ascii) : bool :=
  (lo <=? byteN c) && (byteN c <=? hi).

Definition runeWidth (s : list ascii) : nat :=
  match s with
  | [] => 0%nat
  | b0 :: t =>
    if byteN b0 <? 0xC2 then 1%nat
    else if byteN b0 <? 0xE0 then
      match t with
      | b1 :: _ => if isCont b1 then 2%nat else 1%nat
      | _ => 1%nat
      end
    else if byteN b0 <? 0xF0 then
      match t with
      | b1 :: b2 :: _ =>
        if inRange (if byteN b0 =? 0xE0 then 0xA0 else 0x80)
                   (if byteN b0 =? 0xED then 0x9F else 0xBF) b1 && isCont b2
        then 3%nat else 1%nat
      | _ => 1%nat
      end
    else if byteN b0 <? 0xF5 then
      match t with
      | b1 :: b2 :: b3 :: _ =>
        if inRange (if byteN b0 =? 0xF0 then 0x90 else 0x80)
                   (if byteN b0 =? 0xF4 then 0x8F else 0xBF) b1
           && isCont b2 && isCont b3
        then 4%nat else 1%nat
      | _ => 1%nat
      end
    else 1%nat
  end.

(** The text cut into runes, each given by its bytes. *)
Fixpoint runesN (fuel : nat) (s : list ascii) : list (list ascii) :=
  match fuel, s with
  | S f, _ :: _ => take (runeWidth s) s :: runesN f (drop (runeWidth s) s)
  | _, _ => []
  end.

Definition runes (s : list ascii) : list (list ascii) :=
  runesN (length s) s.

(** [unicode.IsSpace] on the bytes of one rune: tab, line feed, vertical
    tab, form feed, carriage return, space, U+0085, U+00A0, U+1680,
    U+2000..U+200A, U+2028, U+2029, U+202F, U+205F and U+3000. *)
Definition isSpaceRune (r : list ascii) : bool :=
  match byteN <$> r with
  | [b] => ((0x09 <=? b) && (b <=? 0x0D)) || (b =? 0x20)
  | [b0; b1] => (b0 =? 0xC2) && ((b1 =? 0x85) || (b1 =? 0xA0))
  | [b0; b1; b2] =>
       ((b0 =? 0xE1) && (b1 =? 0x9A) && (b2 =? 0x80))
    || ((b0 =? 0xE2) && (b1 =? 0x80)
          && (((0x80 <=? b2) && (b2 <=? 0x8A))
              || (b2 =? 0xA8) || (b2 =? 0xA9) || (b2 =? 0xAF)))
    || ((b0 =? 0xE2) && (b1 =? 0x81) && (b2 =? 0x9F))
    || ((b0 =? 0xE3) && (b1 =? 0x80) && (b2 =? 0x80))
  | _ => false
  end.

Fixpoint dropSpaces (rs : list (list ascii)) : list (list ascii) :=
  match rs with
  | r :: rs' => if isSpaceRune r then dropSpaces rs' else rs
  | [] => []
  end.

(** [strings.TrimSpace]: all leading and trailing white space removed. *)
Definition TrimSpace (s : string) : string :=
  str (concat (reverse (dropSpaces (reverse (dropSpaces (runes (bytes s))))))).

Definition flush (cur : list ascii) : list (list ascii) :=
  match cur with [] => [] | _ => [cur] end.

Fixpoint splitRunes (cur : list ascii) (rs : list (list ascii))
  : list (list ascii) :=
  match rs with
  | [] => flush cur
  | r :: rs' =>
    if isSpaceRune r then flush cur ++ splitRunes [] rs'
    else splitRunes (cur ++ r) rs'
  end.

(** [strings.Fields]: the maximal runs of runes that are not white space. *)
Definition Fields (s : string) : list string :=
  str <$> splitRunes [] (runes (bytes s)).

(** [regexp.QuoteMeta]: a backslash before each of [\.+*?()|[]{}^$]. *)
Definition special (c : ascii) : bool :=
  bool_decide (c ∈ bytes "\.+*?()|[]{}^$").

Definition quoteByte (c : ascii) : list ascii :=
  if special c then ["\"%char; c] else [c].

Definition QuoteMeta (s : string) : string :=
  str (mbind quoteByte (bytes s)).

(** [sort.Sort(sort.Reverse(sort.StringSlice(l)))]: for a total order on
    strings the sorted arrangement of a list is unique, so any sorting
    algorithm computes it (lemma [sortDesc_unique]). *)
Definition sortDesc (l : list string) : list string :=
  merge_sort (flip String.le) l.

End GoStrings.

(** ** Package regexp

    The helpers only compile a pattern and ask whether a text contains a
    match; [RegexpLib] is that interface. *)

Definition error := string.

Class RegexpLib := {
  Regexp : Type;
  regexp_Compile : string → Regexp + error;
  MatchString : Regexp → string → bool
}.

(** A model of the interface for a fragment of the RE2 syntax Go accepts:
    ASCII literals, escaped punctuation, [.], bracket classes of single
    characters, [*], [|], groups [(...)] and [(?:...)], and the anchors
    [^], [$], [\A], [\z] (no flags, so [^] and [$] anchor at the ends of
    the text and [.] excludes the line feed).  Every other pattern is
    rejected.  [.] and a bracket class consume one whole rune of the text,
    as in Go. *)
Module GoRegexp.
Import GoStrings.

Inductive re : Type :=
  | Emp
  | Lit (c : ascii)
  | AnyNotNL
  | Class (neg : bool) (cs : list ascii)
  | BeginText
  | EndText
  | Cat (r1 r2 : re)
  | Alt (r1 r2 : re)
  | Star (r : re).

Inductive token : Type :=
  | TAtom (r : re)
  | TStar
  | TAlt
  | TOpen
  | TClose.

Inductive lexSt : Type :=
  | LTop
  | LEsc
  | LParen
  | LParenQ
  | LCls0
  | LCls (neg : bool) (items : list ascii)
  | LClsEsc (neg : bool) (items : list ascii).

Definition isASCII (c : ascii) : bool := byteN c <? 0x80.

Definition eqc (c d : ascii) : bool := bool_decide (c = d).

(** One character of the pattern outside a bracket class. *)
Definition topStep (c : ascii) : option (lexSt * list token) :=
  if special c then
    if eqc c "\" then Some (LEsc, [])
    else if eqc c "[" then Some (LCls0, [])
    else if eqc c "(" then Some (LParen, [])
    else if eqc c ")" then Some (LTop, [TClose])
    else if eqc c "|" then Some (LTop, [TAlt])
    else if eqc c "*" then Some (LTop, [TStar])
    else if eqc c "." then Some (LTop, [TAtom AnyNotNL])
    else if eqc c "^" then Some (LTop, [TAtom BeginText])
    else if eqc c "$" then Some (LTop, [TAtom EndText])
    else None
  else if isASCII c then Some (LTop, [TAtom (Lit c)])
  else None.

(** One character inside a bracket class. *)
Definition clsStep (neg : bool) (items : list ascii) (c : ascii)
  : option (lexSt * list token) :=
  if eqc c "]" then
    match items with
    | [] => None
    | _ => Some (LTop, [TAtom (Class neg (reverse items))])
    end
  else if eqc c "\" then Some (LClsEsc neg items, [])
  else if eqc c "[" || eqc c "-" || eqc c "^" then None
  else if isASCII c then Some (LCls neg (c :: items), [])
  else None.

Definition lexStep (st : lexSt) (c : ascii) : option (lexSt * list token) :=
  match st with
  | LTop => topStep c
  | LEsc =>
    if special c then Some (LTop, [TAtom (Lit c)])
    else if eqc c "A" then Some (LTop, [TAtom BeginText])
    else if eqc c "z" then Some (LTop, [TAtom EndText])
    else None
  | LParen =>
    if eqc c "?" then Some (LParenQ, [])
    else '(st', toks) ← topStep c; Some (st', TOpen :: toks)
  | LParenQ => if eqc c ":" then Some (LTop, [TOpen]) else None
  | LCls0 => if eqc c "^" then Some (LCls true [], []) else clsStep false [] c
  | LCls neg items => clsStep neg items c
  | LClsEsc neg items =>
    if special c then Some (LCls neg (c :: items), []) else None
  end.

Fixpoint lex (st : lexSt) (s : list ascii) : option (list token) :=
  match s with
  | [] =>
    match st with
    | LTop => Some []
    | LParen => Some [TOpen]
    | _ => None
    end
  | c :: s' =>
    '(st', toks) ← lexStep st c;
    rest ← lex st' s';
    Some (toks ++ rest)
  end.

(** The parser keeps, for every open group, the alternatives already
    closed and the items of the alternative being read (both newest
    first), and whether the newest item was made by a repetition operator
    (a second one in a row is an error, as in Go). *)
Record frame := Frame { alts : list re; cur : list re; repeated : bool }.

Definition emptyFrame : frame := Frame [] [] false.

Fixpoint catList (l : list re) : re :=
  match l with
  | [] => Emp
  | [r] => r
  | r :: l' => Cat r (catList l')
  end.

Fixpoint altList (l : list re) : re :=
  match l with
  | [] => Emp
  | [r] => r
  | r :: l' => Alt r (altList l')
  end.

Definition closeFrame (f : frame) : re :=
  altList (reverse (catList (reverse (cur f)) :: alts f)).

Definition push (r : re) (f : frame) : frame :=
  {| alts := alts f; cur := r :: cur f; repeated := false |}.

Fixpoint parse (toks : list token) (stack : list frame) (f : frame)
  : option re :=
  match toks with
  | [] => match stack with [] => Some (closeFrame f) | _ => None end
  | TAtom r :: toks' => parse toks' stack (push r f)
  | TStar :: toks' =>
    match cur f with
    | a :: rest =>
      if repeated f then None
      else parse toks' stack
             {| alts := alts f; cur := Star a :: rest; repeated := true |}
    | [] => None
    end
  | TAlt :: toks' =>
    parse toks' stack
      {| alts := catList (reverse (cur f)) :: alts f; cur := [];
         repeated := false |}
  | TOpen :: toks' => parse toks' (f :: stack) emptyFrame
  | TClose :: toks' =>
    match stack with
    | p :: stack' => parse toks' stack' (push (closeFrame f) p)
    | [] => None
    end
  end.

Definition compile (pattern : string) : re + error :=
  match lex LTop (bytes pattern) ≫= (λ toks, parse toks [] emptyFrame) with
  | Some r => inl r
  | None => inr ("error parsing regexp: " +:+ pattern)
  end.

Definition newline : ascii := "010"%char.

(** Backtracking matcher: [matchFrom n0 r s k] tries [r] at the suffix [s]
    of a text of [n0] bytes and hands every suffix it can leave to [k].
    An iteration of a star that consumes nothing is not repeated. *)
Fixpoint matchFrom (n0 : nat) (r : re) (s : list ascii)
  (k : list ascii → bool) {struct r} : bool :=
  match r with
  | Emp => k s
  | Lit c =>
    match s with
    | c' :: s' => eqc c c' && k s'
    | [] => false
    end
  | AnyNotNL =>
    match s with
    | c :: _ => negb (eqc c newline) && k (drop (runeWidth s) s)
    | [] => false
    end
  | Class neg cs =>
    match s with
    | c :: _ => xorb neg (bool_decide (c ∈ cs)) && k (drop (runeWidth s) s)
    | [] => false
    end
  | BeginText => bool_decide (length s = n0) && k s
  | EndText => match s with [] => k s | _ => false end
  | Cat r1 r2 => matchFrom n0 r1 s (λ s', matchFrom n0 r2 s' k)
  | Alt r1 r2 => matchFrom n0 r1 s k || matchFrom n0 r2 s k
  | Star r' =>
    (fix loop (fuel : nat) (s : list ascii) {struct fuel} : bool :=
       k s ||
       match fuel with
       | O => false
       | S f =>
         matchFrom n0 r' s
           (λ s', bool_decide (length s' < length s)%nat && loop f s')
       end) (length s) s
  end.

(** The suffixes of the text that start at a rune boundary, the empty
    suffix included: the places where a match may start. *)
Fixpoint runeTailsN (fuel : nat) (s : list ascii) : list (list ascii) :=
  match s with
  | [] => [[]]
  | _ :: _ =>
    match fuel with
    | O => []
    | S f => s :: runeTailsN f (drop (runeWidth s) s)
    end
  end.

Definition runeTails (s : list ascii) : list (list ascii) :=
  runeTailsN (length s) s.

Definition matchString (r : re) (s : string) : bool :=
  existsb (λ t, matchFrom (length (bytes s)) r t (λ _, true))
          (runeTails (bytes s)).

#[export] Instance model : RegexpLib :=
  {| Regexp := re; regexp_Compile := compile; MatchString := matchString |}.

End GoRegexp.

(** ** Data model *)

(** [routev1.TLSTerminationType] is a string type; an alias that does not
    terminate TLS carries the empty string. *)
Definition TLSTerminationType := string.
Definition TLSTerminationEdge : TLSTerminationType := "edge".
Definition TLSTerminationPassthrough : TLSTerminationType := "passthrough".
Definition TLSTerminationReencrypt : TLSTerminationType := "reencrypt".

(** Modelled from the spec: the struct declarations are in files of the
    package that are not among the sources; the records have the fields
    the data model lists and the helpers read. *)
Record Certificate := { Contents : string }.

Record ServiceAliasConfig := {
  Host : string;
  Path : string;
  IsWildcard : bool;
  TLSTermination : TLSTerminationType;
  InsecureEdgeTerminationPolicy : string;
  PreferPort : string;
  Certificates : gmap string Certificate
}.

Record Endpoint := { Port : string; PortName : string }.

Record ServiceUnit := { EndpointTable : list Endpoint }.

Record templateData := {
  State : gmap string ServiceAliasConfig;
  WorkingDir : string;
  DisableHTTP2 : bool;
  CertificateIndex : gmap string Z
}.

Record BackendConfig := {
  Name : string;
  BHost : string;
  BPath : string;
  BIsWildcard : bool;
  Termination : TLSTerminationType;
  InsecurePolicy : string;
  HasCertificate : bool
}.

Record HAProxyMapEntry := { Key : string; Value : string }.

(** Go's zero values, which a map lookup of a missing key returns. *)
Definition zeroCertificate : Certificate := {| Contents := "" |}.

Definition zeroAlias : ServiceAliasConfig :=
  {| Host := ""; Path := ""; IsWildcard := false; TLSTermination := "";
     InsecureEdgeTerminationPolicy := ""; PreferPort := "";
     Certificates := ∅ |}.

(** ** Collaborators outside the file *)

(** [generateCertKey], [haproxyutil.GenerateMapEntry], [path.Join] and the
    constant [certDir]. *)
Class MapCollaborators := {
  generateCertKey : ServiceAliasConfig → string;
  GenerateMapEntry : string → BackendConfig → option HAProxyMapEntry;
  path_Join : list string → string;
  certDir : string
}.

(** Package [haproxytime] and the time-out constants of [templateutil].
    [ParseDuration] returns a [time.Duration] (an [int64]) and an error
    that is [nil], one of the two sentinels, or something else. *)
Inductive ParseError : Type :=
  | OverflowError
  | SyntaxError
  | OtherError (msg : string).

Class HAProxyTime := {
  ParseDuration : string → Z * option ParseError;
  HaproxyMaxTimeout : string;
  HaproxyDefaultTimeout : string;
  HaproxyMaxTimeoutDuration : Z
}.

(** [net.ParseIP] (nil when the text is no address) and [net.ParseCIDR]
    (an error when it is no CIDR block). *)
Class NetLib := {
  IP : Type;
  IPNet : Type;
  net_ParseIP : string → option IP;
  net_ParseCIDR : string → (IP * IPNet) + error
}.

(** [routeapihelpers.GetDomainForHost]. *)
Class RouteAPIHelpers := {
  GetDomainForHost : string → string
}.

(** ** The helpers *)

Import GoStrings.

Definition certConfigMap : string := "cert_config.map".

(** *** Pattern cache

    [compiledRegexp] is a process-wide [sync.Map].  Its state is threaded
    through the helpers; next to the stored entries it records the calls
    made to [regexp.Compile] and to [Store], newest first. *)
Inductive CacheEvent : Type :=
  | EvCompile (pattern : string)
  | EvStore (pattern : string).

Record CacheState `{RegexpLib} := {
  store : gmap string Regexp;
  trace : list CacheEvent
}.

Definition CacheM `{RegexpLib} (A : Type) : Type := CacheState → A * CacheState.

Definition ret `{RegexpLib} {A} (a : A) : CacheM A := λ st, (a, st).

Definition bind `{RegexpLib} {A B} (c : CacheM A) (f : A → CacheM B)
  : CacheM B :=
  λ st, let '(a, st') := c st in f a st'.

Notation "x ←$ c ; k" := (bind c (λ x, k))
  (at level 100, c at next level, right associativity).

Definition Load `{RegexpLib} (pattern : string) : CacheM (option Regexp) :=
  λ st, (store st !! pattern, st).

Definition Store `{RegexpLib} (pattern : string) (r : Regexp) : CacheM unit :=
  λ st, (tt, {| store := <[pattern := r]> (store st);
                trace := EvStore pattern :: trace st |}).

Definition callCompile `{RegexpLib} (pattern : string)
  : CacheM (Regexp + error) :=
  λ st, (regexp_Compile pattern,
         {| store := store st; trace := EvCompile pattern :: trace st |}).

Definition cachedRegexpCompile `{RegexpLib} (pattern : string)
  : CacheM (Regexp + error) :=
  v ←$ Load pattern;
  match v with
  | None =>
    r ←$ callCompile pattern;
    match r with
    | inr err => ret (inr err)
    | inl re => _ ←$ Store pattern re; ret (inl re)
    end
  | Some v => ret (inl v)
  end.

Definition matchString `{RegexpLib} (pattern s : string)
  : CacheM (bool * option error) :=
  r ←$ cachedRegexpCompile pattern;
  match r with
  | inr err => ret (false, Some err)
  | inl re => ret (MatchString re s, None)
  end.

Definition anchored (pattern : string) : string :=
  "\A(?:" +:+ pattern +:+ ")\z".

Fixpoint firstMatching `{RegexpLib} (re : Regexp) (values : list string)
  : string :=
  match values with
  | [] => ""
  | value :: values' =>
    if MatchString re value then value else firstMatching re values'
  end.

Definition firstMatch `{RegexpLib} (pattern : string) (values : list string)
  : CacheM string :=
  r ←$ cachedRegexpCompile (anchored pattern);
  match r with
  | inl re => ret (firstMatching re values)
  | inr _ => ret ""
  end.

Definition matchPattern `{RegexpLib} (pattern s : string) : CacheM bool :=
  r ←$ matchString (anchored pattern) s;
  match r with
  | (status, None) => ret status
  | (_, Some _) => ret false
  end.

(** *** Legacy regular expressions *)

Definition genSubdomainWildcardRegexp `{RouteAPIHelpers}
  (hostname path : string) (exactPath : bool) : string :=
  let subdomain := GetDomainForHost hostname in
  if bool_decide (String.length subdomain = 0%nat) then hostname +:+ path
  else
    let expr := QuoteMeta ("." +:+ subdomain +:+ path) in
    if exactPath then "^[^\.]*" +:+ expr +:+ "$"
    else "^[^\.]*" +:+ expr +:+ "(|/.*)$".

(** *** Endpoints *)

Definition endpointsForAlias (alias : ServiceAliasConfig) (svc : ServiceUnit)
  : list Endpoint :=
  if bool_decide (String.length (PreferPort alias) = 0%nat)
  then EndpointTable svc
  else
    foldl (λ endpoints endpoint,
             if bool_decide (PortName endpoint = PreferPort alias)
                || bool_decide (Port endpoint = PreferPort alias)
             then endpoints ++ [endpoint] else endpoints)
          [] (EndpointTable svc).

(** *** Certificate map *)

Definition backendConfig (name : string) (cfg : ServiceAliasConfig)
  (hascert : bool) : BackendConfig :=
  {| Name := name; BHost := Host cfg; BPath := Path cfg;
     BIsWildcard := IsWildcard cfg; Termination := TLSTermination cfg;
     InsecurePolicy := InsecureEdgeTerminationPolicy cfg;
     HasCertificate := hascert |}.

Definition alpnHint : string := "[alpn h2,http/1.1]".

(** The certificate the loop body looks up for one alias, and whether it
    was found. *)
Definition aliasCert `{MapCollaborators} (cfg : ServiceAliasConfig)
  : Certificate * bool :=
  if bool_decide (0 < String.length (Host cfg))%nat then
    match Certificates cfg !! generateCertKey cfg with
    | Some cert => (cert, true)
    | None => (zeroCertificate, false)
    end
  else (zeroCertificate, false).

(** The body of the loop: the line one alias contributes, if any. *)
Definition certLine `{MapCollaborators} (td : templateData)
  (k : string) (cfg : ServiceAliasConfig) : option string :=
  let '(cert, ok) := aliasCert cfg in
  let hascert := ok && bool_decide (0 < String.length (Contents cert))%nat in
  match GenerateMapEntry certConfigMap (backendConfig k cfg hascert) with
  | Some entry =>
    let fqCertPath := path_Join [WorkingDir td; certDir; Key entry] in
    if DisableHTTP2 td
       || bool_decide (1 < default 0 (CertificateIndex td !! Contents cert))%Z
    then Some (Join [fqCertPath; Value entry] " ")
    else Some (Join [fqCertPath; alpnHint; Value entry] " ")
  | None => None
  end.

Definition generateHAProxyCertConfigMap_range `{MapCollaborators}
  (order : list (string * ServiceAliasConfig)) (td : templateData)
  : list string :=
  sortDesc
    (foldl (λ lines kc,
              match certLine td kc.1 kc.2 with
              | Some line => lines ++ [line]
              | None => lines
              end) [] order).

Definition generateHAProxyCertConfigMap `{MapCollaborators}
  (td : templateData) : list string :=
  generateHAProxyCertConfigMap_range (map_to_list (State td)) td.

(** *** Grouping aliases and choosing the primary alias *)

Definition groupStep
  (result : gmap string (gmap string ServiceAliasConfig))
  (ka : string * ServiceAliasConfig)
  : gmap string (gmap string ServiceAliasConfig) :=
  let '(k, a) := ka in
  if bool_decide (TLSTermination a = TLSTerminationPassthrough) then result
  else
    let result :=
      match result !! Host a with
      | Some _ => result
      | None => <[Host a := ∅]> result
      end in
    <[Host a := <[k := a]> (default ∅ (result !! Host a))]> result.

Definition getHTTPAliasesGroupedByHost_range
  (order : list (string * ServiceAliasConfig))
  : gmap string (gmap string ServiceAliasConfig) :=
  foldl groupStep ∅ order.

Definition getHTTPAliasesGroupedByHost
  (aliases : gmap string ServiceAliasConfig)
  : gmap string (gmap string ServiceAliasConfig) :=
  getHTTPAliasesGroupedByHost_range (map_to_list aliases).

Definition terminates (a : ServiceAliasConfig) : bool :=
  bool_decide (TLSTermination a = TLSTerminationEdge)
  || bool_decide (TLSTermination a = TLSTerminationReencrypt).

(** [aliases[k]]: the zero value when [k] is missing. *)
Definition aliasAt (aliases : gmap string ServiceAliasConfig) (k : string)
  : ServiceAliasConfig :=
  default zeroAlias (aliases !! k).

(** [order] is the order in which [range aliases] visits the keys.  The
    slice [keys] is made with [len(aliases)] empty strings in it and the
    keys are appended after them. *)
Definition getPrimaryAliasKey_range (order : list string)
  (aliases : gmap string ServiceAliasConfig) : string :=
  let multiple :=
    let keys := replicate (size aliases) "" ++ order in
    let keys := sortDesc keys in
    match find (λ k, terminates (aliasAt aliases k)) keys with
    | Some k => k
    | None => default "" (head keys)
    end in
  if bool_decide (size aliases = 0%nat) then ""
  else if bool_decide (size aliases = 1%nat) then
    match order with
    | k :: _ => k
    | [] => multiple
    end
  else multiple.

Definition getPrimaryAliasKey (aliases : gmap string ServiceAliasConfig)
  : string :=
  getPrimaryAliasKey_range (map_to_list aliases).*1 aliases.

(** *** Annotation values *)

Definition clipHAProxyTimeoutValue `{HAProxyTime} (val : string) : string :=
  if bool_decide (String.length val = 0%nat) then val
  else
    let '(duration, err) := ParseDuration val in
    match err with
    | Some OverflowError => HaproxyMaxTimeout
    | Some SyntaxError => ""
    | Some (OtherError _) => HaproxyDefaultTimeout
    | None =>
      if bool_decide (HaproxyMaxTimeoutDuration < duration)%Z
      then HaproxyMaxTimeout
      else val
    end.

Definition validIPOrCIDR `{NetLib} (ip : string) : bool :=
  match net_ParseIP ip with
  | Some _ => true
  | None =>
    match net_ParseCIDR ip with
    | inl _ => true
    | inr _ => false
    end
  end.

Definition parseIPList `{NetLib} (list : string) : string :=
  let trimmedList := TrimSpace list in
  if bool_decide (trimmedList = "") then ""
  else if bool_decide (trimmedList ≠ list) then ""
  else
    let validIPs :=
      foldl (λ validIPs ip,
               if validIPOrCIDR ip then validIPs ++ [ip] else validIPs)
            [] (Fields list) in
    if bool_decide (length validIPs = 0%nat) then ""
    else Join validIPs " ".

(** ** The other helpers of the file *)

(** More of package strings, and the packages os and rand. *)
Module GoLib.
Import GoStrings.

(** [strings.Repeat] for a count that is not negative (a negative count
    makes Go panic). *)
Fixpoint Repeat (s : string) (count : nat) : string :=
  match count with
  | O => ""
  | S n => s +:+ Repeat s n
  end.

Fixpoint hasPrefix (s prefix : list ascii) : bool :=
  match prefix, s with
  | [], _ => true
  | p :: prefix', c :: s' => bool_decide (c = p) && hasPrefix s' prefix'
  | _ :: _, [] => false
  end.

(** The pieces of [s] between the occurrences of [sep], found from left to
    right and not overlapping; [skip] bytes of an occurrence just found are
    still to pass over. *)
Fixpoint splitAt (sep : list ascii) (skip : nat) (s : list ascii)
  : list (list ascii) :=
  match s with
  | [] => [[]]
  | c :: s' =>
    match skip with
    | S k => splitAt sep k s'
    | O =>
      if hasPrefix s sep then [] :: splitAt sep (length sep - 1) s'
      else
        match splitAt sep 0 s' with
        | piece :: pieces => (c :: piece) :: pieces
        | [] => [[c]]
        end
    end
  end.

(** [strings.Split]: with an empty separator the text is cut into its
    UTF-8 sequences. *)
Definition Split (s sep : string) : list string :=
  if bool_decide (sep = "") then str <$> runes (bytes s)
  else str <$> splitAt (bytes sep) 0 (bytes s).

(** [strings.ToLower] follows the Unicode case tables. *)
Class UnicodeLib := {
  ToLower : string → string
}.

(** [os.Getenv] gives the empty string for a variable that is not set. *)
Definition Getenv (environ : gmap string string) (name : string) : string :=
  default "" (environ !! name).

(** Package math/rand: [rand.Intn n] draws a number from 0 up to but not
    including [n], for a positive [n], from a source that it advances. *)
Class RandLib := {
  Source : Type;
  rand_Intn : Z → Source → Z * Source;
  rand_Intn_range :
    ∀ (n : Z) (src : Source), (0 < n)%Z →
      (0 ≤ (rand_Intn n src).1 < n)%Z
}.

End GoLib.

(** [templateutil.SortMapPaths]. *)
Class MapSorter := {
  SortMapPaths : list string → string → list string
}.

Import GoLib.

Definition lineFeed : string := String GoRegexp.newline "".

Fixpoint matchValues (s : string) (allowedValues : list string) : bool :=
  match allowedValues with
  | [] => false
  | value :: allowedValues' =>
    if bool_decide (value = s) then true else matchValues s allowedValues'
  end.

Definition env (environ : gmap string string) (name : string)
  (defaults : list string) : string :=
  let envValue := Getenv environ name in
  if bool_decide (envValue ≠ "") then envValue
  else default "" (find (λ val, bool_decide (val ≠ "")) defaults).

(** [endpoints[i], endpoints[j] = endpoints[j], endpoints[i]]; an index
    out of range makes Go panic. *)
Definition swap (endpoints : list Endpoint) (i j : nat)
  : option (list Endpoint) :=
  x ← endpoints !! i;
  y ← endpoints !! j;
  Some (<[j := x]> (<[i := y]> endpoints)).

(** The loop [for i := len(endpoints) - 1; i >= 0; i--], with [n] the
    number of rounds still to run, [i = n - 1]. *)
Fixpoint shuffle `{RandLib} (n : nat) (endpoints : list Endpoint)
  (src : Source) : option (list Endpoint * Source) :=
  match n with
  | O => Some (endpoints, src)
  | S i =>
    let '(rIndex, src') := rand_Intn (Z.of_nat i + 1) src in
    if bool_decide (rIndex < 0)%Z then None
    else
      endpoints' ← swap endpoints i (Z.to_nat rIndex);
      shuffle i endpoints' src'
  end.

(** What a call leaves behind: the slice returned, the endpoint table of
    the service unit as it is after the call, and the random source. *)
Record Shuffled `{RandLib} := {
  endpointsOut : list Endpoint;
  tableOut : list Endpoint;
  sourceOut : Source
}.

(** Without a preferred port [endpointsForAlias] returns the slice
    [svc.EndpointTable] itself, not a copy: the swaps are then made in the
    table of the service unit.  With a preferred port the slice is a new
    one.  [None] is a panic. *)
Definition processEndpointsForAlias `{UnicodeLib} `{RandLib}
  (alias : ServiceAliasConfig) (svc : ServiceUnit) (action : string)
  (src : Source) : option Shuffled :=
  let endpoints := endpointsForAlias alias svc in
  let shared := bool_decide (String.length (PreferPort alias) = 0%nat) in
  if bool_decide (ToLower action = "shuffle") then
    '(endpoints', src') ← shuffle (length endpoints) endpoints src;
    Some {| endpointsOut := endpoints';
            tableOut := if shared then endpoints' else EndpointTable svc;
            sourceOut := src' |}
  else
    Some {| endpointsOut := endpoints;
            tableOut := EndpointTable svc;
            sourceOut := src |}.

(** The lines of a map other than the certificate map, before they are
    sorted. *)
Definition mapLine `{MapCollaborators} (name : string) (k : string)
  (cfg : ServiceAliasConfig) : option string :=
  match GenerateMapEntry name (backendConfig k cfg false) with
  | Some entry => Some (Key entry +:+ " " +:+ Value entry)
  | None => None
  end.

Definition generateHAProxyMap_range `{MapCollaborators} `{MapSorter}
  (order : list (string * ServiceAliasConfig)) (name : string)
  (td : templateData) : list string :=
  if bool_decide (name = certConfigMap)
  then generateHAProxyCertConfigMap_range order td
  else
    SortMapPaths
      (foldl (λ lines kc,
                match mapLine name kc.1 kc.2 with
                | Some line => lines ++ [line]
                | None => lines
                end) [] order)
      "^[^\.]*\.".

Definition generateHAProxyMap `{MapCollaborators} `{MapSorter}
  (name : string) (td : templateData) : list string :=
  generateHAProxyMap_range (map_to_list (State td)) name td.

Definition indent (input : string) (spaces : Z) : string :=
  if bool_decide (input = "") then ""
  else if bool_decide (spaces ≤ 0)%Z then input
  else
    let padding := Repeat " " (Z.to_nat spaces) in
    let lines := Split input lineFeed in
    let lines :=
      (λ line, if bool_decide (line ≠ "") then padding +:+ line else line)
        <$> lines in
    Join lines lineFeed.

(** ** Vocabulary of the properties *)

(** An endpoint is kept for an alias with a preferred port. *)
Definition prefers (alias : ServiceAliasConfig) (e : Endpoint) : bool :=
  bool_decide (PortName e = PreferPort alias)
  || bool_decide (Port e = PreferPort alias).

(** The alias stored under key [k] in the bucket of host [h]. *)
Definition groupLookup (groups : gmap string (gmap string ServiceAliasConfig))
  (h k : string) : option ServiceAliasConfig :=
  groups !! h ≫= (λ bucket, bucket !! k).

Definition mkAlias (host : string) (term : TLSTerminationType)
  : ServiceAliasConfig :=
  {| Host := host; Path := ""; IsWildcard := false; TLSTermination := term;
     InsecureEdgeTerminationPolicy := ""; PreferPort := "";
     Certificates := ∅ |}.

(** The two alias groups of the description's examples. *)
Definition passthroughAndEdge : gmap string ServiceAliasConfig :=
  <["b" := mkAlias "example.com" TLSTerminationPassthrough]>
    (<["a" := mkAlias "example.com" TLSTerminationEdge]> ∅).

Definition bothPassthrough : gmap string ServiceAliasConfig :=
  <["b" := mkAlias "example.com" TLSTerminationPassthrough]>
    (<["a" := mkAlias "example.com" TLSTerminationPassthrough]> ∅).

(** The two shapes of a line of the certificate map. *)
Definition plainLine (fqCertPath value : string) : string :=
  GoStrings.Join [fqCertPath; value] " ".

Definition hintedLine (fqCertPath value : string) : string :=
  GoStrings.Join [fqCertPath; alpnHint; value] " ".

(** The contents of the certificate of an alias, the entry the encoder
    gives for it, and the number of aliases the index records for its
    certificate ([0] when the index has no entry). *)
Definition aliasContents `{MapCollaborators} (cfg : ServiceAliasConfig)
  : string :=
  Contents (aliasCert cfg).1.

Definition aliasEntry `{MapCollaborators} (k : string)
  (cfg : ServiceAliasConfig) : option HAProxyMapEntry :=
  GenerateMapEntry certConfigMap
    (backendConfig k cfg
       ((aliasCert cfg).2
        && bool_decide (0 < String.length (aliasContents cfg))%nat)).

Definition sharing `{MapCollaborators} (td : templateData)
  (cfg : ServiceAliasConfig) : Z :=
  default 0%Z (CertificateIndex td !! aliasContents cfg).

Definition fqCertPathOf `{MapCollaborators} (td : templateData)
  (entry : HAProxyMapEntry) : string :=
  path_Join [WorkingDir td; certDir; Key entry].

(** Modelled from the spec: the encoder and the certificate-key resolver
    are collaborators outside the sources.  This instance, used for the
    examples only, gives an entry to an alias that has a host, does not
    pass TLS through and has a certificate; the key of a certificate is the
    host of the alias; paths are joined with a slash. *)
Definition exampleCollaborators : MapCollaborators :=
  {| generateCertKey := λ cfg, Host cfg;
     GenerateMapEntry := λ name b,
       if bool_decide (name = certConfigMap)
          && bool_decide (BHost b ≠ "")
          && bool_decide (Termination b ≠ TLSTerminationPassthrough)
          && HasCertificate b
       then Some {| Key := Name b +:+ ".pem"; Value := BHost b |}
       else None;
     path_Join := λ elems, GoStrings.Join elems "/";
     certDir := "router/certs" |}.

Definition certAlias (host contents : string) : ServiceAliasConfig :=
  {| Host := host; Path := ""; IsWildcard := false;
     TLSTermination := TLSTerminationEdge;
     InsecureEdgeTerminationPolicy := ""; PreferPort := "";
     Certificates := {[ host := {| Contents := contents |} ]} |}.

(** Two aliases with one certificate, counted twice by the index. *)
Definition sharedCertData : templateData :=
  {| State := <["a" := certAlias "a.example.com" "PEM-1"]>
                (<["b" := certAlias "b.example.com" "PEM-1"]> ∅);
     WorkingDir := "/var/lib/haproxy";
     DisableHTTP2 := false;
     CertificateIndex := {[ "PEM-1" := 2%Z ]} |}.

(** Two aliases, each with a certificate of its own. *)
Definition ownCertData : templateData :=
  {| State := <["a" := certAlias "a.example.com" "PEM-1"]>
                (<["b" := certAlias "b.example.com" "PEM-2"]> ∅);
     WorkingDir := "/var/lib/haproxy";
     DisableHTTP2 := false;
     CertificateIndex := <["PEM-1" := 1%Z]> {[ "PEM-2" := 1%Z ]} |}.

(** The cache before any pattern was compiled. *)
Definition emptyCache `{RegexpLib} : CacheState := {| store := ∅; trace := [] |}.

(** Every entry of the cache is the compiled form of its key: what
    [cachedRegexpCompile], the only writer, maintains. *)
Definition consistent `{RegexpLib} (st : CacheState) : Prop :=
  ∀ pattern re, store st !! pattern = Some re → regexp_Compile pattern = inl re.

(** The number of times the entry of [pattern] was written, and the number
    of times [pattern] was handed to the compiler. *)
Definition storesOf (pattern : string) (events : list CacheEvent) : nat :=
  length (List.filter
            (λ e, match e with
                  | EvStore p => bool_decide (p = pattern)
                  | EvCompile _ => false
                  end) events).

Definition compilesOf (pattern : string) (events : list CacheEvent) : nat :=
  length (List.filter
            (λ e, match e with
                  | EvCompile p => bool_decide (p = pattern)
                  | EvStore _ => false
                  end) events).


(** The text starts, or ends, with a white-space rune. *)
Definition hasLeadingSpace (s : string) : Prop :=
  ∃ w rest, GoStrings.isSpaceRune w = true ∧ GoStrings.bytes s = w ++ rest.

Definition hasTrailingSpace (s : string) : Prop :=
  ∃ init w, GoStrings.isSpaceRune w = true ∧ GoStrings.bytes s = init ++ w.

(** The text consists of white space only (the empty text included). *)
Definition allSpace (s : string) : Prop :=
  Forall (λ r, GoStrings.isSpaceRune r = true)
         (GoStrings.runes (GoStrings.bytes s)).

(** The number of bytes of a list of runes, and the runes left when the
    white space at both ends is dropped. *)
Definition len (rs : list (list ascii)) : nat := length (concat rs).

Definition trim (rs : list (list ascii)) : list (list ascii) :=
  reverse (GoStrings.dropSpaces (reverse (GoStrings.dropSpaces rs))).

(** Modelled from the spec: package net is not among the sources.  This
    instance, used for the examples only, accepts dotted-decimal IPv4
    addresses (four fields from 0 to 255 without leading zeros) and such
    an address followed by a slash and a prefix length from 0 to 32; it
    knows no IPv6. *)
Module ExampleNet.

Definition digit (c : ascii) : option N :=
  let n := GoStrings.byteN c in
  if (48 <=? n) && (n <=? 57) then Some (n - 48) else None.

Fixpoint decimalGo (acc : N) (s : list ascii) : option N :=
  match s with
  | [] => Some acc
  | c :: s' => d ← digit c; decimalGo (10 * acc + d) s'
  end.

(** A decimal number of one to three digits without a leading zero. *)
Definition decimal (s : list ascii) : option N :=
  match s with
  | [] => None
  | c :: s' =>
    if bool_decide (3 < length s)%nat then None
    else if bool_decide (c = "0"%char) && bool_decide (s' ≠ []) then None
    else decimalGo 0 s
  end.

Fixpoint splitOn (sep : ascii) (cur : list ascii) (s : list ascii)
  : list (list ascii) :=
  match s with
  | [] => [cur]
  | c :: s' =>
    if bool_decide (c = sep) then cur :: splitOn sep [] s'
    else splitOn sep (cur ++ [c]) s'
  end.

Definition parseIPv4 (s : list ascii) : option (list N) :=
  match splitOn "." [] s with
  | [a; b; c; d] =>
    fields ← mapM decimal [a; b; c; d];
    if forallb (λ n, n <=? 255) fields then Some fields else None
  | _ => None
  end.

Definition parseCIDR (s : list ascii) : (list N * N) + error :=
  match splitOn "/" [] s with
  | [ip; bits] =>
    match parseIPv4 ip, decimal bits with
    | Some fields, Some n =>
      if n <=? 32 then inl (fields, n) else inr "invalid CIDR address"
    | _, _ => inr "invalid CIDR address"
    end
  | _ => inr "invalid CIDR address"
  end.

#[export] Instance lib : NetLib :=
  {| IP := list N; IPNet := N;
     net_ParseIP := λ s, parseIPv4 (GoStrings.bytes s);
     net_ParseCIDR := λ s, parseCIDR (GoStrings.bytes s) |}.

End ExampleNet.

(** ** What a regular expression matches

    [Matches n0 r s s']: in a text of [n0] bytes, [r] matches from the
    suffix [s] of the text up to its suffix [s']. *)
Module RegexpSem.
Import GoStrings GoRegexp.

Inductive Matches (n0 : nat) : re → list ascii → list ascii → Prop :=
  | M_Emp s : Matches n0 Emp s s
  | M_Lit c s : Matches n0 (Lit c) (c :: s) s
  | M_Any c t :
      c ≠ newline →
      Matches n0 AnyNotNL (c :: t) (drop (runeWidth (c :: t)) (c :: t))
  | M_Class neg cs c t :
      xorb neg (bool_decide (c ∈ cs)) = true →
      Matches n0 (Class neg cs) (c :: t) (drop (runeWidth (c :: t)) (c :: t))
  | M_Begin s : length s = n0 → Matches n0 BeginText s s
  | M_End : Matches n0 EndText [] []
  | M_Cat r1 r2 s s' s'' :
      Matches n0 r1 s s' → Matches n0 r2 s' s'' →
      Matches n0 (Cat r1 r2) s s''
  | M_Alt_l r1 r2 s s' : Matches n0 r1 s s' → Matches n0 (Alt r1 r2) s s'
  | M_Alt_r r1 r2 s s' : Matches n0 r2 s s' → Matches n0 (Alt r1 r2) s s'
  | M_Star_nil r s : Matches n0 (Star r) s s
  | M_Star_step r s s' s'' :
      Matches n0 r s s' → Matches n0 (Star r) s' s'' →
      Matches n0 (Star r) s s''.

(** The loop of the matcher for a star, named. *)
Definition starLoop (n0 : nat) (r : re) (k : list ascii → bool) :=
  fix loop (fuel : nat) (s : list ascii) {struct fuel} : bool :=
    k s ||
    match fuel with
    | O => false
    | S f =>
      matchFrom n0 r s
        (λ s', bool_decide (length s' < length s)%nat && loop f s')
    end.

(** [r] matches somewhere in the text [s], from a rune boundary. *)
Definition MatchesIn (r : re) (s : string) : Prop :=
  ∃ t s', t ∈ runeTails (bytes s) ∧ Matches (length (bytes s)) r t s'.

End RegexpSem.

(** *** Wild-card patterns *)

(** The regular expression the patterns of [genSubdomainWildcardRegexp]
    stand for: no dot any number of times, the quoted text [lit], then the
    end of the text, or first nothing or a slash and the rest of a line. *)
Definition notDot : GoRegexp.re := GoRegexp.Class true ["."%char].

Definition deeperPath : GoRegexp.re :=
  GoRegexp.Alt GoRegexp.Emp
    (GoRegexp.Cat (GoRegexp.Lit "/") (GoRegexp.Star GoRegexp.AnyNotNL)).

Definition wildcardRe (lit : list ascii) (exactPath : bool) : GoRegexp.re :=
  GoRegexp.Cat GoRegexp.BeginText
    (GoRegexp.catList
       (GoRegexp.Star notDot
        :: (GoRegexp.Lit <$> lit)
           ++ (if exactPath then [GoRegexp.EndText]
               else [deeperPath; GoRegexp.EndText]))).



(** The pattern is a text of ASCII characters. *)
Definition asciiText (s : string) : Prop :=
  Forall (λ c, GoRegexp.isASCII c = true) (GoStrings.bytes s).

(** Modelled from the spec: package routeapihelpers is not among the
    sources.  In this instance, used for the examples only, the parent
    domain of a host name is the text after its first dot, and empty when
    the host name has no dot. *)
Module ExampleRoute.

Fixpoint afterFirstDot (host : string) : string :=
  match host with
  | "" => ""
  | String c rest =>
    if GoRegexp.eqc c "." then rest else afterFirstDot rest
  end.

Definition helpers : RouteAPIHelpers :=
  {| GetDomainForHost := afterFirstDot |}.

End ExampleRoute.

(** *** Vocabulary for the other helpers *)

(** The entries of [st'] are those of [st] and at most one more: the
    compiled form of [key]. *)
Definition grownBy `{RegexpLib} (key : string) (st st' : CacheState) : Prop :=
  (∀ q r, store st !! q = Some r → store st' !! q = Some r)
  ∧ (∀ q r, store st' !! q = Some r →
       store st !! q = Some r ∨ q = key ∧ regexp_Compile key = inl r).

(** Modelled from the spec: the path sort of package templateutil is a
    collaborator outside the sources.  This instance, used for the
    examples only, sorts the lines in descending order. *)
Definition exampleSorter : MapSorter :=
  {| SortMapPaths := λ lines _, GoStrings.sortDesc lines |}.

(** Modelled from the spec: the Unicode case tables are not among the
    sources.  This instance, used for the examples only, lowers the
    letters A to Z and leaves every other byte as it is, which is what
    [strings.ToLower] does to a text of ASCII characters. *)
Definition lowerByte (c : ascii) : ascii :=
  let n := GoStrings.byteN c in
  if (0x41 <=? n) && (n <=? 0x5A) then ascii_of_N (n + 0x20) else c.

Definition exampleUnicode : GoLib.UnicodeLib :=
  {| GoLib.ToLower := λ s,
       GoStrings.str (lowerByte <$> GoStrings.bytes s) |}.

(** A random source for the examples: a number whose digits in the bases
    asked for are the numbers drawn. *)
Definition exampleRand : GoLib.RandLib :=
  {| GoLib.Source := Z;
     GoLib.rand_Intn := λ n src, ((src `mod` n)%Z, (src `div` n)%Z);
     GoLib.rand_Intn_range := λ n src Hn, Z.mod_pos_bound src n Hn |}.

Definition mkEndpoint (port name : string) : Endpoint :=
  {| Port := port; PortName := name |}.

(** The lines of a text: the pieces between its line feeds. *)
Fixpoint lines (s : string) : list string :=
  match s with
  | "" => [""]
  | String c s' =>
    if bool_decide (c = GoRegexp.newline) then "" :: lines s'
    else
      match lines s' with
      | line :: rest => String c line :: rest
      | [] => [String c ""]
      end
  end.

(** One line, indented: an empty line stays empty. *)
Definition padLine (spaces : Z) (line : string) : string :=
  if bool_decide (line = "") then ""
  else GoLib.Repeat " " (Z.to_nat spaces) +:+ line.

(** The text holds no line feed. *)
Definition oneLine (s : string) : Prop :=
  GoRegexp.newline ∉ GoStrings.bytes s.

(** A word: a text that is not empty and has no white-space rune. *)
Definition word (t : list ascii) : Prop :=
  t ≠ [] ∧ Forall (λ r, GoStrings.isSpaceRune r = false) (GoStrings.runes t).

(** Texts joined by single spaces, on bytes. *)
Fixpoint joinWords (ts : list (list ascii)) : list ascii :=
  match ts with
  | [] => []
  | [t] => t
  | t :: ts' => t ++ " "%char :: joinWords ts'
  end.

(** The lexer and the parser of the regexp model, stopped before their
    end-of-input checks: the lexer state and the tokens after a piece of a
    pattern, the parser's stack and frame after a piece of the tokens. *)
Fixpoint lexRun (st : GoRegexp.lexSt) (s : list ascii)
  : option (GoRegexp.lexSt * list GoRegexp.token) :=
  match s with
  | [] => Some (st, [])
  | c :: s' =>
    '(st', toks) ← GoRegexp.lexStep st c;
    '(st'', rest) ← lexRun st' s';
    Some (st'', toks ++ rest)
  end.

Fixpoint parseRun (toks : list GoRegexp.token)
  (stack : list GoRegexp.frame) (f : GoRegexp.frame)
  : option (list GoRegexp.frame * GoRegexp.frame) :=
  match toks with
  | [] => Some (stack, f)
  | GoRegexp.TAtom r :: toks' => parseRun toks' stack (GoRegexp.push r f)
  | GoRegexp.TStar :: toks' =>
    match GoRegexp.cur f with
    | a :: rest =>
      if GoRegexp.repeated f then None
      else parseRun toks' stack
             {| GoRegexp.alts := GoRegexp.alts f;
                GoRegexp.cur := GoRegexp.Star a :: rest;
                GoRegexp.repeated := true |}
    | [] => None
    end
  | GoRegexp.TAlt :: toks' =>
    parseRun toks' stack
      {| GoRegexp.alts :=
           GoRegexp.catList (reverse (GoRegexp.cur f)) :: GoRegexp.alts f;
         GoRegexp.cur := []; GoRegexp.repeated := false |}
  | GoRegexp.TOpen :: toks' =>
    parseRun toks' (f :: stack) GoRegexp.emptyFrame
  | GoRegexp.TClose :: toks' =>
    match stack with
    | p :: stack' =>
      parseRun toks' stack' (GoRegexp.push (GoRegexp.closeFrame f) p)
    | [] => None
    end
  end.
(** * Properties *)

(** ** Sorting in descending order *)

Section Sorting.
Import GoStrings.

#[local] Instance flip_le_total : Total (flip String.le).
Proof. intros x y. unfold flip. destruct (total String.le y x); auto. Qed.

#[local] Instance flip_le_antisymm : AntiSymm eq (flip String.le).
Proof. intros x y Hxy Hyx. unfold flip in *. by apply (anti_symm String.le). Qed.

Lemma sortDesc_sorted (l : list string) :
  StronglySorted (flip String.le) (sortDesc l).
Proof. apply StronglySorted_merge_sort; apply _. Qed.

Lemma sortDesc_perm (l : list string) : sortDesc l ≡ₚ l.
Proof. apply merge_sort_Permutation. Qed.

(** Whatever algorithm [sort.Sort] runs, its result is [sortDesc]. *)
Lemma sortDesc_unique (l l' : list string) :
  l' ≡ₚ l → StronglySorted (flip String.le) l' → l' = sortDesc l.
Proof.
  intros Hp Hs. apply (StronglySorted_unique (flip String.le)).
  - done.
  - apply sortDesc_sorted.
  - by rewrite sortDesc_perm.
Qed.

Lemma sortDesc_elem (l : list string) (x : string) :
  x ∈ sortDesc l ↔ x ∈ l.
Proof. by rewrite sortDesc_perm. Qed.

(** In a list sorted in descending order, [find] returns the greatest
    element that satisfies the test. *)
Lemma find_sorted_greatest (p : string → bool) (l : list string) (k : string) :
  StronglySorted (flip String.le) l →
  find p l = Some k →
  k ∈ l ∧ p k = true ∧ ∀ k', k' ∈ l → p k' = true → String.le k' k.
Proof.
  induction 1 as [|x l Hs IH Hall]; simpl; [done|].
  destruct (p x) eqn:Hpx.
  - intros [= <-]. split; [left|]. split; [done|].
    intros k' [->|Hin]%elem_of_cons _; [done|].
    rewrite Forall_forall in Hall. by apply Hall.
  - intros Hf. destruct (IH Hf) as (Hin & Hpk & Hmax).
    split; [by right|]. split; [done|].
    intros k' [->|Hin']%elem_of_cons Hpk'; [congruence|]. by apply Hmax.
Qed.

Lemma find_none (p : string → bool) (l : list string) :
  find p l = None → ∀ k, k ∈ l → p k = false.
Proof.
  induction l as [|x l IH]; simpl; [by intros _ k ?%elem_of_nil|].
  destruct (p x) eqn:Hpx; [done|].
  intros Hf k [->|Hin]%elem_of_cons; [done|]. by apply IH.
Qed.

Lemma head_sorted_greatest (l : list string) (k : string) :
  StronglySorted (flip String.le) l →
  head l = Some k →
  k ∈ l ∧ ∀ k', k' ∈ l → String.le k' k.
Proof.
  destruct 1 as [|x l Hs Hall]; simpl; [done|].
  intros [= <-]. split; [left|].
  intros k' [->|Hin]%elem_of_cons; [done|].
  rewrite Forall_forall in Hall. by apply Hall.
Qed.

End Sorting.

(** ** Endpoints of an alias *)

Lemma foldl_append_filter {A} (p : A → bool) (l acc : list A) :
  foldl (λ out x, if p x then out ++ [x] else out) acc l
  = acc ++ List.filter p l.
Proof.
  revert acc. induction l as [|x l IH]; intros acc; simpl.
  - by rewrite app_nil_r.
  - rewrite IH. destruct (p x); [by rewrite <- app_assoc|done].
Qed.

(** C10: without a preferred port the endpoint table is returned as it is;
    with one, exactly the endpoints whose port name or port equals it are
    returned, in their original order (a sublist of the table, possibly
    empty). *)
Theorem endpointsForAlias_spec (alias : ServiceAliasConfig) (svc : ServiceUnit) :
  endpointsForAlias alias svc
  = (if bool_decide (PreferPort alias = "") then EndpointTable svc
     else List.filter (prefers alias) (EndpointTable svc))
  ∧ sublist (endpointsForAlias alias svc) (EndpointTable svc)
  ∧ (PreferPort alias ≠ "" →
     ∀ e, e ∈ endpointsForAlias alias svc ↔
          e ∈ EndpointTable svc
          ∧ (PortName e = PreferPort alias ∨ Port e = PreferPort alias)).
Proof.
  assert (Heq : endpointsForAlias alias svc
    = (if bool_decide (PreferPort alias = "") then EndpointTable svc
       else List.filter (prefers alias) (EndpointTable svc))).
  { unfold endpointsForAlias.
    destruct (PreferPort alias) as [|c s] eqn:Hp; [done|].
    change (bool_decide (String.length (String c s) = 0%nat)) with false.
    change (bool_decide (String c s = "")) with false. cbv iota.
    rewrite (foldl_append_filter
               (λ e, bool_decide (PortName e = String c s)
                     || bool_decide (Port e = String c s))).
    simpl. unfold prefers. by rewrite Hp. }
  split; [done|]. rewrite Heq. split.
  - case_bool_decide; [reflexivity|]. clear Heq.
    induction (EndpointTable svc) as [|e l IH]; simpl; [constructor|].
    destruct (prefers alias e); [by apply sublist_skip|by apply sublist_cons].
  - intros Hne e. rewrite bool_decide_eq_false_2 by done.
    rewrite list_elem_of_In, filter_In, <- list_elem_of_In.
    unfold prefers. rewrite orb_true_iff, !bool_decide_eq_true. done.
Qed.

(** ** Clipping of time-out values *)

(** C3: the empty value is returned as it is; a value that parses to a
    duration within the maximum is returned unchanged; overflow and a
    duration above the maximum give the maximum literal; a syntax error
    gives the empty string; any other error gives the default literal.
    The result is always a string: no error reaches the caller. *)
Theorem clipHAProxyTimeoutValue_spec `{HAProxyTime} (val : string) :
  (val = "" → clipHAProxyTimeoutValue val = val)
  ∧ (val ≠ "" →
     match ParseDuration val with
     | (duration, None) =>
       ((duration ≤ HaproxyMaxTimeoutDuration)%Z →
          clipHAProxyTimeoutValue val = val)
       ∧ ((HaproxyMaxTimeoutDuration < duration)%Z →
          clipHAProxyTimeoutValue val = HaproxyMaxTimeout)
     | (_, Some OverflowError) => clipHAProxyTimeoutValue val = HaproxyMaxTimeout
     | (_, Some SyntaxError) => clipHAProxyTimeoutValue val = ""
     | (_, Some (OtherError _)) =>
       clipHAProxyTimeoutValue val = HaproxyDefaultTimeout
     end).
Proof.
  unfold clipHAProxyTimeoutValue. split.
  - intros ->. done.
  - intros Hne. destruct val as [|c s]; [done|].
    change (bool_decide (String.length (String c s) = 0%nat)) with false.
    cbv iota.
    destruct (ParseDuration (String c s)) as [duration [[| |msg]|]]; try done.
    split; intros Hd.
    + rewrite bool_decide_eq_false_2 by lia. done.
    + rewrite bool_decide_eq_true_2 by lia. done.
Qed.

(** ** Grouping aliases by host *)

Lemma groupStep_lookup (groups : gmap string (gmap string ServiceAliasConfig))
  (k : string) (a : ServiceAliasConfig) (h k' : string) :
  groupLookup (groupStep groups (k, a)) h k'
  = if bool_decide (TLSTermination a = TLSTerminationPassthrough)
    then groupLookup groups h k'
    else if bool_decide (h = Host a ∧ k' = k) then Some a
    else groupLookup groups h k'.
Proof.
  unfold groupStep, groupLookup.
  case_bool_decide as Hpt; [done|].
  destruct (decide (h = Host a)) as [->|Hh].
  - rewrite lookup_insert_eq. simpl.
    destruct (decide (k' = k)) as [->|Hk].
    + rewrite lookup_insert_eq. by rewrite bool_decide_eq_true_2.
    + rewrite lookup_insert_ne by done.
      rewrite bool_decide_eq_false_2 by naive_solver.
      destruct (groups !! Host a) as [bucket|] eqn:Hb; simpl.
      * by rewrite Hb.
      * by rewrite lookup_insert_eq.
  - rewrite lookup_insert_ne by done.
    rewrite bool_decide_eq_false_2 by naive_solver.
    destruct (groups !! Host a) as [bucket|] eqn:Hb; [done|].
    by rewrite lookup_insert_ne.
Qed.

Lemma group_foldl (l : list (string * ServiceAliasConfig))
  (groups : gmap string (gmap string ServiceAliasConfig)) :
  NoDup l.*1 →
  (∀ h k a, groupLookup groups h k = Some a → k ∉ l.*1) →
  ∀ h k a,
    groupLookup (foldl groupStep groups l) h k = Some a
    ↔ groupLookup groups h k = Some a
      ∨ ((k, a) ∈ l ∧ TLSTermination a ≠ TLSTerminationPassthrough
         ∧ Host a = h).
Proof.
  revert groups. induction l as [|[k0 a0] l IH]; intros groups Hnd Hfresh h k a.
  - simpl. split; [by left|]. intros [?|[[]%elem_of_nil _]]; done.
  - cbn [foldl fmap list_fmap fst] in *. apply NoDup_cons in Hnd as [Hk0 Hnd].
    rewrite IH; [|done|].
    + rewrite groupStep_lookup. rewrite elem_of_cons.
      case_bool_decide as Hpt.
      { split; [intros [?|(?&?&?)]; auto|].
        intros [?|([[= -> ->]|?]&?&?)]; [auto|done|auto]. }
      case_bool_decide as Hhk.
      * destruct Hhk as [-> ->]. split.
        -- intros [[= ->]|(?&?&?)]; [right; auto|right; auto].
        -- intros [Hold|([[= ->]|Hin]&?&?)]; [|by left|by right].
           exfalso. apply (Hfresh _ _ _ Hold). by left.
      * split; [intros [?|(?&?&?)]; auto|].
        intros [?|([[= -> ->]|?]&?&<-)]; [auto| |auto].
        exfalso. by apply Hhk.
    + intros h' k' a'. rewrite groupStep_lookup.
      case_bool_decide as Hpt.
      { intros Hold Hin. apply (Hfresh _ _ _ Hold). by right. }
      case_bool_decide as Hhk.
      * destruct Hhk as [-> ->]. by intros _.
      * intros Hold Hin. apply (Hfresh _ _ _ Hold). by right.
Qed.

(** C8: whatever the order in which the alias table is visited, the
    grouping holds alias [a] under key [k] in the bucket of host [h] exactly
    when the table maps [k] to [a], [a] is not a passthrough alias and [h]
    is the host of [a].  So no passthrough alias is in the grouping, and
    every other alias is there once: under its own key, in the bucket of
    its exact host and in no other bucket. *)
Theorem getHTTPAliasesGroupedByHost_spec
  (aliases : gmap string ServiceAliasConfig)
  (order : list (string * ServiceAliasConfig)) :
  order ≡ₚ map_to_list aliases →
  ∀ h k a,
    groupLookup (getHTTPAliasesGroupedByHost_range order) h k = Some a
    ↔ aliases !! k = Some a
      ∧ TLSTermination a ≠ TLSTerminationPassthrough
      ∧ Host a = h.
Proof.
  intros Hperm h k a. unfold getHTTPAliasesGroupedByHost_range.
  rewrite group_foldl.
  - rewrite Hperm, elem_of_map_to_list. unfold groupLookup.
    rewrite lookup_empty. simpl. naive_solver.
  - rewrite Hperm. apply NoDup_fst_map_to_list.
  - intros h' k' a'. unfold groupLookup. by rewrite lookup_empty.
Qed.

Lemma getHTTPAliasesGroupedByHost_witness :
  let aliases : gmap string ServiceAliasConfig :=
    <["b" := mkAlias "example.com" TLSTerminationPassthrough]>
      (<["a" := mkAlias "example.com" TLSTerminationEdge]> ∅) in
  groupLookup (getHTTPAliasesGroupedByHost_range (map_to_list aliases))
    "example.com" "a" = Some (mkAlias "example.com" TLSTerminationEdge)
  ↔ aliases !! "a" = Some (mkAlias "example.com" TLSTerminationEdge)
    ∧ TLSTermination (mkAlias "example.com" TLSTerminationEdge)
      ≠ TLSTerminationPassthrough
    ∧ Host (mkAlias "example.com" TLSTerminationEdge) = "example.com".
Proof.
  intros aliases.
  apply (getHTTPAliasesGroupedByHost_spec aliases (map_to_list aliases)).
  reflexivity.
Defined.

(** The grouping of the example: the passthrough alias is absent, the edge
    alias is in the bucket of its host. *)
Example getHTTPAliasesGroupedByHost_example :
  let groups :=
    getHTTPAliasesGroupedByHost
      (<["b" := mkAlias "example.com" TLSTerminationPassthrough]>
         (<["a" := mkAlias "example.com" TLSTerminationEdge]> ∅)) in
  groupLookup groups "example.com" "a"
    = Some (mkAlias "example.com" TLSTerminationEdge)
  ∧ groupLookup groups "example.com" "b" = None.
Proof. vm_compute. done. Qed.

(** ** The primary alias of a host *)

Lemma terminates_aliasAt (aliases : gmap string ServiceAliasConfig) (k : string) :
  terminates (aliasAt aliases k) = true →
  ∃ a, aliases !! k = Some a ∧ terminates a = true.
Proof.
  unfold aliasAt. destruct (aliases !! k) as [a|]; simpl; [eauto|].
  by vm_compute.
Qed.

Section PrimaryAlias.
Import GoStrings.
Context (aliases : gmap string ServiceAliasConfig) (order : list string).
Hypothesis Horder : order ≡ₚ (map_to_list aliases).*1.

Lemma order_length : length order = size aliases.
Proof. by rewrite Horder, length_fmap, length_map_to_list. Qed.

Lemma order_elem (k : string) : k ∈ order ↔ is_Some (aliases !! k).
Proof.
  rewrite Horder, list_elem_of_fmap. split.
  - intros [[k' a] [-> Hin%elem_of_map_to_list]]. eauto.
  - intros [a Ha]. exists (k, a). by rewrite elem_of_map_to_list.
Qed.

Let keys : list string := sortDesc (replicate (size aliases) "" ++ order).

Lemma keys_elem (k : string) :
  k ∈ keys → k = "" ∨ is_Some (aliases !! k).
Proof.
  unfold keys. rewrite sortDesc_elem, elem_of_app, order_elem.
  intros [[-> _]%elem_of_replicate|?]; auto.
Qed.

Lemma keys_order (k : string) : is_Some (aliases !! k) → k ∈ keys.
Proof.
  intros Hk. unfold keys. rewrite sortDesc_elem, elem_of_app, order_elem. auto.
Qed.

Lemma le_empty (k : string) : String.le "" k.
Proof. by destruct k. Qed.

(** The scan of the sorted keys, when one alias terminates TLS. *)
Lemma scan_terminating (k0 : string) (a0 : ServiceAliasConfig) :
  aliases !! k0 = Some a0 → terminates a0 = true →
  ∃ r a, find (λ k, terminates (aliasAt aliases k)) keys = Some r
         ∧ aliases !! r = Some a ∧ terminates a = true
         ∧ ∀ k a', aliases !! k = Some a' → terminates a' = true →
                   String.le k r.
Proof.
  intros Hk0 Ht0.
  destruct (find (λ k, terminates (aliasAt aliases k)) keys) as [r|] eqn:Hf.
  - destruct (find_sorted_greatest _ _ _ (sortDesc_sorted _) Hf)
      as (Hin & Hr & Hmax).
    destruct (terminates_aliasAt _ _ Hr) as (a & Ha & Hta).
    exists r, a. repeat split; try done.
    intros k a' Hk Ht. apply Hmax.
    + apply keys_order. eauto.
    + unfold aliasAt. by rewrite Hk.
  - exfalso. pose proof (find_none _ _ Hf k0) as Hn.
    unfold aliasAt in Hn. rewrite Hk0 in Hn. simpl in Hn.
    rewrite Hn in Ht0; [done|]. apply keys_order. eauto.
Qed.

(** The first of the sorted keys, when the table has a key. *)
Lemma head_keys (k0 : string) :
  is_Some (aliases !! k0) →
  ∃ r, head keys = Some r ∧ is_Some (aliases !! r)
       ∧ ∀ k, is_Some (aliases !! k) → String.le k r.
Proof.
  intros Hk0. destruct (head keys) as [r|] eqn:Hh.
  - destruct (head_sorted_greatest _ _ (sortDesc_sorted _) Hh) as [Hin Hmax].
    exists r. split; [done|]. split.
    + destruct (keys_elem _ Hin) as [->|?]; [|done].
      assert (k0 = "") as ->; [|done].
      apply (anti_symm String.le); [|apply le_empty].
      apply Hmax, keys_order, Hk0.
    + intros k Hk. by apply Hmax, keys_order.
  - apply keys_order in Hk0. destruct keys; [by apply elem_of_nil in Hk0|done].
Qed.

End PrimaryAlias.

(** C2: for every order in which the keys are visited: the empty group
    gives the empty string; a group of one alias gives its key; a larger
    group gives the greatest key among the aliases with edge or reencrypt
    termination when there is one, and the greatest key of all
    otherwise. *)
Theorem getPrimaryAliasKey_spec
  (aliases : gmap string ServiceAliasConfig) (order : list string) :
  order ≡ₚ (map_to_list aliases).*1 →
  let r := getPrimaryAliasKey_range order aliases in
  (size aliases = 0%nat → r = "")
  ∧ (size aliases = 1%nat →
     is_Some (aliases !! r) ∧ ∀ k, is_Some (aliases !! k) → k = r)
  ∧ ((2 ≤ size aliases)%nat →
     (∃ k a, aliases !! k = Some a ∧ terminates a = true) →
     ∃ a, aliases !! r = Some a ∧ terminates a = true
          ∧ ∀ k a', aliases !! k = Some a' → terminates a' = true →
                    String.le k r)
  ∧ ((2 ≤ size aliases)%nat →
     (∀ k a, aliases !! k = Some a → terminates a = false) →
     is_Some (aliases !! r) ∧ ∀ k, is_Some (aliases !! k) → String.le k r).
Proof.
  intros Horder r. subst r. unfold getPrimaryAliasKey_range.
  pose proof (order_length _ _ Horder) as Hlen.
  split; [|split; [|split]].
  - intros ->. done.
  - intros Hs. rewrite Hs. cbn [bool_decide decide_rel]. simpl.
    destruct order as [|k [|k' order']]; simpl in Hlen; try lia.
    split.
    + apply (order_elem _ _ Horder). by left.
    + intros k' Hk'. apply (order_elem _ _ Horder) in Hk'.
      by apply list_elem_of_singleton in Hk'.
  - intros Hs (k0 & a0 & Hk0 & Ht0).
    rewrite bool_decide_eq_false_2 by lia.
    rewrite bool_decide_eq_false_2 by lia.
    destruct (scan_terminating _ _ Horder k0 a0 Hk0 Ht0)
      as (r & a & -> & Ha & Hta & Hmax).
    eauto.
  - intros Hs Hnone.
    rewrite bool_decide_eq_false_2 by lia.
    rewrite bool_decide_eq_false_2 by lia.
    destruct (find _ _) as [r|] eqn:Hf.
    { destruct (find_sorted_greatest _ _ _ (sortDesc_sorted _) Hf)
        as (_ & Hr & _).
      destruct (terminates_aliasAt _ _ Hr) as (a & Ha & Hta).
      rewrite (Hnone _ _ Ha) in Hta. done. }
    destruct order as [|k0 order']; [simpl in Hlen; lia|].
    assert (is_Some (aliases !! k0)) as Hk0.
    { apply (order_elem _ _ Horder). by left. }
    destruct (head_keys _ _ Horder k0 Hk0) as (r & -> & Hr & Hmax).
    done.
Qed.

(** The examples of C2, derived from the theorem: with the keys visited as
    "b", "a", the group with a passthrough alias "b" and an edge alias "a"
    has the primary key "a"; with both aliases passthrough it is "b". *)
Lemma getPrimaryAliasKey_witness :
  getPrimaryAliasKey_range ["b"; "a"] passthroughAndEdge = "a"
  ∧ getPrimaryAliasKey_range ["b"; "a"] bothPassthrough = "b".
Proof.
  split.
  - assert (["b"; "a"] ≡ₚ (map_to_list passthroughAndEdge).*1) as Hp
      by (vm_compute; apply perm_swap).
    pose proof (getPrimaryAliasKey_spec passthroughAndEdge ["b"; "a"] Hp) as H.
    cbv zeta in H. destruct H as (_ & _ & H & _).
    generalize dependent (getPrimaryAliasKey_range ["b"; "a"] passthroughAndEdge).
    intros r H. destruct H as (a & Ha & Hta & _).
    + vm_compute. lia.
    + exists "a", (mkAlias "example.com" TLSTerminationEdge). by vm_compute.
    + unfold passthroughAndEdge in Ha.
      apply lookup_insert_Some in Ha as [[_ <-]|[_ Ha]]; [done|].
      apply lookup_insert_Some in Ha as [[<- _]|[_ Ha]]; done.
  - assert (["b"; "a"] ≡ₚ (map_to_list bothPassthrough).*1) as Hp
      by (vm_compute; apply perm_swap).
    pose proof (getPrimaryAliasKey_spec bothPassthrough ["b"; "a"] Hp) as H.
    cbv zeta in H. destruct H as (_ & _ & _ & H).
    generalize dependent (getPrimaryAliasKey_range ["b"; "a"] bothPassthrough).
    intros r H. destruct H as [[a Ha] Hmax].
    + vm_compute. lia.
    + intros k a. unfold bothPassthrough. intros Ha.
      apply lookup_insert_Some in Ha as [[_ <-]|[_ Ha]]; [done|].
      apply lookup_insert_Some in Ha as [[_ <-]|[_ Ha]]; done.
    + unfold bothPassthrough in Ha.
      apply lookup_insert_Some in Ha as [[<- _]|[Hne Ha]]; [done|].
      apply lookup_insert_Some in Ha as [[<- _]|[_ Ha]]; [|done].
      exfalso. assert (String.le "b" "a") as Hle; [|by vm_compute in Hle].
      apply Hmax. vm_compute. by eexists.
Defined.

(** The same examples by evaluation, for both visiting orders. *)
Example getPrimaryAliasKey_examples :
  getPrimaryAliasKey passthroughAndEdge = "a"
  ∧ getPrimaryAliasKey bothPassthrough = "b"
  ∧ getPrimaryAliasKey_range ["a"; "b"] passthroughAndEdge = "a"
  ∧ getPrimaryAliasKey_range ["b"; "a"] passthroughAndEdge = "a"
  ∧ getPrimaryAliasKey_range ["a"; "b"] bothPassthrough = "b"
  ∧ getPrimaryAliasKey_range ["b"; "a"] bothPassthrough = "b"
  ∧ getPrimaryAliasKey ∅ = "".
Proof. vm_compute. done. Qed.

(** ** The certificate map *)

Lemma string_length_app (s t : string) :
  String.length (s +:+ t) = (String.length s + String.length t)%nat.
Proof. induction s as [|c s IH]; simpl; [done|]. by rewrite IH. Qed.

Lemma plainLine_eq (p v : string) : plainLine p v = p +:+ " " +:+ v.
Proof. done. Qed.

Lemma hintedLine_eq (p v : string) :
  hintedLine p v = p +:+ " " +:+ alpnHint +:+ " " +:+ v.
Proof. done. Qed.

(** A line has one shape only. *)
Lemma hinted_not_plain (p v : string) : hintedLine p v ≠ plainLine p v.
Proof.
  rewrite plainLine_eq, hintedLine_eq. intros Heq.
  apply (inj (String.app p)) in Heq. apply (inj (String.app " ")) in Heq.
  apply (f_equal String.length) in Heq.
  rewrite !string_length_app in Heq. simpl in Heq. lia.
Qed.

Section CertMap.
Import GoStrings.
Context `{MapCollaborators}.

Lemma collect_omap (td : templateData)
  (order : list (string * ServiceAliasConfig)) (lines : list string) :
  foldl (λ lines kc,
           match certLine td kc.1 kc.2 with
           | Some line => lines ++ [line]
           | None => lines
           end) lines order
  = lines ++ omap (λ kc, certLine td kc.1 kc.2) order.
Proof.
  revert lines. induction order as [|kc order IH]; intros lines; simpl.
  - by rewrite app_nil_r.
  - rewrite IH.
    destruct (certLine td kc.1 kc.2); [by rewrite <- app_assoc|done].
Qed.

Lemma generate_range_eq (td : templateData)
  (order : list (string * ServiceAliasConfig)) :
  generateHAProxyCertConfigMap_range order td
  = sortDesc (omap (λ kc, certLine td kc.1 kc.2) order).
Proof.
  unfold generateHAProxyCertConfigMap_range. by rewrite collect_omap.
Qed.

(** The order in which the alias table is visited does not matter. *)
Lemma generate_range_perm (td : templateData)
  (order order' : list (string * ServiceAliasConfig)) :
  order ≡ₚ order' →
  generateHAProxyCertConfigMap_range order td
  = generateHAProxyCertConfigMap_range order' td.
Proof.
  intros Hp. rewrite !generate_range_eq. apply sortDesc_unique.
  - rewrite sortDesc_perm. by rewrite Hp.
  - apply sortDesc_sorted.
Qed.

(** The lines of the map are those of the aliases of the table. *)
Lemma generate_range_elem (td : templateData)
  (order : list (string * ServiceAliasConfig)) (line : string) :
  order ≡ₚ map_to_list (State td) →
  line ∈ generateHAProxyCertConfigMap_range order td
  ↔ ∃ k cfg, State td !! k = Some cfg ∧ certLine td k cfg = Some line.
Proof.
  intros Hp. rewrite generate_range_eq, sortDesc_elem, list_elem_of_omap.
  split.
  - intros ([k cfg] & Hin & Hl). rewrite Hp, elem_of_map_to_list in Hin. eauto.
  - intros (k & cfg & Hk & Hl). exists (k, cfg).
    by rewrite Hp, elem_of_map_to_list.
Qed.

(** The line of one alias, by cases on the flag and the sharing count. *)
Lemma certLine_cases (td : templateData) (k : string)
  (cfg : ServiceAliasConfig) :
  certLine td k cfg
  = match aliasEntry k cfg with
    | Some entry =>
      if DisableHTTP2 td || bool_decide (1 < sharing td cfg)%Z
      then Some (plainLine (fqCertPathOf td entry) (Value entry))
      else Some (hintedLine (fqCertPathOf td entry) (Value entry))
    | None => None
    end.
Proof.
  unfold certLine, aliasEntry, sharing, aliasContents.
  destruct (aliasCert cfg) as [cert ok]. done.
Qed.

End CertMap.

(** C5: the lines returned are in descending lexicographic order, for every
    render context and every order in which the alias table is visited: of
    two lines, the later one is never greater than the earlier one. *)
Theorem generateHAProxyCertConfigMap_sorted `{MapCollaborators}
  (td : templateData) (order : list (string * ServiceAliasConfig)) :
  StronglySorted (flip String.le)
    (generateHAProxyCertConfigMap_range order td)
  ∧ StronglySorted (flip String.le) (generateHAProxyCertConfigMap td)
  ∧ ∀ (i j : nat) (x y : string),
      (i < j)%nat →
      generateHAProxyCertConfigMap_range order td !! i = Some x →
      generateHAProxyCertConfigMap_range order td !! j = Some y →
      String.le y x.
Proof.
  split; [apply sortDesc_sorted|]. split; [apply sortDesc_sorted|].
  intros i j x y Hij Hx Hy.
  pose proof (sortDesc_sorted
    (foldl (λ lines kc,
              match certLine td kc.1 kc.2 with
              | Some line => lines ++ [line]
              | None => lines
              end) [] order)) as Hs.
  unfold generateHAProxyCertConfigMap_range in Hx, Hy.
  revert Hs Hx Hy. generalize (GoStrings.sortDesc
    (foldl (λ lines kc,
              match certLine td kc.1 kc.2 with
              | Some line => lines ++ [line]
              | None => lines
              end) [] order)).
  intros l Hs. revert i j Hij. induction Hs as [|z l Hs IH Hall].
  - intros i j _ Hx. by rewrite lookup_nil in Hx.
  - intros [|i] [|j] Hij; try lia; simpl.
    + intros [= <-] Hy. rewrite Forall_forall in Hall.
      apply Hall. by eapply list_elem_of_lookup_2.
    + apply IH. lia.
Qed.

Example generateHAProxyCertConfigMap_sorted_example :
  generateHAProxyCertConfigMap (H := exampleCollaborators) ownCertData
  = ["/var/lib/haproxy/router/certs/b.pem [alpn h2,http/1.1] b.example.com";
     "/var/lib/haproxy/router/certs/a.pem [alpn h2,http/1.1] a.example.com"].
Proof. by vm_compute. Qed.

(** The line of one alias and its hint. *)
Lemma certLine_alpn `{MapCollaborators}
  (td : templateData) (order : list (string * ServiceAliasConfig))
  (k : string) (cfg : ServiceAliasConfig) (entry : HAProxyMapEntry) :
  order ≡ₚ map_to_list (State td) →
  State td !! k = Some cfg →
  aliasEntry k cfg = Some entry →
  ∃ line,
    certLine td k cfg = Some line
    ∧ line ∈ generateHAProxyCertConfigMap_range order td
    ∧ (line = hintedLine (fqCertPathOf td entry) (Value entry)
       ∨ line = plainLine (fqCertPathOf td entry) (Value entry))
    ∧ (line = hintedLine (fqCertPathOf td entry) (Value entry)
       ↔ DisableHTTP2 td = false ∧ (sharing td cfg ≤ 1)%Z)
    ∧ (line = plainLine (fqCertPathOf td entry) (Value entry)
       ↔ DisableHTTP2 td = true ∨ (1 < sharing td cfg)%Z).
Proof.
  intros Hp Hk He.
  pose proof (certLine_cases td k cfg) as Hl. rewrite He in Hl.
  destruct (DisableHTTP2 td) eqn:Hd; simpl in Hl.
  - eexists. split; [exact Hl|]. split.
    { apply generate_range_elem; eauto. }
    split; [by right|]. split.
    + split; [|by intros [? _]].
      intros Heq. symmetry in Heq. by apply hinted_not_plain in Heq.
    + split; auto.
  - case_bool_decide as Hs.
    + eexists. split; [exact Hl|]. split.
      { apply generate_range_elem; eauto. }
      split; [by right|]. split.
      * split; [|intros [_ ?]; lia].
        intros Heq. symmetry in Heq. by apply hinted_not_plain in Heq.
      * split; auto.
    + eexists. split; [exact Hl|]. split.
      { apply generate_range_elem; eauto. }
      split; [by left|]. split.
      * split; [intros _; split; [done|lia]|done].
      * split; [intros Heq; by apply hinted_not_plain in Heq|].
        intros [?|?]; [done|lia].
Qed.

(** C1: for every alias of the table for which the encoder gives an entry,
    the map has the line of that alias; the line has the ALPN hint exactly
    when HTTP/2 is not disabled and the index counts at most one alias for
    the contents of its certificate.  In particular, with HTTP/2 enabled,
    two aliases that share one certificate content, counted twice or more
    by the index, both have lines without the hint, and two aliases with
    distinct contents, each counted once, both have lines with the hint. *)
Theorem generateHAProxyCertConfigMap_alpn `{MapCollaborators}
  (td : templateData) (order : list (string * ServiceAliasConfig)) :
  order ≡ₚ map_to_list (State td) →
  (∀ k cfg entry,
     State td !! k = Some cfg →
     aliasEntry k cfg = Some entry →
     ∃ line,
       certLine td k cfg = Some line
       ∧ line ∈ generateHAProxyCertConfigMap_range order td
       ∧ (line = hintedLine (fqCertPathOf td entry) (Value entry)
          ∨ line = plainLine (fqCertPathOf td entry) (Value entry))
       ∧ (line = hintedLine (fqCertPathOf td entry) (Value entry)
          ↔ DisableHTTP2 td = false ∧ (sharing td cfg ≤ 1)%Z))
  ∧ (∀ k1 k2 cfg1 cfg2 entry1 entry2,
       k1 ≠ k2 →
       State td !! k1 = Some cfg1 → State td !! k2 = Some cfg2 →
       aliasEntry k1 cfg1 = Some entry1 → aliasEntry k2 cfg2 = Some entry2 →
       DisableHTTP2 td = false →
       aliasContents cfg1 = aliasContents cfg2 →
       (2 ≤ sharing td cfg1)%Z →
       plainLine (fqCertPathOf td entry1) (Value entry1)
         ∈ generateHAProxyCertConfigMap_range order td
       ∧ plainLine (fqCertPathOf td entry2) (Value entry2)
         ∈ generateHAProxyCertConfigMap_range order td
       ∧ certLine td k1 cfg1
         = Some (plainLine (fqCertPathOf td entry1) (Value entry1))
       ∧ certLine td k2 cfg2
         = Some (plainLine (fqCertPathOf td entry2) (Value entry2)))
  ∧ (∀ k1 k2 cfg1 cfg2 entry1 entry2,
       k1 ≠ k2 →
       State td !! k1 = Some cfg1 → State td !! k2 = Some cfg2 →
       aliasEntry k1 cfg1 = Some entry1 → aliasEntry k2 cfg2 = Some entry2 →
       DisableHTTP2 td = false →
       aliasContents cfg1 ≠ aliasContents cfg2 →
       sharing td cfg1 = 1%Z → sharing td cfg2 = 1%Z →
       hintedLine (fqCertPathOf td entry1) (Value entry1)
         ∈ generateHAProxyCertConfigMap_range order td
       ∧ hintedLine (fqCertPathOf td entry2) (Value entry2)
         ∈ generateHAProxyCertConfigMap_range order td
       ∧ certLine td k1 cfg1
         = Some (hintedLine (fqCertPathOf td entry1) (Value entry1))
       ∧ certLine td k2 cfg2
         = Some (hintedLine (fqCertPathOf td entry2) (Value entry2))).
Proof.
  intros Hp. split; [|split].
  - intros k cfg entry Hk He.
    destruct (certLine_alpn td order k cfg entry Hp Hk He)
      as (line & ? & ? & ? & ? & ?). eauto 10.
  - intros k1 k2 cfg1 cfg2 e1 e2 _ Hk1 Hk2 He1 He2 Hd Hc Hs.
    assert (2 ≤ sharing td cfg2)%Z as Hs2.
    { unfold sharing in *. by rewrite <- Hc. }
    destruct (certLine_alpn td order k1 cfg1 e1 Hp Hk1 He1)
      as (l1 & Hl1 & Hin1 & _ & _ & Hp1).
    destruct (certLine_alpn td order k2 cfg2 e2 Hp Hk2 He2)
      as (l2 & Hl2 & Hin2 & _ & _ & Hp2).
    assert (l1 = plainLine (fqCertPathOf td e1) (Value e1)) as ->
      by (apply Hp1; right; lia).
    assert (l2 = plainLine (fqCertPathOf td e2) (Value e2)) as ->
      by (apply Hp2; right; lia).
    done.
  - intros k1 k2 cfg1 cfg2 e1 e2 _ Hk1 Hk2 He1 He2 Hd _ Hs1 Hs2.
    destruct (certLine_alpn td order k1 cfg1 e1 Hp Hk1 He1)
      as (l1 & Hl1 & Hin1 & _ & Hh1 & _).
    destruct (certLine_alpn td order k2 cfg2 e2 Hp Hk2 He2)
      as (l2 & Hl2 & Hin2 & _ & Hh2 & _).
    assert (l1 = hintedLine (fqCertPathOf td e1) (Value e1)) as ->
      by (apply Hh1; split; [done|lia]).
    assert (l2 = hintedLine (fqCertPathOf td e2) (Value e2)) as ->
      by (apply Hh2; split; [done|lia]).
    done.
Qed.

(** With two aliases sharing the certificate "PEM-1", the lines of both
    are without the hint. *)
Lemma generateHAProxyCertConfigMap_alpn_witness :
  "/var/lib/haproxy/router/certs/a.pem a.example.com"
    ∈ generateHAProxyCertConfigMap (H := exampleCollaborators) sharedCertData
  ∧ "/var/lib/haproxy/router/certs/b.pem b.example.com"
    ∈ generateHAProxyCertConfigMap (H := exampleCollaborators) sharedCertData.
Proof.
  destruct (generateHAProxyCertConfigMap_alpn (H := exampleCollaborators)
              sharedCertData (map_to_list (State sharedCertData)))
    as (_ & Hshared & _); [reflexivity|].
  destruct (Hshared "a" "b"
              (certAlias "a.example.com" "PEM-1")
              (certAlias "b.example.com" "PEM-1")
              {| Key := "a.pem"; Value := "a.example.com" |}
              {| Key := "b.pem"; Value := "b.example.com" |})
    as (Ha & Hb & _); [by vm_compute..|].
  split; [exact Ha|exact Hb].
Defined.

(** The two examples by evaluation. *)
Example generateHAProxyCertConfigMap_alpn_examples :
  generateHAProxyCertConfigMap (H := exampleCollaborators) sharedCertData
  = ["/var/lib/haproxy/router/certs/b.pem b.example.com";
     "/var/lib/haproxy/router/certs/a.pem a.example.com"]
  ∧ generateHAProxyCertConfigMap (H := exampleCollaborators) ownCertData
  = ["/var/lib/haproxy/router/certs/b.pem [alpn h2,http/1.1] b.example.com";
     "/var/lib/haproxy/router/certs/a.pem [alpn h2,http/1.1] a.example.com"].
Proof. by vm_compute. Qed.

(** ** Pattern cache *)

Section Cache.
Context `{RegexpLib}.

Lemma cachedRegexpCompile_hit (pattern : string) (st : CacheState)
  (v : Regexp) :
  store st !! pattern = Some v →
  cachedRegexpCompile pattern st = (inl v, st).
Proof.
  intros Hv. unfold cachedRegexpCompile, bind, Load, ret. by rewrite Hv.
Qed.

Lemma cachedRegexpCompile_miss_ok (pattern : string) (st : CacheState)
  (re : Regexp) :
  store st !! pattern = None →
  regexp_Compile pattern = inl re →
  cachedRegexpCompile pattern st
  = (inl re, {| store := <[pattern := re]> (store st);
                trace := EvStore pattern :: EvCompile pattern :: trace st |}).
Proof.
  intros Hv Hc.
  unfold cachedRegexpCompile, bind, Load, callCompile, Store, ret.
  by rewrite Hv, Hc.
Qed.

Lemma cachedRegexpCompile_miss_err (pattern : string) (st : CacheState)
  (err : error) :
  store st !! pattern = None →
  regexp_Compile pattern = inr err →
  cachedRegexpCompile pattern st
  = (inr err, {| store := store st;
                 trace := EvCompile pattern :: trace st |}).
Proof.
  intros Hv Hc.
  unfold cachedRegexpCompile, bind, Load, callCompile, Store, ret.
  by rewrite Hv, Hc.
Qed.

Lemma consistent_empty : consistent emptyCache.
Proof. intros pattern re. unfold emptyCache. simpl. by rewrite lookup_empty. Qed.

Lemma cachedRegexpCompile_consistent (pattern : string) (st : CacheState) :
  consistent st → consistent (cachedRegexpCompile pattern st).2.
Proof.
  intros Hc. destruct (store st !! pattern) as [v|] eqn:Hv.
  - by rewrite (cachedRegexpCompile_hit _ _ _ Hv).
  - destruct (regexp_Compile pattern) as [re|err] eqn:Hre.
    + rewrite (cachedRegexpCompile_miss_ok _ _ _ Hv Hre). simpl.
      intros p re'. simpl. intros [[<- <-]|[_ Hp]]%lookup_insert_Some; auto.
    + rewrite (cachedRegexpCompile_miss_err _ _ _ Hv Hre). done.
Qed.

(** On a consistent cache the result is that of [regexp.Compile]. *)
Lemma cachedRegexpCompile_result (pattern : string) (st : CacheState) :
  consistent st →
  (cachedRegexpCompile pattern st).1 = regexp_Compile pattern.
Proof.
  intros Hc. destruct (store st !! pattern) as [v|] eqn:Hv.
  - rewrite (cachedRegexpCompile_hit _ _ _ Hv). simpl. symmetry. by apply Hc.
  - destruct (regexp_Compile pattern) as [re|err] eqn:Hre.
    + by rewrite (cachedRegexpCompile_miss_ok _ _ _ Hv Hre).
    + by rewrite (cachedRegexpCompile_miss_err _ _ _ Hv Hre).
Qed.

End Cache.

(** C9: two calls in a row for a valid pattern both succeed with one and
    the same compiled pattern (so the two match the same texts); the second
    call finds the entry, changes nothing and neither compiles nor writes;
    over both calls the entry is written at most once, and not at all when
    it was there before.  A call that fails leaves the entries of the cache
    as they were: the pattern still has none. *)
Theorem cachedRegexpCompile_idempotent `{RegexpLib}
  (pattern : string) (st : CacheState) :
  (∀ re, regexp_Compile pattern = inl re →
     let first := cachedRegexpCompile pattern st in
     let second := cachedRegexpCompile pattern first.2 in
     ∃ re1,
       first.1 = inl re1 ∧ second.1 = inl re1
       ∧ (∀ re2, second.1 = inl re2 →
            ∀ s, MatchString re2 s = MatchString re1 s)
       ∧ store first.2 !! pattern = Some re1
       ∧ second.2 = first.2
       ∧ (storesOf pattern (trace second.2)
          ≤ storesOf pattern (trace st) + 1)%nat
       ∧ (compilesOf pattern (trace second.2)
          ≤ compilesOf pattern (trace st) + 1)%nat
       ∧ (is_Some (store st !! pattern) → first.2 = st))
  ∧ (∀ err, (cachedRegexpCompile pattern st).1 = inr err →
       store (cachedRegexpCompile pattern st).2 = store st
       ∧ store st !! pattern = None).
Proof.
  split.
  - intros re Hre first second. subst first second.
    destruct (store st !! pattern) as [v|] eqn:Hv.
    + rewrite (cachedRegexpCompile_hit _ _ _ Hv). simpl.
      rewrite (cachedRegexpCompile_hit _ _ _ Hv). simpl.
      exists v.
      split; [done|]. split; [done|]. split; [by intros re2 [= ->]|].
      split; [done|]. split; [done|]. split; [lia|]. split; [lia|]. done.
    + rewrite (cachedRegexpCompile_miss_ok _ _ _ Hv Hre). simpl.
      rewrite (cachedRegexpCompile_hit pattern _ re)
        by (simpl; apply lookup_insert_eq).
      simpl. exists re.
      split; [done|]. split; [done|]. split; [by intros re2 [= ->]|].
      split; [apply lookup_insert_eq|]. split; [done|].
      unfold storesOf, compilesOf. simpl.
      rewrite !bool_decide_eq_true_2 by done. simpl.
      split; [lia|]. split; [lia|]. intros [v Hv']. congruence.
  - intros err. destruct (store st !! pattern) as [v|] eqn:Hv.
    + by rewrite (cachedRegexpCompile_hit _ _ _ Hv).
    + destruct (regexp_Compile pattern) as [re|e] eqn:Hre.
      * by rewrite (cachedRegexpCompile_miss_ok _ _ _ Hv Hre).
      * by rewrite (cachedRegexpCompile_miss_err _ _ _ Hv Hre).
Qed.

(** In the model of package regexp: the pattern "a|b" is compiled once by
    two calls in a row, and the pattern "(" leaves no entry. *)
Lemma cachedRegexpCompile_idempotent_witness :
  (cachedRegexpCompile (H := GoRegexp.model) "a|b"
     (cachedRegexpCompile (H := GoRegexp.model) "a|b" emptyCache).2).2
  = (cachedRegexpCompile (H := GoRegexp.model) "a|b" emptyCache).2
  ∧ store (cachedRegexpCompile (H := GoRegexp.model) "(" emptyCache).2 = ∅.
Proof.
  destruct (cachedRegexpCompile_idempotent (H := GoRegexp.model) "a|b" emptyCache)
    as [Hvalid _].
  destruct (Hvalid (GoRegexp.Alt (GoRegexp.Lit "a") (GoRegexp.Lit "b")))
    as (re1 & _ & _ & _ & _ & Hsame & _); [by vm_compute|].
  split; [exact Hsame|].
  destruct (cachedRegexpCompile_idempotent (H := GoRegexp.model) "(" emptyCache)
    as [_ Hfail].
  destruct (Hfail "error parsing regexp: (") as [Hstore _]; [by vm_compute|].
  exact Hstore.
Defined.

Example cachedRegexpCompile_trace_example :
  trace (cachedRegexpCompile (H := GoRegexp.model) "a|b"
           (cachedRegexpCompile (H := GoRegexp.model) "a|b" emptyCache).2).2
  = [EvStore "a|b"; EvCompile "a|b"].
Proof. by vm_compute. Qed.

(** ** First match *)




Example firstMatch_examples :
  (firstMatch (H := GoRegexp.model) "a|b" ["c"; "b"; "a"] emptyCache).1 = "b"
  ∧ (firstMatch (H := GoRegexp.model) "(" ["x"] emptyCache).1 = ""
  ∧ (firstMatch (H := GoRegexp.model) "a|b" ["c"; "ab"] emptyCache).1 = ""
  ∧ regexp_Compile (RegexpLib := GoRegexp.model) (anchored "(")
    = inr "error parsing regexp: \A(?:()\z".
Proof. by vm_compute. Qed.

(** ** UTF-8 runes *)

Section Runes.
Import GoStrings.

Lemma inRange_isCont (lo hi : N) (c : ascii) :
  0x80 ≤ lo → hi ≤ 0xBF → inRange lo hi c = true → isCont c = true.
Proof.
  unfold inRange, isCont. intros Hlo Hhi.
  rewrite !andb_true_iff, !N.leb_le. lia.
Qed.

Lemma inRange3_isCont (b0 c : ascii) :
  inRange (if byteN b0 =? 0xE0 then 0xA0 else 0x80)
          (if byteN b0 =? 0xED then 0x9F else 0xBF) c = true →
  isCont c = true.
Proof.
  apply inRange_isCont; [destruct (_ =? _)|destruct (_ =? _)]; lia.
Qed.

Lemma inRange4_isCont (b0 c : ascii) :
  inRange (if byteN b0 =? 0xF0 then 0x90 else 0x80)
          (if byteN b0 =? 0xF4 then 0x8F else 0xBF) c = true →
  isCont c = true.
Proof.
  apply inRange_isCont; [destruct (_ =? _)|destruct (_ =? _)]; lia.
Qed.

Lemma runeWidth_pos (s : list ascii) : s ≠ [] → (1 ≤ runeWidth s)%nat.
Proof.
  destruct s as [|b0 t]; [done|]. intros _. unfold runeWidth.
  repeat case_match; lia.
Qed.

Lemma runeWidth_le (s : list ascii) : (runeWidth s ≤ length s)%nat.
Proof.
  destruct s as [|b0 t]; [done|]. unfold runeWidth.
  repeat case_match; simpl; lia.
Qed.

(** The bytes of a rune after its first are continuation bytes. *)
Lemma runeWidth_cont (s : list ascii) (i : nat) (b : ascii) :
  (1 ≤ i < runeWidth s)%nat → s !! i = Some b → isCont b = true.
Proof.
  destruct s as [|b0 t]; [simpl; lia|]. unfold runeWidth.
  intros Hi Hb. repeat case_match; try lia; subst;
    repeat match goal with
    | H : _ && _ = true |- _ => apply andb_true_iff in H as [? ?]
    end;
    destruct i as [|[|[|[|i]]]]; try lia; simplify_eq/=;
    eauto using inRange3_isCont, inRange4_isCont;
    try (eapply inRange_isCont; [| |eassumption]; lia).
Qed.

(** A byte that is no continuation byte ends the rune before it: the
    width of the first rune of [l] does not depend on what follows. *)
Lemma runeWidth_app (l : list ascii) (c : ascii) (rest : list ascii) :
  l ≠ [] → isCont c = false →
  runeWidth (l ++ c :: rest) = runeWidth l.
Proof.
  intros Hl Hc.
  assert (∀ b0, inRange (if byteN b0 =? 0xE0 then 0xA0 else 0x80)
                  (if byteN b0 =? 0xED then 0x9F else 0xBF) c = false) as H3.
  { intros b0. destruct (inRange _ _ c) eqn:Hr; [|done].
    apply inRange3_isCont in Hr. congruence. }
  assert (∀ b0, inRange (if byteN b0 =? 0xF0 then 0x90 else 0x80)
                  (if byteN b0 =? 0xF4 then 0x8F else 0xBF) c = false) as H4.
  { intros b0. destruct (inRange _ _ c) eqn:Hr; [|done].
    apply inRange4_isCont in Hr. congruence. }
  destruct l as [|b0 [|b1 [|b2 [|b3 l]]]]; [done|..]; simpl;
    rewrite ?Hc, ?H3, ?H4, ?andb_false_r; simpl;
    repeat case_match; done.
Qed.

Lemma runesN_concat (fuel : nat) (s : list ascii) :
  (length s ≤ fuel)%nat → concat (runesN fuel s) = s.
Proof.
  revert s. induction fuel as [|fuel IH]; intros s Hs.
  - destruct s; [done|simpl in Hs; lia].
  - destruct s as [|b0 t]; [done|]. cbn [runesN concat].
    rewrite IH.
    + apply take_drop.
    + pose proof (runeWidth_pos (b0 :: t)) as Hp.
      rewrite length_drop. simpl in *. specialize (Hp ltac:(done)). lia.
Qed.

(** The runes of a text are its bytes, cut. *)
Lemma runes_concat (s : list ascii) : concat (runes s) = s.
Proof. by apply runesN_concat. Qed.

Lemma runesN_fuel (fuel fuel' : nat) (s : list ascii) :
  (length s ≤ fuel)%nat → (length s ≤ fuel')%nat →
  runesN fuel s = runesN fuel' s.
Proof.
  revert fuel' s. induction fuel as [|fuel IH]; intros fuel' s Hs Hs'.
  - destruct s; [by destruct fuel'|simpl in Hs; lia].
  - destruct s as [|b0 t]; [by destruct fuel'|].
    destruct fuel' as [|fuel']; [simpl in Hs'; lia|].
    cbn [runesN]. f_equal. apply IH.
    all: pose proof (runeWidth_pos (b0 :: t) ltac:(done)) as Hp.
    all: rewrite length_drop; simpl in *; lia.
Qed.

Lemma runes_cons (b0 : ascii) (t : list ascii) :
  runes (b0 :: t)
  = take (runeWidth (b0 :: t)) (b0 :: t)
    :: runes (drop (runeWidth (b0 :: t)) (b0 :: t)).
Proof.
  unfold runes. cbn [length runesN]. f_equal. apply runesN_fuel; [|done].
  pose proof (runeWidth_pos (b0 :: t) ltac:(done)) as Hp.
  rewrite length_drop. simpl in *. lia.
Qed.

Lemma runes_nonempty (s : list ascii) (r : list ascii) :
  r ∈ runes s → r ≠ [].
Proof.
  remember (length s) as n eqn:Hn. revert s Hn.
  induction n as [n IH] using lt_wf_ind. intros s -> Hr.
  destruct s as [|b0 t]; [by apply elem_of_nil in Hr|].
  rewrite runes_cons in Hr. apply elem_of_cons in Hr as [->|Hr].
  - pose proof (runeWidth_pos (b0 :: t) ltac:(done)) as Hp.
    destruct (runeWidth (b0 :: t)); [lia|done].
  - eapply IH; [|done|exact Hr].
    pose proof (runeWidth_pos (b0 :: t) ltac:(done)) as Hp.
    rewrite length_drop. simpl in *. lia.
Qed.

(** Cutting into runes goes through a byte that starts a rune. *)
Lemma runes_app (l : list ascii) (c : ascii) (rest : list ascii) :
  isCont c = false →
  runes (l ++ c :: rest) = runes l ++ runes (c :: rest).
Proof.
  intros Hc. remember (length l) as n eqn:Hn. revert l Hn.
  induction n as [n IH] using lt_wf_ind. intros l ->.
  destruct l as [|b0 t]; [done|].
  change ((b0 :: t) ++ c :: rest) with (b0 :: (t ++ c :: rest)).
  rewrite (runes_cons b0 (t ++ c :: rest)), (runes_cons b0 t).
  change (b0 :: (t ++ c :: rest)) with ((b0 :: t) ++ c :: rest).
  rewrite runeWidth_app by done.
  pose proof (runeWidth_pos (b0 :: t) ltac:(done)) as Hp.
  pose proof (runeWidth_le (b0 :: t)) as Hle.
  rewrite take_app_le, drop_app_le by done.
  cbn [app]. f_equal. eapply IH; [|done].
  rewrite length_drop. simpl in *. lia.
Qed.

End Runes.

(** ** White space and the list of addresses *)

Section Spaces.
Import GoStrings.

Lemma str_bytes (s : string) : str (bytes s) = s.
Proof. apply String.string_of_list_ascii_of_string. Qed.

Lemma bytes_str (l : list ascii) : bytes (str l) = l.
Proof. apply String.list_ascii_of_string_of_list_ascii. Qed.

Lemma length_bytes (s : string) : length (bytes s) = String.length s.
Proof. induction s as [|c s IH]; simpl; [done|]. by rewrite <- IH. Qed.

(** A white-space rune is the well-formed encoding of one rune, and its
    first byte is no continuation byte. *)
Lemma isSpaceRune_width (w rest : list ascii) :
  isSpaceRune w = true → runeWidth (w ++ rest) = length w.
Proof.
  unfold isSpaceRune.
  destruct w as [|b0 [|b1 [|b2 [|b3 w]]]]; simpl; try done.
  - rewrite orb_true_iff, andb_true_iff, !N.leb_le, N.eqb_eq. intros Hb.
    assert ((byteN b0 <? 194) = true) as -> by (apply N.ltb_lt; lia). done.
  - rewrite andb_true_iff, orb_true_iff, !N.eqb_eq. intros [Hb0 Hb1].
    unfold isCont. rewrite Hb0. simpl.
    assert ((128 <=? byteN b1) && (byteN b1 <=? 191) = true) as ->; [|done].
    rewrite andb_true_iff, !N.leb_le. lia.
  - rewrite !orb_true_iff, !andb_true_iff, !orb_true_iff, !andb_true_iff,
      !N.eqb_eq, !N.leb_le.
    unfold inRange, isCont.
    generalize (byteN b0) (byteN b1) (byteN b2). intros n0 n1 n2 Hb.
    assert (n0 = 225 ∧ n1 = 154 ∧ n2 = 128
            ∨ n0 = 226 ∧ n1 = 128 ∧ 128 ≤ n2 ≤ 175
            ∨ n0 = 226 ∧ n1 = 129 ∧ n2 = 159
            ∨ n0 = 227 ∧ n1 = 128 ∧ n2 = 128)
      as [(-> & -> & H2)|[(-> & -> & H2)|[(-> & -> & H2)|(-> & -> & H2)]]]
      by lia; simpl;
      (assert ((128 <=? n2) && (n2 <=? 191) = true) as ->;
         [rewrite andb_true_iff, !N.leb_le; lia|done]).
Qed.

Lemma isSpaceRune_start (w : list ascii) :
  isSpaceRune w = true → ∃ c w', w = c :: w' ∧ isCont c = false.
Proof.
  unfold isSpaceRune, isCont.
  destruct w as [|b0 [|b1 [|b2 [|b3 w]]]]; simpl; try done; intros Hb;
    eexists _, _; (split; [done|]);
    rewrite andb_false_iff, !N.leb_gt;
    revert Hb;
    rewrite ?orb_true_iff, ?andb_true_iff, ?orb_true_iff, ?andb_true_iff,
      ?N.eqb_eq, ?N.leb_le; lia.
Qed.

Lemma runes_space_head (w rest : list ascii) :
  isSpaceRune w = true → runes (w ++ rest) = w :: runes rest.
Proof.
  intros Hw. destruct (isSpaceRune_start w Hw) as (c & w' & -> & _).
  change ((c :: w') ++ rest) with (c :: (w' ++ rest)).
  rewrite runes_cons.
  change (c :: (w' ++ rest)) with ((c :: w') ++ rest).
  rewrite (isSpaceRune_width _ rest Hw).
  by rewrite take_app_length, drop_app_length.
Qed.

Lemma runes_space_last (init w : list ascii) :
  isSpaceRune w = true → runes (init ++ w) = runes init ++ [w].
Proof.
  intros Hw. destruct (isSpaceRune_start w Hw) as (c & w' & -> & Hc).
  rewrite runes_app by done. f_equal.
  pose proof (runes_space_head (c :: w') [] Hw) as Hh.
  by rewrite app_nil_r in Hh.
Qed.

(** Leading and trailing white space, read off the runes. *)
Lemma hasLeadingSpace_runes (s : string) :
  hasLeadingSpace s
  ↔ ∃ w rs, isSpaceRune w = true ∧ runes (bytes s) = w :: rs.
Proof.
  split.
  - intros (w & rest & Hw & Hs). exists w, (runes rest).
    split; [done|]. rewrite Hs. by apply runes_space_head.
  - intros (w & rs & Hw & Hs). exists w, (concat rs). split; [done|].
    by rewrite <- (runes_concat (bytes s)), Hs.
Qed.

Lemma hasTrailingSpace_runes (s : string) :
  hasTrailingSpace s
  ↔ ∃ rs w, isSpaceRune w = true ∧ runes (bytes s) = rs ++ [w].
Proof.
  split.
  - intros (init & w & Hw & Hs). exists (runes init), w.
    split; [done|]. rewrite Hs. by apply runes_space_last.
  - intros (rs & w & Hw & Hs). exists (concat rs), w. split; [done|].
    rewrite <- (runes_concat (bytes s)), Hs, concat_app. simpl.
    by rewrite app_nil_r.
Qed.

Lemma len_reverse (rs : list (list ascii)) : len (reverse rs) = len rs.
Proof.
  unfold len. induction rs as [|r rs IH]; [done|].
  rewrite reverse_cons, concat_app, length_app, IH. simpl.
  rewrite app_nil_r, length_app. lia.
Qed.

Lemma dropSpaces_suffix (rs : list (list ascii)) :
  ∃ pre, rs = pre ++ dropSpaces rs
         ∧ Forall (λ r, isSpaceRune r = true) pre.
Proof.
  induction rs as [|r rs (pre & IH & Hpre)]; [by exists []|]. simpl.
  destruct (isSpaceRune r) eqn:Hr.
  - exists (r :: pre). split; [by rewrite IH at 1|]. by constructor.
  - by exists [].
Qed.

Lemma len_dropSpaces (rs : list (list ascii)) :
  (len (dropSpaces rs) ≤ len rs)%nat.
Proof.
  destruct (dropSpaces_suffix rs) as (pre & Hrs & _).
  rewrite Hrs at 2. unfold len. rewrite concat_app, length_app. lia.
Qed.

Lemma len_dropSpaces_lt (w : list ascii) (rs : list (list ascii)) :
  isSpaceRune w = true → (len (dropSpaces (w :: rs)) < len (w :: rs))%nat.
Proof.
  intros Hw. simpl. rewrite Hw. pose proof (len_dropSpaces rs).
  destruct (isSpaceRune_start w Hw) as (c & w' & -> & _).
  unfold len in *. simpl. rewrite length_app. lia.
Qed.

Lemma dropSpaces_id (rs : list (list ascii)) :
  (∀ w rs', rs = w :: rs' → isSpaceRune w = false) → dropSpaces rs = rs.
Proof.
  destruct rs as [|r rs]; [done|]. intros Hh. simpl.
  by rewrite (Hh r rs).
Qed.

Lemma trim_shorter_leading (w : list ascii) (rs : list (list ascii)) :
  isSpaceRune w = true → (len (trim (w :: rs)) < len (w :: rs))%nat.
Proof.
  intros Hw. unfold trim. rewrite len_reverse.
  pose proof (len_dropSpaces (reverse (dropSpaces (w :: rs)))) as H1.
  rewrite len_reverse in H1.
  pose proof (len_dropSpaces_lt w rs Hw). lia.
Qed.

Lemma trim_shorter_trailing (rs : list (list ascii)) (w : list ascii) :
  isSpaceRune w = true → (len (trim (rs ++ [w])) < len (rs ++ [w]))%nat.
Proof.
  intros Hw. unfold trim. rewrite len_reverse.
  destruct (dropSpaces_suffix (rs ++ [w])) as (pre & Hrs & Hpre).
  destruct (dropSpaces (rs ++ [w])) as [|r0 rs0] eqn:Hd using rev_ind.
  - simpl. destruct (isSpaceRune_start w Hw) as (c & w' & -> & _).
    unfold len. rewrite concat_app, length_app. simpl. lia.
  - rewrite app_assoc in Hrs.
    apply app_inj_tail in Hrs as [_ ->].
    rewrite reverse_snoc.
    pose proof (len_dropSpaces_lt r0 (reverse rs0) Hw) as Hlt.
    assert (len (r0 :: reverse rs0) = len (rs0 ++ [r0])) as Heq.
    { rewrite <- reverse_snoc. apply len_reverse. }
    pose proof (len_dropSpaces (rs ++ [r0])) as Hle.
    rewrite Hd in Hle. lia.
Qed.

Lemma trim_id (rs : list (list ascii)) :
  (∀ w rs', rs = w :: rs' → isSpaceRune w = false) →
  (∀ rs' w, rs = rs' ++ [w] → isSpaceRune w = false) →
  trim rs = rs.
Proof.
  intros Hh Hl. unfold trim. rewrite (dropSpaces_id rs Hh).
  rewrite dropSpaces_id; [apply reverse_involutive|].
  intros w rs' Hr. apply (Hl (reverse rs') w).
  by rewrite <- (reverse_involutive rs), Hr, reverse_cons.
Qed.

Lemma TrimSpace_eq (s : string) :
  TrimSpace s = str (concat (trim (runes (bytes s)))).
Proof. done. Qed.

(** [TrimSpace] changes the text exactly when it has leading or trailing
    white space. *)
Lemma TrimSpace_changes (s : string) :
  TrimSpace s ≠ s ↔ hasLeadingSpace s ∨ hasTrailingSpace s.
Proof.
  rewrite hasLeadingSpace_runes, hasTrailingSpace_runes, TrimSpace_eq.
  split.
  - intros Hne.
    destruct (runes (bytes s)) as [|r0 rs] eqn:Hrs.
    { exfalso. apply Hne. pose proof (runes_concat (bytes s)) as Hc.
      rewrite Hrs in Hc. simpl in Hc. rewrite <- (str_bytes s), <- Hc. done. }
    destruct (isSpaceRune r0) eqn:Hr0; [left; eauto|].
    destruct (rev_ind (λ l, l = [] ∨ ∃ l' x, l = l' ++ [x]) (or_introl eq_refl)
               (λ x l _, or_intror (ex_intro _ l (ex_intro _ x eq_refl)))
               (r0 :: rs)) as [?|(rs' & w & Hw)]; [done|].
    destruct (isSpaceRune w) eqn:Hsw; [right; exists rs', w; by rewrite <- Hw|].
    exfalso. apply Hne. rewrite trim_id.
    + rewrite <- Hrs, runes_concat. apply str_bytes.
    + by intros w0 rs0 [= <- <-].
    + intros rs0 w0 Heq. rewrite Hw in Heq.
      by apply app_inj_tail in Heq as [_ <-].
  - intros Hsp Heq. apply (f_equal String.length) in Heq.
    rewrite <- !length_bytes, bytes_str in Heq.
    rewrite <- (runes_concat (bytes s)) in Heq at 2.
    destruct Hsp as [(w & rs & Hw & Hrs)|(rs & w & Hw & Hrs)]; rewrite Hrs in Heq.
    + pose proof (trim_shorter_leading w rs Hw). unfold len in *. lia.
    + pose proof (trim_shorter_trailing rs w Hw). unfold len in *. lia.
Qed.

Lemma dropSpaces_allSpace (rs : list (list ascii)) :
  Forall (λ r, isSpaceRune r = true) rs → dropSpaces rs = [].
Proof. induction 1 as [|r rs Hr _ IH]; simpl; [done|]. by rewrite Hr. Qed.

(** [TrimSpace] leaves nothing exactly when the text is white space
    only. *)
Lemma TrimSpace_empty (s : string) : TrimSpace s = "" ↔ allSpace s.
Proof.
  rewrite TrimSpace_eq. unfold allSpace. split.
  - intros Heq. apply (f_equal bytes) in Heq. rewrite bytes_str in Heq.
    simpl in Heq. unfold trim in Heq.
    destruct (dropSpaces_suffix (runes (bytes s))) as (pre & Hrs & Hpre).
    destruct (dropSpaces_suffix (reverse (dropSpaces (runes (bytes s)))))
      as (pre' & Hrs' & Hpre').
    assert (dropSpaces (reverse (dropSpaces (runes (bytes s)))) = []) as Hd.
    { destruct (dropSpaces (reverse _)) as [|r rs] eqn:Hd; [done|exfalso].
      assert (r ∈ runes (bytes s)) as Hin.
      { rewrite Hrs. apply elem_of_app. right.
        apply elem_of_reverse. rewrite Hrs'. apply elem_of_app. right. left. }
      apply runes_nonempty in Hin.
      rewrite reverse_cons, concat_app in Heq. simpl in Heq.
      rewrite app_nil_r in Heq. apply app_eq_nil in Heq as [_ ?]. done. }
    rewrite Hd, app_nil_r in Hrs'.
    rewrite Hrs. apply Forall_app. split; [done|].
    rewrite <- (reverse_involutive (dropSpaces _)), Hrs'.
    by apply Forall_reverse.
  - intros Hall. unfold trim. by rewrite (dropSpaces_allSpace _ Hall).
Qed.

End Spaces.

(** C4: the result is empty when the text is white space only (nothing is
    left after trimming) and when it has leading or trailing white space;
    otherwise it is the fields of the text that parse as an address or a
    CIDR block, in their order, joined by single spaces, which is the
    empty string when no field parses.  So " 10.0.0.1 " gives "", and
    "10.0.0.1 10.0.0.0/8 bogus" gives "10.0.0.1 10.0.0.0/8" when package
    net accepts the first two fields and rejects the third. *)
Theorem parseIPList_spec `{NetLib} (list : string) :
  (GoStrings.TrimSpace list = "" ↔ allSpace list)
  ∧ (allSpace list → parseIPList list = "")
  ∧ (hasLeadingSpace list ∨ hasTrailingSpace list → parseIPList list = "")
  ∧ (¬ allSpace list → ¬ hasLeadingSpace list → ¬ hasTrailingSpace list →
     parseIPList list
     = GoStrings.Join (List.filter validIPOrCIDR (GoStrings.Fields list)) " ")
  ∧ (List.filter validIPOrCIDR (GoStrings.Fields list) = [] →
     parseIPList list = "")
  ∧ parseIPList " 10.0.0.1 " = ""
  ∧ (validIPOrCIDR "10.0.0.1" = true →
     validIPOrCIDR "10.0.0.0/8" = true →
     validIPOrCIDR "bogus" = false →
     parseIPList "10.0.0.1 10.0.0.0/8 bogus" = "10.0.0.1 10.0.0.0/8").
Proof.
  assert (Hbody : ∀ l : string, parseIPList l
    = if bool_decide (GoStrings.TrimSpace l = "") then ""
      else if bool_decide (GoStrings.TrimSpace l ≠ l) then ""
      else GoStrings.Join (List.filter validIPOrCIDR (GoStrings.Fields l)) " ").
  { intros l. unfold parseIPList. rewrite foldl_append_filter. cbn [app].
    case_bool_decide; [done|]. case_bool_decide; [done|].
    by destruct (List.filter _ _). }
  assert (Hlead : hasLeadingSpace list ∨ hasTrailingSpace list →
                  parseIPList list = "").
  { intros Hsp%TrimSpace_changes. rewrite Hbody.
    case_bool_decide; [done|]. by rewrite bool_decide_eq_true_2. }
  split; [apply TrimSpace_empty|].
  split.
  { intros Ha%TrimSpace_empty. rewrite Hbody. by rewrite bool_decide_eq_true_2. }
  split; [done|]. split.
  { intros Ha Hl Ht. rewrite Hbody.
    rewrite bool_decide_eq_false_2 by (by rewrite TrimSpace_empty).
    rewrite bool_decide_eq_false_2; [done|].
    rewrite TrimSpace_changes. tauto. }
  split.
  { intros Hf. rewrite Hbody, Hf. by repeat case_bool_decide. }
  split.
  { rewrite Hbody. by vm_compute. }
  intros H1 H2 H3. rewrite Hbody.
  change (GoStrings.TrimSpace "10.0.0.1 10.0.0.0/8 bogus")
    with "10.0.0.1 10.0.0.0/8 bogus".
  change (GoStrings.Fields "10.0.0.1 10.0.0.0/8 bogus")
    with ["10.0.0.1"; "10.0.0.0/8"; "bogus"].
  cbn [List.filter]. rewrite H1, H2, H3. done.
Qed.

(** The examples of C4 with the example instance of package net. *)
Lemma parseIPList_witness :
  parseIPList (H := ExampleNet.lib) "10.0.0.1 10.0.0.0/8 bogus"
  = "10.0.0.1 10.0.0.0/8"
  ∧ parseIPList (H := ExampleNet.lib) " 10.0.0.1 " = "".
Proof.
  destruct (parseIPList_spec (H := ExampleNet.lib) "") as (_ & _ & _ & _ & _ & Hsp & Hex).
  split; [apply Hex; by vm_compute|exact Hsp].
Defined.

Example parseIPList_examples :
  parseIPList (H := ExampleNet.lib) "10.0.0.1    10.0.0.0/8" = "10.0.0.1 10.0.0.0/8"
  ∧ parseIPList (H := ExampleNet.lib) "10.0.0.256 1.2.3.4/33 01.2.3.4" = ""
  ∧ parseIPList (H := ExampleNet.lib) "" = ""
  ∧ parseIPList (H := ExampleNet.lib) "10.0.0.1 " = ""
  ∧ GoStrings.Fields "10.0.0.1 10.0.0.0/8 bogus"
    = ["10.0.0.1"; "10.0.0.0/8"; "bogus"].
Proof. by vm_compute. Qed.

(** ** The matcher and what a regular expression matches *)

Section Matcher.
Import GoStrings GoRegexp RegexpSem.

Lemma Matches_suffix (n0 : nat) (r : re) (s s' : list ascii) :
  Matches n0 r s s' → ∃ p, s = p ++ s'.
Proof.
  induction 1 as [s|c s|c t Hc|neg cs c t Hc|s Hs| |r1 r2 s s' s'' _ [p1 ->] _ [p2 ->]
                 |r1 r2 s s' _ IH|r1 r2 s s' _ IH|r s
                 |r s s' s'' _ [p1 ->] _ [p2 ->]].
  - by exists [].
  - by exists [c].
  - exists (take (runeWidth (c :: t)) (c :: t)). by rewrite take_drop.
  - exists (take (runeWidth (c :: t)) (c :: t)). by rewrite take_drop.
  - by exists [].
  - by exists [].
  - exists (p1 ++ p2). by rewrite app_assoc.
  - done.
  - done.
  - by exists [].
  - exists (p1 ++ p2). by rewrite app_assoc.
Qed.

Lemma Matches_length (n0 : nat) (r : re) (s s' : list ascii) :
  Matches n0 r s s' → (length s' ≤ length s)%nat.
Proof. intros [p ->]%Matches_suffix. rewrite length_app. lia. Qed.

Lemma Matches_same_length (n0 : nat) (r : re) (s s' : list ascii) :
  Matches n0 r s s' → length s' = length s → s' = s.
Proof.
  intros [p ->]%Matches_suffix. rewrite length_app. intros Hl.
  destruct p; [done|simpl in Hl; lia].
Qed.

Lemma matchFrom_star (n0 : nat) (r : re) (s : list ascii)
  (k : list ascii → bool) :
  matchFrom n0 (Star r) s k = starLoop n0 r k (length s) s.
Proof. done. Qed.

Lemma starLoop_unfold (n0 : nat) (r : re) (k : list ascii → bool)
  (fuel : nat) (s : list ascii) :
  starLoop n0 r k fuel s
  = k s ||
    match fuel with
    | O => false
    | S f =>
      matchFrom n0 r s
        (λ s', bool_decide (length s' < length s)%nat && starLoop n0 r k f s')
    end.
Proof. by destruct fuel. Qed.

(** The matcher is sound and complete for [Matches]. *)
Lemma matchFrom_spec (n0 : nat) (r : re) (s : list ascii)
  (k : list ascii → bool) :
  matchFrom n0 r s k = true ↔ ∃ s', Matches n0 r s s' ∧ k s' = true.
Proof.
  revert s k. induction r as [|c| |neg cs| | |r1 IH1 r2 IH2|r1 IH1 r2 IH2|r IH];
    intros s k.
  - simpl. split; [intros Hk; eauto using Matches|].
    intros (s' & Hm & Hk). by inversion Hm; subst.
  - simpl. destruct s as [|c' s].
    + split; [done|]. intros (s' & Hm & _). inversion Hm.
    + unfold eqc. rewrite andb_true_iff, bool_decide_eq_true. split.
      * intros [-> Hk]. eauto using Matches.
      * intros (s' & Hm & Hk). by inversion Hm; subst.
  - simpl. destruct s as [|c t].
    + split; [done|]. intros (s' & Hm & _). inversion Hm.
    + unfold eqc. rewrite andb_true_iff, negb_true_iff, bool_decide_eq_false.
      split.
      * intros [Hc Hk]. eauto using Matches.
      * intros (s' & Hm & Hk). by inversion Hm; subst.
  - simpl. destruct s as [|c t].
    + split; [done|]. intros (s' & Hm & _). inversion Hm.
    + rewrite andb_true_iff. split.
      * intros [Hc Hk]. eauto using Matches.
      * intros (s' & Hm & Hk). by inversion Hm; subst.
  - simpl. rewrite andb_true_iff, bool_decide_eq_true. split.
    + intros [Hl Hk]. eauto using Matches.
    + intros (s' & Hm & Hk). by inversion Hm; subst.
  - simpl. destruct s as [|c t].
    + split; [intros Hk; eauto using Matches|].
      intros (s' & Hm & Hk). by inversion Hm; subst.
    + split; [done|]. intros (s' & Hm & _). inversion Hm.
  - simpl. rewrite IH1. split.
    + intros (s1 & Hm1 & (s2 & Hm2 & Hk)%IH2). eauto using Matches.
    + intros (s2 & Hm & Hk). inversion Hm; subst.
      eexists. split; [eassumption|]. apply IH2. eauto.
  - simpl. rewrite orb_true_iff, IH1, IH2. split.
    + intros [(s' & Hm & Hk)|(s' & Hm & Hk)]; eauto using Matches.
    + intros (s' & Hm & Hk). inversion Hm; subst; eauto.
  - rewrite matchFrom_star. split.
    + generalize (length s) as fuel. intros fuel. revert s.
      induction fuel as [|fuel IHf]; intros s; rewrite starLoop_unfold;
        rewrite orb_true_iff.
      * intros [Hk|?]; [eauto using Matches|done].
      * intros [Hk|Hm]; [eauto using Matches|].
        apply IH in Hm as (s1 & Hm1 & Hk1).
        apply andb_true_iff in Hk1 as [_ Hk1].
        apply IHf in Hk1 as (s2 & Hm2 & Hk2). eauto using Matches.
    + intros (s' & Hm & Hk).
      assert (∀ fuel, (length s ≤ fuel)%nat →
                      starLoop n0 r k fuel s = true) as Hloop; [|by apply Hloop].
      remember (Star r) as sr eqn:Hsr.
      induction Hm as [| | | | | | | | |r' s|r' s s1 s2 Hm1 _ Hm2 IHm2];
        try discriminate; injection Hsr as ->; intros fuel Hf;
        rewrite starLoop_unfold, orb_true_iff.
      * by left.
      * destruct (decide (length s1 = length s)) as [Heq|Hne].
        { apply (Matches_same_length _ _ _ _ Hm1) in Heq as ->.
          rewrite <- orb_true_iff, <- starLoop_unfold. by apply IHm2. }
        pose proof (Matches_length _ _ _ _ Hm1) as Hle.
        destruct fuel as [|fuel]; [lia|]. right.
        apply IH. exists s1. split; [done|].
        rewrite andb_true_iff, bool_decide_eq_true. split; [lia|].
        apply IHm2; [done|done|lia].
Qed.

End Matcher.

Section MatchString.
Import GoStrings GoRegexp RegexpSem.

Lemma elem_of_drop_inv {A} (n : nat) (l : list A) (x : A) :
  x ∈ drop n l → x ∈ l.
Proof.
  intros Hin. rewrite <- (take_drop n l). apply elem_of_app. by right.
Qed.

Lemma runeTailsN_head (fuel : nat) (s : list ascii) :
  (length s ≤ fuel)%nat → s ∈ runeTailsN fuel s.
Proof.
  destruct s as [|c t]; [intros _; destruct fuel; left|].
  destruct fuel as [|fuel]; [simpl; lia|]. intros _. left.
Qed.

Lemma runeTailsN_suffix (fuel : nat) (s t : list ascii) :
  t ∈ runeTailsN fuel s → ∃ p, s = p ++ t.
Proof.
  revert s. induction fuel as [|fuel IH]; intros s.
  - destruct s as [|c s]; simpl; [|by intros ?%elem_of_nil].
    intros ->%list_elem_of_singleton. by exists [].
  - destruct s as [|c s]; cbn [runeTailsN].
    + intros ->%list_elem_of_singleton. by exists [].
    + intros [->|Hin]%elem_of_cons; [by exists []|].
      apply IH in Hin as [p Hp].
      exists (take (runeWidth (c :: s)) (c :: s) ++ p).
      by rewrite <- app_assoc, <- Hp, take_drop.
Qed.

(** [MatchString] is a match somewhere in the text. *)
Lemma matchString_spec (r : re) (s : string) :
  matchString r s = true ↔ MatchesIn r s.
Proof.
  unfold matchString, MatchesIn. rewrite existsb_exists. split.
  - intros (t & Hin & (s' & Hm & _)%matchFrom_spec).
    exists t, s'. by rewrite list_elem_of_In.
  - intros (t & s' & Hin & Hm). exists t. rewrite <- list_elem_of_In.
    split; [done|]. apply matchFrom_spec. eauto.
Qed.

(** A pattern that starts with [^] matches from the start of the text
    only. *)
Lemma matchString_begin (r : re) (s : string) :
  matchString (Cat BeginText r) s = true
  ↔ ∃ s', Matches (length (bytes s)) r (bytes s) s'.
Proof.
  rewrite matchString_spec. unfold MatchesIn. split.
  - intros (t & s' & Hin & Hm). inversion Hm as [| | | | | |r1 r2 t1 t2 t3 Hb Hr| | | |]; subst.
    inversion Hb as [| | | |t' Hl| | | | | |]; subst.
    apply runeTailsN_suffix in Hin as [p Hp].
    assert (p = []) as ->.
    { apply (f_equal length) in Hp. rewrite length_app in Hp.
      destruct p; [done|simpl in Hp; lia]. }
    simpl in Hp. rewrite <- Hp in Hr. eauto.
  - intros (s' & Hm). exists (bytes s), s'. split.
    + by apply runeTailsN_head.
    + eapply M_Cat; [by apply M_Begin|done].
Qed.

Lemma Matches_catList_cons (n0 : nat) (r : re) (l : list re)
  (s s' : list ascii) :
  Matches n0 (catList (r :: l)) s s'
  ↔ ∃ s1, Matches n0 r s s1 ∧ Matches n0 (catList l) s1 s'.
Proof.
  destruct l as [|r' l].
  - simpl. split.
    + intros Hm. exists s'. split; [done|constructor].
    + intros (s1 & Hm & He). by inversion He; subst.
  - change (catList (r :: r' :: l)) with (Cat r (catList (r' :: l))). split.
    + intros Hm. inversion Hm; subst. eauto.
    + intros (s1 & Hm1 & Hm2). by eapply M_Cat.
Qed.

(** A run of literals matches itself. *)
Lemma Matches_literals (n0 : nat) (lit : list ascii) (l : list re)
  (s s' : list ascii) :
  Matches n0 (catList ((Lit <$> lit) ++ l)) s s'
  ↔ ∃ s1, s = lit ++ s1 ∧ Matches n0 (catList l) s1 s'.
Proof.
  revert s. induction lit as [|c lit IH]; intros s.
  - simpl. split; [eauto|]. by intros (s1 & -> & Hm).
  - cbn [fmap list_fmap app]. rewrite Matches_catList_cons. split.
    + intros (s1 & Hc & (s2 & -> & Hm)%IH). inversion Hc; subst. eauto.
    + intros (s1 & -> & Hm). exists (lit ++ s1). split; [constructor|].
      apply IH. eauto.
Qed.

(** A star of a class of excluded ASCII characters matches the texts
    without these characters, up to a character that starts a rune. *)
Lemma Matches_star_notin (n0 : nat) (cs : list ascii) (s s' : list ascii) :
  Matches n0 (Star (Class true cs)) s s' →
  (∀ c, c ∈ cs → isCont c = false) →
  ∃ l, s = l ++ s' ∧ ∀ c, c ∈ cs → c ∉ l.
Proof.
  intros Hm Hcs. remember (Star (Class true cs)) as sr eqn:Hsr.
  induction Hm as [| | | | | | | | |r s|r s s1 s2 Hm1 _ Hm2 IH];
    try discriminate; injection Hsr as ->.
  - exists []. split; [done|]. intros c _ ?%elem_of_nil. done.
  - destruct IH as (l & -> & Hl); [done|].
    inversion Hm1 as [| | |neg cs' c t Hc| | | | | | |]; subst.
    exists (take (runeWidth (c :: t)) (c :: t) ++ l). split.
    + rewrite <- app_assoc.
      match goal with Hd : drop _ _ = _ |- _ => rewrite <- Hd end.
      by rewrite take_drop.
    + intros c' Hc' [Hin|Hin]%elem_of_app; [|by apply (Hl c')].
      apply list_elem_of_lookup in Hin as [i Hi].
      pose proof (lookup_lt_Some _ _ _ Hi) as Hlt.
      rewrite length_take in Hlt.
      rewrite lookup_take_lt in Hi by lia.
      destruct i as [|i].
      * simpl in Hi. injection Hi as ->. simpl in Hc.
        by rewrite bool_decide_eq_true_2 in Hc.
      * apply (runeWidth_cont (c :: t)) in Hi; [|lia].
        rewrite (Hcs c' Hc') in Hi. done.
Qed.

Lemma Matches_star_notin_complete (n0 : nat) (cs : list ascii)
  (l : list ascii) (c0 : ascii) (rest : list ascii) :
  (∀ c, c ∈ cs → c ∉ l) → isCont c0 = false →
  Matches n0 (Star (Class true cs)) (l ++ c0 :: rest) (c0 :: rest).
Proof.
  intros Hl Hc0. remember (length l) as n eqn:Hn. revert l Hn Hl.
  induction n as [n IH] using lt_wf_ind. intros l -> Hl.
  destruct l as [|c t]; [constructor|].
  pose proof (runeWidth_pos (c :: t) ltac:(done)) as Hp.
  pose proof (runeWidth_le (c :: t)) as Hle.
  eapply M_Star_step.
  - change ((c :: t) ++ c0 :: rest) with (c :: (t ++ c0 :: rest)).
    apply M_Class. simpl. rewrite bool_decide_eq_false_2; [done|].
    intros Hin. apply (Hl c Hin). left.
  - change (c :: (t ++ c0 :: rest)) with ((c :: t) ++ c0 :: rest).
    rewrite runeWidth_app by done. rewrite drop_app_le by done.
    eapply IH; [|done|].
    + rewrite length_drop. simpl in *. lia.
    + intros c' Hc' Hin. apply (Hl c' Hc').
      by eapply elem_of_drop_inv.
Qed.

(** [.*] up to the end of the text matches the texts without a line
    feed. *)
Lemma Matches_star_any (n0 : nat) (s s' : list ascii) :
  Matches n0 (Star AnyNotNL) s s' →
  ∃ l, s = l ++ s' ∧ newline ∉ l.
Proof.
  intros Hm. remember (Star AnyNotNL) as sr eqn:Hsr.
  induction Hm as [| | | | | | | | |r s|r s s1 s2 Hm1 _ Hm2 IH];
    try discriminate; injection Hsr as ->.
  - exists []. split; [done|]. by intros ?%elem_of_nil.
  - destruct IH as (l & -> & Hl); [done|].
    inversion Hm1 as [| |c t Hc| | | | | | | |]; subst.
    exists (take (runeWidth (c :: t)) (c :: t) ++ l). split.
    + rewrite <- app_assoc.
      match goal with Hd : drop _ _ = _ |- _ => rewrite <- Hd end.
      by rewrite take_drop.
    + intros [Hin|Hin]%elem_of_app; [|done].
      apply list_elem_of_lookup in Hin as [i Hi].
      pose proof (lookup_lt_Some _ _ _ Hi) as Hlt.
      rewrite length_take in Hlt.
      rewrite lookup_take_lt in Hi by lia.
      destruct i as [|i].
      * simpl in Hi. by injection Hi as ->.
      * apply (runeWidth_cont (c :: t)) in Hi; [|lia]. by vm_compute in Hi.
Qed.

Lemma Matches_star_any_complete (n0 : nat) (l : list ascii) :
  newline ∉ l → Matches n0 (Star AnyNotNL) l [].
Proof.
  remember (length l) as n eqn:Hn. revert l Hn.
  induction n as [n IH] using lt_wf_ind. intros l -> Hl.
  destruct l as [|c t]; [constructor|].
  pose proof (runeWidth_pos (c :: t) ltac:(done)) as Hp.
  eapply M_Star_step.
  - apply M_Any. intros ->. apply Hl. left.
  - eapply IH; [|done|].
    + rewrite length_drop. simpl in *. lia.
    + intros Hin. apply Hl. by eapply elem_of_drop_inv.
Qed.

End MatchString.

(** ** Compiling the wild-card patterns *)

Section WildcardPattern.
Import GoStrings GoRegexp RegexpSem.

Lemma bytes_app (s t : string) : bytes (s +:+ t) = bytes s ++ bytes t.
Proof. induction s as [|c s IH]; simpl; [done|]. by rewrite <- IH. Qed.

Lemma lex_step (st st' : lexSt) (c : ascii) (toks : list token)
  (s : list ascii) :
  lexStep st c = Some (st', toks) →
  lex st (c :: s) = (λ rest, toks ++ rest) <$> lex st' s.
Proof. intros Hs. cbn [lex]. rewrite Hs. simpl. by destruct (lex st' s). Qed.

(** The tokens of a quoted text are its characters, as literals. *)
Lemma lex_quoted (lit rest : list ascii) :
  Forall (λ c, isASCII c = true) lit →
  lex LTop (mbind quoteByte lit ++ rest)
  = (λ toks, (TAtom ∘ Lit <$> lit) ++ toks) <$> lex LTop rest.
Proof.
  induction 1 as [|c lit Hc _ IH].
  - simpl. by destruct (lex LTop rest).
  - rewrite bind_cons, <- app_assoc, fmap_cons.
    unfold quoteByte at 1. destruct (special c) eqn:Hsp.
    + cbn [app].
      rewrite (lex_step LTop LEsc "\" []); [|by vm_compute].
      rewrite (lex_step LEsc LTop c [TAtom (Lit c)]);
        [|by (simpl; rewrite Hsp)].
      rewrite IH. by destruct (lex LTop rest).
    + cbn [app].
      rewrite (lex_step LTop LTop c [TAtom (Lit c)]);
        [|by (simpl; unfold topStep; rewrite Hsp, Hc)].
      rewrite IH. by destruct (lex LTop rest).
Qed.

(** A run of literals is added to the alternative being read. *)
Lemma parse_literals (c : ascii) (lit : list ascii) (toks : list token)
  (stack : list frame) (f : frame) :
  parse ((TAtom ∘ Lit <$> (c :: lit)) ++ toks) stack f
  = parse toks stack
      {| alts := alts f; cur := reverse (Lit <$> (c :: lit)) ++ cur f;
         repeated := false |}.
Proof.
  revert c f. induction lit as [|c' lit IH]; intros c f; [done|].
  change (parse ((TAtom ∘ Lit <$> (c :: c' :: lit)) ++ toks) stack f)
    with (parse ((TAtom ∘ Lit <$> (c' :: lit)) ++ toks) stack (push (Lit c) f)).
  rewrite IH. f_equal. unfold push. simpl. f_equal.
  rewrite !reverse_cons, <- !app_assoc. done.
Qed.

Lemma catList_cons2 (r r' : re) (l : list re) :
  catList (r :: r' :: l) = Cat r (catList (r' :: l)).
Proof. done. Qed.

(** The two patterns of [genSubdomainWildcardRegexp] compile, for a text
    of ASCII characters, to the regular expression [wildcardRe]. *)
Lemma compile_wildcard (text : string) (exactPath : bool) :
  Forall (λ c, isASCII c = true) (bytes text) →
  text ≠ "" →
  compile ("^[^\.]*" +:+ QuoteMeta text
           +:+ (if exactPath then "$" else "(|/.*)$"))
  = inl (wildcardRe (bytes text) exactPath).
Proof.
  intros Hascii Hne. unfold compile.
  rewrite !bytes_app. unfold QuoteMeta. rewrite bytes_str.
  change (bytes "^[^\.]*") with
    ["^"; "["; "^"; "\"; "."; "]"; "*"]%char.
  cbn [app].
  rewrite (lex_step LTop LTop "^" [TAtom BeginText]) by done.
  rewrite (lex_step LTop LCls0 "[" []) by done.
  rewrite (lex_step LCls0 (LCls true []) "^" []) by done.
  rewrite (lex_step (LCls true []) (LClsEsc true []) "\" []) by done.
  rewrite (lex_step (LClsEsc true []) (LCls true ["."%char]) "." []) by done.
  rewrite (lex_step (LCls true ["."%char]) LTop "]" [TAtom notDot]) by done.
  rewrite (lex_step LTop LTop "*" [TStar]) by done.
  rewrite lex_quoted by done.
  destruct (bytes text) as [|c lit] eqn:Hb.
  { exfalso. apply Hne. by rewrite <- (str_bytes text), Hb. }
  destruct exactPath.
  - change (lex LTop (bytes "$")) with (Some [TAtom EndText]).
    cbn [fmap option_fmap option_map mbind option_bind app].
    set (toks := _ ++ [TAtom EndText]).
    cbn [parse push alts cur repeated emptyFrame]. subst toks.
    rewrite parse_literals. cbn [parse push alts cur closeFrame].
    unfold wildcardRe. f_equal.
    unfold closeFrame, push. cbn [alts cur].
    rewrite (reverse_cons _ EndText), reverse_app, reverse_involutive.
    done.
  - change (lex LTop (bytes "(|/.*)$")) with
      (Some [TOpen; TAlt; TAtom (Lit "/"); TAtom AnyNotNL; TStar; TClose;
             TAtom EndText]).
    cbn [fmap option_fmap option_map mbind option_bind app].
    set (toks := _ ++ [TOpen; _; _; _; _; _; _]).
    cbn [parse push alts cur repeated emptyFrame]. subst toks.
    rewrite parse_literals. cbn [parse push alts cur closeFrame repeated].
    unfold wildcardRe. f_equal.
    unfold closeFrame at 1, push. cbn [alts cur].
    rewrite (reverse_cons _ EndText), (reverse_cons _ (closeFrame _)),
      reverse_app, reverse_involutive, <- app_assoc.
    done.
Qed.

(** What the regular expression matches, on the bytes of the text. *)
Lemma wildcardRe_matches (lit : list ascii) (exactPath : bool)
  (candidate : string) :
  matchString (wildcardRe ("."%char :: lit) exactPath) candidate = true
  ↔ ∃ l sfx,
      bytes candidate = l ++ ("."%char :: lit) ++ sfx
      ∧ ("."%char ∉ l)
      ∧ (sfx = []
         ∨ exactPath = false
           ∧ ∃ rest, sfx = "/"%char :: rest ∧ newline ∉ rest).
Proof.
  unfold wildcardRe. rewrite matchString_begin.
  set (n := length (bytes candidate)).
  split.
  - intros (s' & Hm).
    apply Matches_catList_cons in Hm as (s1 & Hstar & Hm).
    apply Matches_literals in Hm as (s2 & -> & Hm).
    apply Matches_star_notin in Hstar as (l & Hl & Hdot).
    2:{ intros c ->%list_elem_of_singleton. done. }
    exists l, s2. split; [done|]. split; [apply Hdot; set_solver|].
    destruct exactPath.
    + left. simpl in Hm. by inversion Hm.
    + apply Matches_catList_cons in Hm as (s3 & Hd & He).
      simpl in He. inversion He; subst.
      inversion Hd as [| | | | | | |? ? ? ? He'|? ? ? ? Hc| |]; subst.
      * left. by inversion He'.
      * right. split; [done|].
        inversion Hc as [| | | | | |? ? ? ? ? Hs Hr| | | |]; subst.
        inversion Hs; subst.
        apply Matches_star_any in Hr as (l' & -> & Hnl).
        exists l'. by rewrite app_nil_r.
  - intros (l & sfx & Hb & Hdot & Hsfx).
    exists []. rewrite Hb.
    apply Matches_catList_cons. exists (("."%char :: lit) ++ sfx). split.
    { apply Matches_star_notin_complete; [|done].
      by intros c ->%list_elem_of_singleton. }
    apply Matches_literals. exists sfx. split; [done|].
    destruct Hsfx as [->|(-> & rest & -> & Hnl)].
    + destruct exactPath; simpl.
      * constructor.
      * econstructor; [apply M_Alt_l; constructor|constructor].
    + apply Matches_catList_cons. exists []. split; [|constructor].
      apply M_Alt_r. econstructor; [constructor|].
      by apply Matches_star_any_complete.
Qed.

End WildcardPattern.

Section Wildcard.
Import GoStrings.
Context `{RouteAPIHelpers}.



End Wildcard.



(** The patterns at work: host names of the parent domain match, with any
    label; another domain, another path and a label with a dot do not; a
    deeper path matches unless the path is exact, and only on one line. *)
Lemma genSubdomainWildcardRegexp_examples :
  let gen := genSubdomainWildcardRegexp (H := ExampleRoute.helpers) in
  let matches pattern text :=
    match GoRegexp.compile pattern with
    | inl re => Some (GoRegexp.matchString re text)
    | inr _ => None
    end in
  gen "www.example.com" "/app" true = "^[^\.]*\.example\.com/app$"
  ∧ gen "www.example.com" "/app" false = "^[^\.]*\.example\.com/app(|/.*)$"
  ∧ gen "localhost" "/app" true = "localhost/app"
  ∧ matches (gen "www.example.com" "/app" true) "api.example.com/app"
    = Some true
  ∧ matches (gen "www.example.com" "/app" true) "www.example.com/app"
    = Some true
  ∧ matches (gen "www.example.com" "/app" true) "api.example.com/app/v1"
    = Some false
  ∧ matches (gen "www.example.com" "/app" false) "api.example.com/app/v1"
    = Some true
  ∧ matches (gen "www.example.com" "/app" false) "api.example.com/apples"
    = Some false
  ∧ matches (gen "www.example.com" "/app" false) "api.example.org/app"
    = Some false
  ∧ matches (gen "www.example.com" "/app" false) "a.b.example.com/app"
    = Some false
  ∧ matches (gen "www.example.com" "/app" false) "apixexample.com/app"
    = Some false
  ∧ matches (gen "www.example.com" "/app" false)
      ("api.example.com/app/v1" +:+ String GoRegexp.newline "v2")
    = Some false.
Proof. vm_compute. repeat split. Qed.

(** ** The pattern cache under all its users *)

Section CacheUsers.
Context `{RegexpLib}.

Lemma matchString_run (pattern s : string) (st : CacheState) :
  matchString pattern s st
  = (match (cachedRegexpCompile pattern st).1 with
     | inl re => (MatchString re s, None)
     | inr err => (false, Some err)
     end, (cachedRegexpCompile pattern st).2).
Proof.
  unfold matchString, bind, ret.
  by destruct (cachedRegexpCompile pattern st) as [[re|err] st'].
Qed.

Lemma firstMatch_run (pattern : string) (values : list string)
  (st : CacheState) :
  firstMatch pattern values st
  = (match (cachedRegexpCompile (anchored pattern) st).1 with
     | inl re => firstMatching re values
     | inr _ => ""
     end, (cachedRegexpCompile (anchored pattern) st).2).
Proof.
  unfold firstMatch, bind, ret.
  by destruct (cachedRegexpCompile (anchored pattern) st) as [[re|err] st'].
Qed.

Lemma matchPattern_run (pattern s : string) (st : CacheState) :
  matchPattern pattern s st
  = (match (cachedRegexpCompile (anchored pattern) st).1 with
     | inl re => MatchString re s
     | inr _ => false
     end, (cachedRegexpCompile (anchored pattern) st).2).
Proof.
  unfold matchPattern, bind. rewrite matchString_run. unfold ret.
  by destruct (cachedRegexpCompile (anchored pattern) st) as [[re|err] st'].
Qed.

Lemma cachedRegexpCompile_grownBy (pattern : string) (st : CacheState) :
  grownBy pattern st (cachedRegexpCompile pattern st).2.
Proof.
  destruct (store st !! pattern) as [v|] eqn:Hv.
  - rewrite (cachedRegexpCompile_hit _ _ _ Hv). split; auto.
  - destruct (regexp_Compile pattern) as [re|err] eqn:Hre.
    + rewrite (cachedRegexpCompile_miss_ok _ _ _ Hv Hre). split; simpl.
      * intros q r Hq. rewrite lookup_insert_Some.
        destruct (decide (pattern = q)) as [<-|]; [congruence|auto].
      * intros q r [[<- <-]|[_ Hq]]%lookup_insert_Some; auto.
    + rewrite (cachedRegexpCompile_miss_err _ _ _ Hv Hre). split; auto.
Qed.

Lemma firstMatching_find (re : Regexp) (values : list string) :
  firstMatching re values = default "" (find (MatchString re) values).
Proof.
  induction values as [|v values IH]; simpl; [done|].
  by destruct (MatchString re v).
Qed.

End CacheUsers.

(** X1: whichever helper is called, the cache only grows: every entry it
    had it still has, unchanged, and the only entry that may be new is the
    compiled form of the pattern asked for ([firstMatch] and
    [matchPattern] ask for the anchored pattern). *)
Theorem cache_only_grows `{RegexpLib} (pattern s : string)
  (values : list string) (st : CacheState) :
  grownBy pattern st (cachedRegexpCompile pattern st).2
  ∧ grownBy pattern st (matchString pattern s st).2
  ∧ grownBy (anchored pattern) st (firstMatch pattern values st).2
  ∧ grownBy (anchored pattern) st (matchPattern pattern s st).2.
Proof.
  rewrite matchString_run, firstMatch_run, matchPattern_run. simpl.
  repeat split; apply cachedRegexpCompile_grownBy.
Qed.

(** X2: on a cache written by [cachedRegexpCompile] only, the answers of
    [matchString] and [matchPattern] are those of the regexp library for
    the pattern, respectively the anchored pattern, whatever the cache
    holds: a pattern that does not compile gives false (and, from
    [matchString], the error), and the cache stays such a cache. *)
Theorem matchPattern_cache_transparent `{RegexpLib} (pattern s : string)
  (st : CacheState) :
  consistent st →
  (matchString pattern s st).1
  = match regexp_Compile pattern with
    | inl re => (MatchString re s, None)
    | inr err => (false, Some err)
    end
  ∧ (matchPattern pattern s st).1
    = match regexp_Compile (anchored pattern) with
      | inl re => MatchString re s
      | inr _ => false
      end
  ∧ consistent (matchString pattern s st).2
  ∧ consistent (matchPattern pattern s st).2.
Proof.
  intros Hc. rewrite matchString_run, matchPattern_run. simpl.
  rewrite !cachedRegexpCompile_result by done.
  repeat split; by apply cachedRegexpCompile_consistent.
Qed.

Lemma matchPattern_cache_transparent_witness :
  (matchPattern (H := GoRegexp.model) "a|b" "b" emptyCache).1 = true
  ∧ (matchPattern (H := GoRegexp.model) "a|b" "ab" emptyCache).1 = false
  ∧ (matchPattern (H := GoRegexp.model) "(" "(" emptyCache).1 = false.
Proof.
  split; [|split].
  - rewrite (proj1 (proj2 (matchPattern_cache_transparent
                             (H := GoRegexp.model) "a|b" "b" emptyCache
                             consistent_empty))).
    by vm_compute.
  - rewrite (proj1 (proj2 (matchPattern_cache_transparent
                             (H := GoRegexp.model) "a|b" "ab" emptyCache
                             consistent_empty))).
    by vm_compute.
  - rewrite (proj1 (proj2 (matchPattern_cache_transparent
                             (H := GoRegexp.model) "(" "(" emptyCache
                             consistent_empty))).
    by vm_compute.
Defined.

(** X3: [firstMatch] returns the first of the values that [matchPattern]
    accepts for the same pattern, and the empty string when it accepts
    none, whatever the two caches hold. *)
Theorem firstMatch_matchPattern `{RegexpLib} (pattern : string)
  (values : list string) (st st' : CacheState) :
  consistent st → consistent st' →
  (firstMatch pattern values st).1
  = default "" (find (λ v, (matchPattern pattern v st').1) values).
Proof.
  intros Hc Hc'. rewrite firstMatch_run. simpl.
  rewrite cachedRegexpCompile_result by done.
  induction values as [|v values IH]; simpl.
  - by destruct (regexp_Compile (anchored pattern)).
  - rewrite matchPattern_run. simpl.
    rewrite cachedRegexpCompile_result by done.
    destruct (regexp_Compile (anchored pattern)) as [re|err]; simpl in *.
    + by destruct (MatchString re v).
    + done.
Qed.

Lemma firstMatch_matchPattern_witness :
  (firstMatch (H := GoRegexp.model) "a|b" ["c"; "b"; "a"] emptyCache).1
  = "b".
Proof.
  rewrite (firstMatch_matchPattern (H := GoRegexp.model) "a|b"
             ["c"; "b"; "a"] emptyCache emptyCache
             consistent_empty consistent_empty).
  by vm_compute.
Defined.

(** X4: a pattern that does not compile is never stored, so every call
    with it compiles it again: on a cache written by [cachedRegexpCompile]
    only, each call with such a pattern adds one compilation and no entry.
    A pattern that compiles is compiled at the first call only. *)
Theorem cachedRegexpCompile_recompiles_invalid `{RegexpLib}
  (pattern : string) (st : CacheState) :
  consistent st →
  (∀ err, regexp_Compile pattern = inr err →
     let st1 := (cachedRegexpCompile pattern st).2 in
     let st2 := (cachedRegexpCompile pattern st1).2 in
     compilesOf pattern (trace st1) = S (compilesOf pattern (trace st))
     ∧ compilesOf pattern (trace st2) = S (S (compilesOf pattern (trace st)))
     ∧ store st2 = store st)
  ∧ (∀ re, regexp_Compile pattern = inl re →
       let st1 := (cachedRegexpCompile pattern st).2 in
       let st2 := (cachedRegexpCompile pattern st1).2 in
       compilesOf pattern (trace st2) = compilesOf pattern (trace st1)).
Proof.
  intros Hc. split.
  - intros err Herr st1 st2.
    assert (store st !! pattern = None) as Hv.
    { destruct (store st !! pattern) as [v|] eqn:Hv; [|done].
      apply Hc in Hv. congruence. }
    subst st2 st1.
    rewrite (cachedRegexpCompile_miss_err _ _ _ Hv Herr). simpl.
    rewrite (cachedRegexpCompile_miss_err pattern _ err) by done. simpl.
    unfold compilesOf. simpl. rewrite !bool_decide_eq_true_2 by done.
    done.
  - intros re Hre st1 st2. subst st2 st1.
    destruct (store st !! pattern) as [v|] eqn:Hv.
    + rewrite (cachedRegexpCompile_hit _ _ _ Hv). simpl.
      by rewrite (cachedRegexpCompile_hit _ _ _ Hv).
    + rewrite (cachedRegexpCompile_miss_ok _ _ _ Hv Hre). simpl.
      rewrite (cachedRegexpCompile_hit pattern _ re); [done|].
      simpl. apply lookup_insert_eq.
Qed.

Lemma cachedRegexpCompile_recompiles_invalid_witness :
  compilesOf "("
    (trace (cachedRegexpCompile (H := GoRegexp.model) "("
              (cachedRegexpCompile (H := GoRegexp.model) "("
                 emptyCache).2).2) = 2%nat.
Proof.
  destruct (cachedRegexpCompile_recompiles_invalid (H := GoRegexp.model)
              "(" emptyCache consistent_empty) as [Hinv _].
  destruct (Hinv "error parsing regexp: (" eq_refl) as (_ & H2 & _).
  exact H2.
Defined.

(** ** The visiting order of a map does not show *)

Section GroupOrder.

Lemma group_range_lookup (aliases : gmap string ServiceAliasConfig)
  (order : list (string * ServiceAliasConfig)) :
  order ≡ₚ map_to_list aliases →
  ∀ h k a,
    groupLookup (getHTTPAliasesGroupedByHost_range order) h k = Some a
    ↔ aliases !! k = Some a
      ∧ TLSTermination a ≠ TLSTerminationPassthrough
      ∧ Host a = h.
Proof.
  intros Hperm h k a. unfold getHTTPAliasesGroupedByHost_range.
  rewrite group_foldl.
  - rewrite Hperm, elem_of_map_to_list. unfold groupLookup.
    rewrite lookup_empty. simpl. naive_solver.
  - rewrite Hperm. apply NoDup_fst_map_to_list.
  - intros h' k' a'. unfold groupLookup. by rewrite lookup_empty.
Qed.

(** A bucket is made when its first alias is put in: none is empty. *)
Lemma groupStep_nonempty
  (groups : gmap string (gmap string ServiceAliasConfig))
  (ka : string * ServiceAliasConfig) :
  (∀ h bucket, groups !! h = Some bucket → bucket ≠ ∅) →
  ∀ h bucket, groupStep groups ka !! h = Some bucket → bucket ≠ ∅.
Proof.
  intros Hne h bucket. destruct ka as [k a]. unfold groupStep.
  case_bool_decide; [apply Hne|].
  intros [[<- <-]|[Hh Hb]]%lookup_insert_Some.
  - apply insert_non_empty.
  - destruct (groups !! Host a) eqn:Hg; [by eapply Hne|].
    rewrite lookup_insert_ne in Hb by done. by eapply Hne.
Qed.

Lemma group_range_nonempty (order : list (string * ServiceAliasConfig)) :
  ∀ h bucket,
    getHTTPAliasesGroupedByHost_range order !! h = Some bucket → bucket ≠ ∅.
Proof.
  unfold getHTTPAliasesGroupedByHost_range.
  assert (∀ h bucket,
            (∅ : gmap string (gmap string ServiceAliasConfig)) !! h
            = Some bucket → bucket ≠ ∅) as Hinit.
  { intros h bucket. by rewrite lookup_empty. }
  revert Hinit.
  generalize (∅ : gmap string (gmap string ServiceAliasConfig)).
  induction order as [|ka order IH]; intros groups Hne; simpl; [done|].
  apply IH. by apply groupStep_nonempty.
Qed.

Lemma nonempty_lookup (bucket : gmap string ServiceAliasConfig) :
  bucket ≠ ∅ → ∃ k a, bucket !! k = Some a.
Proof.
  intros Hne. destruct (map_choose bucket Hne) as (k & a & Hk). eauto.
Qed.

Lemma group_range_perm (aliases : gmap string ServiceAliasConfig)
  (order order' : list (string * ServiceAliasConfig)) :
  order ≡ₚ map_to_list aliases → order' ≡ₚ map_to_list aliases →
  getHTTPAliasesGroupedByHost_range order
  = getHTTPAliasesGroupedByHost_range order'.
Proof.
  intros Hp Hp'.
  assert (∀ h k,
            groupLookup (getHTTPAliasesGroupedByHost_range order) h k
            = groupLookup (getHTTPAliasesGroupedByHost_range order') h k)
    as Heq.
  { intros h k. apply option_eq. intros a.
    by rewrite !(group_range_lookup aliases). }
  pose proof (group_range_nonempty order) as Hne.
  pose proof (group_range_nonempty order') as Hne'.
  revert Heq Hne Hne'.
  generalize (getHTTPAliasesGroupedByHost_range order).
  generalize (getHTTPAliasesGroupedByHost_range order').
  intros g' g Heq Hne Hne'. apply map_eq. intros h.
  destruct (g !! h) as [b|] eqn:Hb, (g' !! h) as [b'|] eqn:Hb'.
  - f_equal. apply map_eq. intros k.
    specialize (Heq h k). unfold groupLookup in Heq.
    by rewrite Hb, Hb' in Heq.
  - destruct (nonempty_lookup b (Hne _ _ Hb)) as (k & a & Hk).
    specialize (Heq h k). unfold groupLookup in Heq.
    rewrite Hb, Hb' in Heq. simpl in Heq. congruence.
  - destruct (nonempty_lookup b' (Hne' _ _ Hb')) as (k & a & Hk).
    specialize (Heq h k). unfold groupLookup in Heq.
    rewrite Hb, Hb' in Heq. simpl in Heq. congruence.
  - done.
Qed.

End GroupOrder.

(** X5: the grouping does not depend on the order in which the alias
    table is visited; it has a bucket for a host exactly when the table has
    an alias of that host that is not passthrough, and no bucket is
    empty. *)
Theorem getHTTPAliasesGroupedByHost_order
  (aliases : gmap string ServiceAliasConfig)
  (order : list (string * ServiceAliasConfig)) :
  order ≡ₚ map_to_list aliases →
  getHTTPAliasesGroupedByHost_range order
  = getHTTPAliasesGroupedByHost aliases
  ∧ (∀ h, is_Some (getHTTPAliasesGroupedByHost aliases !! h)
          ↔ ∃ k a, aliases !! k = Some a
                   ∧ TLSTermination a ≠ TLSTerminationPassthrough
                   ∧ Host a = h)
  ∧ (∀ h bucket,
       getHTTPAliasesGroupedByHost aliases !! h = Some bucket →
       bucket ≠ ∅).
Proof.
  intros Hp. split; [|split].
  - by apply (group_range_perm aliases).
  - intros h. split.
    + intros [bucket Hb].
      destruct (nonempty_lookup bucket (group_range_nonempty _ _ _ Hb))
        as (k & a & Hk).
      exists k, a. apply (group_range_lookup aliases (map_to_list aliases));
        [done|].
      unfold groupLookup. fold (getHTTPAliasesGroupedByHost aliases).
      by rewrite Hb.
    + intros (k & a & Hka).
      apply (group_range_lookup aliases (map_to_list aliases)) in Hka;
        [|done].
      unfold groupLookup in Hka.
      fold (getHTTPAliasesGroupedByHost aliases) in Hka.
      destruct (getHTTPAliasesGroupedByHost aliases !! h); [eauto|done].
  - apply group_range_nonempty.
Qed.

Lemma getHTTPAliasesGroupedByHost_order_witness :
  let aliases : gmap string ServiceAliasConfig :=
    <["b" := mkAlias "example.com" TLSTerminationPassthrough]>
      (<["a" := mkAlias "example.com" TLSTerminationEdge]> ∅) in
  getHTTPAliasesGroupedByHost_range
    [("b", mkAlias "example.com" TLSTerminationPassthrough);
     ("a", mkAlias "example.com" TLSTerminationEdge)]
  = getHTTPAliasesGroupedByHost aliases.
Proof.
  intros aliases.
  apply (getHTTPAliasesGroupedByHost_order aliases).
  vm_compute. apply perm_swap.
Defined.

Section PrimaryOrder.
Import GoStrings.

Lemma primary_range_perm (aliases : gmap string ServiceAliasConfig)
  (order order' : list string) :
  order ≡ₚ (map_to_list aliases).*1 → order' ≡ₚ (map_to_list aliases).*1 →
  getPrimaryAliasKey_range order aliases
  = getPrimaryAliasKey_range order' aliases.
Proof.
  intros Hp Hp'. unfold getPrimaryAliasKey_range.
  assert (sortDesc (replicate (size aliases) "" ++ order)
          = sortDesc (replicate (size aliases) "" ++ order')) as ->.
  { apply sortDesc_unique; [|apply sortDesc_sorted].
    rewrite sortDesc_perm. by rewrite Hp, Hp'. }
  repeat case_bool_decide; try done.
  pose proof (order_length _ _ Hp) as Hl.
  pose proof (order_length _ _ Hp') as Hl'.
  destruct order as [|k [|]], order' as [|k' [|]];
    simpl in Hl, Hl'; try lia.
  rewrite <- Hp' in Hp. by apply Permutation_singleton_r in Hp as [= ->].
Qed.

(** The key chosen for a group that is not empty is a key of the group. *)
Lemma primary_key_in (aliases : gmap string ServiceAliasConfig)
  (order : list string) :
  order ≡ₚ (map_to_list aliases).*1 →
  aliases ≠ ∅ →
  is_Some (aliases !! getPrimaryAliasKey_range order aliases).
Proof.
  intros Hp Hne. pose proof (order_length _ _ Hp) as Hl.
  assert (size aliases ≠ 0%nat) as Hs by (by intros ?%map_size_empty_inv).
  destruct order as [|k0 order']; [simpl in Hl; lia|].
  assert (is_Some (aliases !! k0)) as Hk0.
  { apply (order_elem _ _ Hp). by left. }
  unfold getPrimaryAliasKey_range.
  rewrite bool_decide_eq_false_2 by done.
  assert (is_Some (aliases !!
            match find (λ k, terminates (aliasAt aliases k))
                    (sortDesc (replicate (size aliases) "" ++ k0 :: order'))
            with
            | Some k => k
            | None =>
              default "" (head (sortDesc (replicate (size aliases) ""
                                          ++ k0 :: order')))
            end)) as Hm.
  { destruct (find _ _) as [r|] eqn:Hf.
    - destruct (find_sorted_greatest _ _ _ (sortDesc_sorted _) Hf)
        as (_ & Hr & _).
      destruct (terminates_aliasAt _ _ Hr) as (a & Ha & _). eauto.
    - destruct (head_keys _ _ Hp k0 Hk0) as (r & -> & Hr & _). done. }
  by case_bool_decide.
Qed.

(** When an alias of the group terminates TLS at the edge or re-encrypts,
    the alias chosen does. *)
Lemma primary_key_terminates (aliases : gmap string ServiceAliasConfig)
  (order : list string) (k0 : string) (a0 : ServiceAliasConfig) :
  order ≡ₚ (map_to_list aliases).*1 →
  aliases !! k0 = Some a0 → terminates a0 = true →
  ∃ a, aliases !! getPrimaryAliasKey_range order aliases = Some a
       ∧ terminates a = true.
Proof.
  intros Hp Hk0 Ht0. pose proof (order_length _ _ Hp) as Hl.
  assert (size aliases ≠ 0%nat) as Hs.
  { intros ->%map_size_empty_inv. by rewrite lookup_empty in Hk0. }
  unfold getPrimaryAliasKey_range.
  rewrite bool_decide_eq_false_2 by done.
  destruct (scan_terminating _ _ Hp k0 a0 Hk0 Ht0)
    as (r & a & Hf & Ha & Hta & _).
  rewrite Hf.
  case_bool_decide as Hone; [|eauto].
  destruct order as [|k [|]]; simpl in Hl; try lia.
  assert (k = k0) as ->.
  { assert (k0 ∈ [k]) as Hin by (apply (order_elem _ _ Hp); eauto).
    by apply list_elem_of_singleton in Hin. }
  eauto.
Qed.

End PrimaryOrder.

(** X6: the primary key does not depend on the order in which the keys of
    the group are visited, and for a group that is not empty it is one of
    the keys of the group. *)
Theorem getPrimaryAliasKey_order
  (aliases : gmap string ServiceAliasConfig) (order : list string) :
  order ≡ₚ (map_to_list aliases).*1 →
  getPrimaryAliasKey_range order aliases = getPrimaryAliasKey aliases
  ∧ (aliases ≠ ∅ → is_Some (aliases !! getPrimaryAliasKey aliases)).
Proof.
  intros Hp. split.
  - by apply primary_range_perm.
  - by apply primary_key_in.
Qed.

Lemma getPrimaryAliasKey_order_witness :
  getPrimaryAliasKey_range ["b"; "a"] passthroughAndEdge
  = getPrimaryAliasKey passthroughAndEdge.
Proof.
  apply (getPrimaryAliasKey_order passthroughAndEdge ["b"; "a"]).
  vm_compute. apply perm_swap.
Defined.

(** X7: grouping, then choosing: for every bucket of the grouping, the
    primary key is the key of an alias of the table that has the host of
    the bucket and is not passthrough; and when the table has an edge or
    reencrypt alias for that host, the alias chosen is one. *)
Theorem getPrimaryAliasKey_of_group
  (aliases : gmap string ServiceAliasConfig) (h : string)
  (bucket : gmap string ServiceAliasConfig) :
  getHTTPAliasesGroupedByHost aliases !! h = Some bucket →
  ∃ a,
    bucket !! getPrimaryAliasKey bucket = Some a
    ∧ aliases !! getPrimaryAliasKey bucket = Some a
    ∧ Host a = h
    ∧ TLSTermination a ≠ TLSTerminationPassthrough
    ∧ ((∃ k a', aliases !! k = Some a' ∧ Host a' = h
                ∧ terminates a' = true) →
       terminates a = true).
Proof.
  intros Hb.
  assert (∀ k a, bucket !! k = Some a ↔
                 aliases !! k = Some a
                 ∧ TLSTermination a ≠ TLSTerminationPassthrough
                 ∧ Host a = h) as Hin.
  { intros k a.
    rewrite <- (group_range_lookup aliases (map_to_list aliases)) by done.
    unfold groupLookup. fold (getHTTPAliasesGroupedByHost aliases).
    by rewrite Hb. }
  destruct (primary_key_in bucket (map_to_list bucket).*1) as [a Ha];
    [done|by eapply (group_range_nonempty (map_to_list aliases))|].
  fold (getPrimaryAliasKey bucket) in Ha.
  exists a. split; [done|].
  destruct (proj1 (Hin _ _) Ha) as (Hal & Hnp & Hh).
  split; [done|]. split; [done|]. split; [done|].
  intros (k & a' & Hk & Hh' & Ht).
  assert (bucket !! k = Some a') as Hbk.
  { apply Hin. split; [done|]. split; [|done].
    intros Hpt. unfold terminates in Ht. rewrite Hpt in Ht.
    by vm_compute in Ht. }
  destruct (primary_key_terminates bucket (map_to_list bucket).*1 k a')
    as (a2 & Ha2 & Ht2); [done..|].
  fold (getPrimaryAliasKey bucket) in Ha2. congruence.
Qed.

Lemma getPrimaryAliasKey_of_group_witness :
  let bucket : gmap string ServiceAliasConfig :=
    {[ "a" := mkAlias "example.com" TLSTerminationEdge ]} in
  ∃ a,
    bucket !! getPrimaryAliasKey bucket = Some a
    ∧ passthroughAndEdge !! getPrimaryAliasKey bucket = Some a
    ∧ Host a = "example.com"
    ∧ TLSTermination a ≠ TLSTerminationPassthrough
    ∧ ((∃ k a', passthroughAndEdge !! k = Some a' ∧ Host a' = "example.com"
                ∧ terminates a' = true) →
       terminates a = true).
Proof.
  intros bucket.
  apply (getPrimaryAliasKey_of_group passthroughAndEdge "example.com").
  by vm_compute.
Defined.

(** ** The maps *)

Section Maps.
Import GoStrings.
Context `{MapCollaborators}.

Lemma collect_mapLines (name : string)
  (order : list (string * ServiceAliasConfig)) (lines : list string) :
  foldl (λ lines kc,
           match mapLine name kc.1 kc.2 with
           | Some line => lines ++ [line]
           | None => lines
           end) lines order
  = lines ++ omap (λ kc, mapLine name kc.1 kc.2) order.
Proof.
  revert lines. induction order as [|kc order IH]; intros lines; simpl.
  - by rewrite app_nil_r.
  - rewrite IH.
    destruct (mapLine name kc.1 kc.2); [by rewrite <- app_assoc|done].
Qed.

Lemma omap_perm {A B} (f : A → option B) (l l' : list A) :
  l ≡ₚ l' → omap f l ≡ₚ omap f l'.
Proof.
  induction 1 as [|x l l' _ IH|x y l|l l' l'' _ IH _ IH']; simpl.
  - done.
  - destruct (f x); [by constructor|done].
  - destruct (f x), (f y); try done. apply perm_swap.
  - by etrans.
Qed.

Lemma length_omap_le {A B} (f : A → option B) (l : list A) :
  (length (omap f l) ≤ length l)%nat.
Proof.
  induction l as [|x l IH]; simpl; [done|].
  destruct (f x); simpl; [apply le_n_S|apply le_S]; exact IH.
Qed.

End Maps.

(** X8: the certificate map does not depend on the order in which the
    alias table is visited.  Its lines are the lines of the aliases of the
    table for which the encoder gives an entry, one line for each such
    alias and no other line, so there are at most as many lines as
    aliases. *)
Theorem generateHAProxyCertConfigMap_order `{MapCollaborators}
  (td : templateData) (order : list (string * ServiceAliasConfig)) :
  order ≡ₚ map_to_list (State td) →
  generateHAProxyCertConfigMap_range order td
  = generateHAProxyCertConfigMap td
  ∧ generateHAProxyCertConfigMap td
    ≡ₚ omap (λ kc, certLine td kc.1 kc.2) (map_to_list (State td))
  ∧ (∀ line,
       line ∈ generateHAProxyCertConfigMap td
       ↔ ∃ k cfg, State td !! k = Some cfg ∧ certLine td k cfg = Some line)
  ∧ (length (generateHAProxyCertConfigMap td) ≤ size (State td))%nat.
Proof.
  intros Hp. split; [by apply generate_range_perm|].
  unfold generateHAProxyCertConfigMap.
  split; [|split].
  - rewrite generate_range_eq. apply sortDesc_perm.
  - intros line. by apply generate_range_elem.
  - rewrite generate_range_eq, sortDesc_perm.
    etrans; [apply length_omap_le|]. by rewrite length_map_to_list.
Qed.

Lemma generateHAProxyCertConfigMap_order_witness :
  generateHAProxyCertConfigMap_range (H := exampleCollaborators)
    [("b", certAlias "b.example.com" "PEM-1");
     ("a", certAlias "a.example.com" "PEM-1")] sharedCertData
  = generateHAProxyCertConfigMap (H := exampleCollaborators) sharedCertData.
Proof.
  apply (generateHAProxyCertConfigMap_order (H := exampleCollaborators)
           sharedCertData).
  vm_compute. apply perm_swap.
Defined.

(** X9: [generateHAProxyMap] gives the certificate map for the name of the
    certificate map, in descending order whatever the visiting order.  For
    any other name it hands to the path sort the lines [key value] of the
    entries the encoder gives for the aliases of the table, asked with no
    certificate, one line for each entry; when the path sort does not
    look at the order of its input, the result does not depend on the
    visiting order either. *)
Theorem generateHAProxyMap_lines `{MapCollaborators} `{MapSorter}
  (name : string) (td : templateData)
  (order : list (string * ServiceAliasConfig)) :
  order ≡ₚ map_to_list (State td) →
  (name = certConfigMap →
   generateHAProxyMap_range order name td = generateHAProxyCertConfigMap td
   ∧ StronglySorted (flip String.le) (generateHAProxyMap_range order name td))
  ∧ (name ≠ certConfigMap →
     ∃ lines,
       generateHAProxyMap_range order name td
       = SortMapPaths lines "^[^\.]*\."
       ∧ lines ≡ₚ omap (λ kc, mapLine name kc.1 kc.2)
                    (map_to_list (State td))
       ∧ ∀ line,
           line ∈ lines
           ↔ ∃ k cfg entry,
               State td !! k = Some cfg
               ∧ GenerateMapEntry name (backendConfig k cfg false)
                 = Some entry
               ∧ line = Key entry +:+ " " +:+ Value entry)
  ∧ ((∀ l l' p, l ≡ₚ l' → SortMapPaths l p = SortMapPaths l' p) →
     generateHAProxyMap_range order name td = generateHAProxyMap name td).
Proof.
  intros Hp. split; [|split].
  - intros ->. unfold generateHAProxyMap_range.
    rewrite bool_decide_eq_true_2 by done.
    split; [by apply generate_range_perm|apply sortDesc_sorted].
  - intros Hn. unfold generateHAProxyMap_range.
    rewrite bool_decide_eq_false_2 by done.
    rewrite collect_mapLines. cbn [app].
    eexists. split; [done|]. split; [by apply omap_perm|].
    intros line. rewrite list_elem_of_omap. split.
    + intros ([k cfg] & Hin & Hl). rewrite Hp, elem_of_map_to_list in Hin.
      unfold mapLine in Hl. simpl in Hl.
      destruct (GenerateMapEntry name _) as [entry|] eqn:He; [|done].
      injection Hl as <-. eauto 10.
    + intros (k & cfg & entry & Hk & He & ->). exists (k, cfg).
      rewrite Hp, elem_of_map_to_list. split; [done|].
      unfold mapLine. simpl. by rewrite He.
  - intros Hs. unfold generateHAProxyMap, generateHAProxyMap_range.
    case_bool_decide; [by apply generate_range_perm|].
    rewrite !collect_mapLines. cbn [app]. apply Hs. by apply omap_perm.
Qed.

Lemma generateHAProxyMap_lines_witness :
  generateHAProxyMap_range (H := exampleCollaborators) (H0 := exampleSorter)
    [("b", certAlias "b.example.com" "PEM-1");
     ("a", certAlias "a.example.com" "PEM-1")] certConfigMap sharedCertData
  = generateHAProxyCertConfigMap (H := exampleCollaborators) sharedCertData.
Proof.
  destruct (generateHAProxyMap_lines (H := exampleCollaborators)
              (H0 := exampleSorter) certConfigMap sharedCertData
              [("b", certAlias "b.example.com" "PEM-1");
               ("a", certAlias "a.example.com" "PEM-1")]) as [Hcert _].
  - vm_compute. apply perm_swap.
  - by destruct (Hcert eq_refl) as [Heq _].
Defined.

(** ** Values, environment and endpoints *)

(** X10: [matchValues] is true exactly when the text is one of the allowed
    values, byte for byte; with no allowed value it is false. *)
Theorem matchValues_spec (s : string) (allowedValues : list string) :
  (matchValues s allowedValues = true ↔ s ∈ allowedValues)
  ∧ matchValues s [] = false.
Proof.
  split; [|done].
  induction allowedValues as [|value values IH]; simpl.
  - split; [done|by intros ?%elem_of_nil].
  - case_bool_decide as Hv.
    + subst. split; [left|done].
    + rewrite IH, elem_of_cons. naive_solver.
Qed.

Section Env.

Lemma find_nonempty_none (defaults : list string) :
  find (λ val, bool_decide (val ≠ "")) defaults = None
  ↔ ∀ d, d ∈ defaults → d = "".
Proof.
  induction defaults as [|d defaults IH]; simpl.
  - split; [by intros _ d ?%elem_of_nil|done].
  - case_bool_decide as Hd.
    + split; [done|]. intros Hall. exfalso. apply Hd, Hall. left.
    + try apply dec_stable in Hd. rewrite IH. split.
      * intros Hall d' [->|?]%elem_of_cons; auto.
      * intros Hall d' Hin. apply Hall. by right.
Qed.

Lemma find_nonempty_some (defaults : list string) (d : string) :
  find (λ val, bool_decide (val ≠ "")) defaults = Some d
  ↔ d ≠ "" ∧ ∃ before after,
      defaults = before ++ d :: after ∧ ∀ b, b ∈ before → b = "".
Proof.
  revert d. induction defaults as [|d0 defaults IH]; intros d; simpl.
  - split; [done|]. intros (_ & before & after & Heq & _).
    by destruct before.
  - case_bool_decide as Hd.
    + split.
      * intros [= <-]. split; [done|]. exists [], defaults.
        split; [done|]. by intros b ?%elem_of_nil.
      * intros (Hne & before & after & Heq & Hall).
        destruct before as [|b before]; simpl in Heq.
        { by injection Heq as ->. }
        injection Heq as -> _. exfalso. apply Hd, Hall. left.
    + try apply dec_stable in Hd. subst d0. rewrite IH. split.
      * intros (Hne & before & after & -> & Hall). split; [done|].
        exists ("" :: before), after. split; [done|].
        intros b [->|?]%elem_of_cons; auto.
      * intros (Hne & before & after & Heq & Hall). split; [done|].
        destruct before as [|b before]; simpl in Heq.
        { by injection Heq as <-. }
        injection Heq as _ ->. exists before, after. split; [done|].
        intros b' Hin. apply Hall. by right.
Qed.

End Env.

(** X11: [env] gives the value of the variable when it is set and not
    empty, whatever the defaults; a variable set to the empty string counts
    as not set.  Otherwise it gives the first default that is not empty.
    The result is empty exactly when the value and all defaults are. *)
Theorem env_spec (environ : gmap string string) (name : string)
  (defaults : list string) :
  (∀ v, environ !! name = Some v → v ≠ "" →
        env environ name defaults = v)
  ∧ (environ !! name = None ∨ environ !! name = Some "" →
     ∀ d before after,
       defaults = before ++ d :: after →
       (∀ b, b ∈ before → b = "") → d ≠ "" →
       env environ name defaults = d)
  ∧ (env environ name defaults = ""
     ↔ (environ !! name = None ∨ environ !! name = Some "")
       ∧ ∀ d, d ∈ defaults → d = "")
  ∧ env environ name defaults = env (delete name environ) name
                                    (GoLib.Getenv environ name :: defaults).
Proof.
  unfold env, GoLib.Getenv.
  split; [|split; [|split]].
  - intros v -> Hv. simpl. by rewrite bool_decide_eq_true_2.
  - intros Hunset d before after Hdef Hall Hd.
    assert (default "" (environ !! name) = "") as ->.
    { by destruct Hunset as [-> | ->]. }
    rewrite bool_decide_eq_false_2 by (by intros []).
    assert (find (λ val, bool_decide (val ≠ "")) defaults = Some d) as ->;
      [|done].
    apply find_nonempty_some. split; [done|]. eauto.
  - destruct (environ !! name) as [v|] eqn:Hv; simpl.
    + case_bool_decide as Hne.
      * split; [done|]. intros [[|[= <-]] _]; done.
      * try apply dec_stable in Hne. subst v.
        destruct (find _ defaults) as [d|] eqn:Hf; simpl.
        -- apply find_nonempty_some in Hf as (Hd & before & after & -> & _).
           split; [done|]. intros [_ Hall]. exfalso. apply Hd, Hall.
           apply elem_of_app. right. left.
        -- pose proof (proj1 (find_nonempty_none _) Hf) as Hall. split; [auto|done].
    + destruct (find _ defaults) as [d|] eqn:Hf; simpl.
      * apply find_nonempty_some in Hf as (Hd & before & after & -> & _).
        split; [done|]. intros [_ Hall]. exfalso. apply Hd, Hall.
        apply elem_of_app. right. left.
      * pose proof (proj1 (find_nonempty_none _) Hf) as Hall. split; [auto|done].
  - rewrite lookup_delete_eq. simpl.
    by case_bool_decide.
Qed.

Section Shuffle.
Import GoLib.
Context `{RandLib}.

Lemma insert_perm (l : list Endpoint) (j : nat) (a y : Endpoint) :
  l !! j = Some y → y :: <[j := a]> l ≡ₚ a :: l.
Proof.
  revert j. induction l as [|b l IH]; intros [|j] Hj; simpl in *; try done.
  - injection Hj as ->. apply perm_swap.
  - rewrite perm_swap. rewrite (IH _ Hj). apply perm_swap.
Qed.

Lemma swap_perm (l : list Endpoint) (i j : nat) :
  (i < length l)%nat → (j < length l)%nat →
  ∃ l', swap l i j = Some l' ∧ l' ≡ₚ l ∧ length l' = length l.
Proof.
  intros Hi Hj. unfold swap.
  destruct (lookup_lt_is_Some_2 l i Hi) as [x Hx].
  destruct (lookup_lt_is_Some_2 l j Hj) as [y Hy].
  rewrite Hx, Hy. simpl. eexists. split; [done|].
  split; [|by rewrite !length_insert].
  clear Hi Hj. revert i j Hx Hy.
  induction l as [|a l IH]; intros [|i] [|j] Hx Hy; simpl in *; try done.
  - by injection Hx as ->.
  - injection Hx as ->. by apply insert_perm.
  - injection Hy as ->. by apply insert_perm.
  - constructor. by apply IH.
Qed.

Lemma shuffle_perm (n : nat) (l : list Endpoint) (src : Source) :
  (n ≤ length l)%nat →
  ∃ l' src', shuffle n l src = Some (l', src') ∧ l' ≡ₚ l.
Proof.
  revert l src. induction n as [|i IH]; intros l src Hn; simpl.
  - eauto.
  - pose proof (rand_Intn_range (Z.of_nat i + 1) src) as Hr.
    destruct (rand_Intn (Z.of_nat i + 1) src) as [rIndex src'].
    simpl in Hr. specialize (Hr ltac:(lia)).
    rewrite bool_decide_eq_false_2 by lia.
    destruct (swap_perm l i (Z.to_nat rIndex)) as (l1 & -> & Hp & Hl);
      [lia..|].
    simpl. destruct (IH l1 src') as (l' & src'' & -> & Hp'); [lia|].
    exists l', src''. split; [done|]. by rewrite Hp'.
Qed.

End Shuffle.

(** X12: [processEndpointsForAlias] never fails (every index drawn is in
    range) and returns the endpoints of [endpointsForAlias] rearranged;
    for an action other than shuffle, in any case of letters, it returns
    them as they are and draws nothing.  With a preferred port the
    endpoint table of the service unit is left as it is; without one the
    slice returned is the table itself, so a shuffle rearranges the
    table of the service unit. *)
Theorem processEndpointsForAlias_spec `{GoLib.UnicodeLib} `{GoLib.RandLib}
  (alias : ServiceAliasConfig) (svc : ServiceUnit) (action : string)
  (src : GoLib.Source) :
  ∃ out,
    processEndpointsForAlias alias svc action src = Some out
    ∧ endpointsOut out ≡ₚ endpointsForAlias alias svc
    ∧ tableOut out ≡ₚ EndpointTable svc
    ∧ (GoLib.ToLower action ≠ "shuffle" →
       endpointsOut out = endpointsForAlias alias svc
       ∧ tableOut out = EndpointTable svc
       ∧ sourceOut out = src)
    ∧ (PreferPort alias ≠ "" → tableOut out = EndpointTable svc)
    ∧ (PreferPort alias = "" → tableOut out = endpointsOut out).
Proof.
  unfold processEndpointsForAlias.
  assert (PreferPort alias = "" →
          endpointsForAlias alias svc = EndpointTable svc) as Hsame.
  { intros Hp. unfold endpointsForAlias. by rewrite Hp. }
  case_bool_decide as Ha.
  - destruct (shuffle_perm (length (endpointsForAlias alias svc))
                (endpointsForAlias alias svc) src)
      as (l' & src' & -> & Hp); [done|].
    simpl. eexists. split; [done|]. simpl.
    split; [done|]. split.
    { case_bool_decide as He; [|done].
      rewrite Hp, Hsame; [done|]. by destruct (PreferPort alias). }
    split; [done|]. split.
    + intros Hne. rewrite bool_decide_eq_false_2; [done|].
      by destruct (PreferPort alias).
    + intros ->. done.
  - eexists. split; [done|]. simpl.
    split; [done|]. split; [done|]. split; [done|].
    split; [done|]. intros Hp. by rewrite Hsame.
Qed.

(** A shuffle at work, with the draws 0, 0, 0 (the source 0): the three
    endpoints of the table are rotated, in the table itself when the alias
    prefers no port. *)
Example processEndpointsForAlias_example :
  let a := mkEndpoint "8080" "http" in
  let b := mkEndpoint "8443" "https" in
  let c := mkEndpoint "9090" "metrics" in
  let svc := {| EndpointTable := [a; b; c] |} in
  let run alias action :=
    (λ out, (endpointsOut out, tableOut out))
      <$> processEndpointsForAlias (H := exampleUnicode) (H0 := exampleRand)
            alias svc action 0%Z in
  run (mkAlias "example.com" TLSTerminationEdge) "Shuffle"
  = Some ([b; c; a], [b; c; a])
  ∧ run (mkAlias "example.com" TLSTerminationEdge) "in-order"
    = Some ([a; b; c], [a; b; c])
  ∧ run {| Host := "example.com"; Path := ""; IsWildcard := false;
           TLSTermination := TLSTerminationEdge;
           InsecureEdgeTerminationPolicy := ""; PreferPort := "https";
           Certificates := ∅ |} "shuffle"
    = Some ([b], [a; b; c]).
Proof. by vm_compute. Qed.

(** ** Indentation *)

Section Lines.
Import GoStrings GoLib.

Lemma hasPrefix_nil (s : list ascii) : hasPrefix s [] = true.
Proof. by destruct s. Qed.

Lemma Split_lines (s : string) : Split s lineFeed = lines s.
Proof.
  unfold Split. rewrite bool_decide_eq_false_2 by done.
  change (bytes lineFeed) with [GoRegexp.newline].
  induction s as [|c s IH]; [done|].
  cbn [bytes String.list_ascii_of_string splitAt hasPrefix lines length].
  fold (bytes s). rewrite ?hasPrefix_nil, andb_true_r.
  case_bool_decide as Hc.
  - cbn [Nat.sub fmap list_fmap]. by rewrite <- IH.
  - rewrite <- IH. by destruct (splitAt [GoRegexp.newline] 0 (bytes s)).
Qed.

Lemma lines_nonempty (s : string) : lines s ≠ [].
Proof.
  induction s as [|c s IH]; simpl; [done|].
  case_bool_decide; [done|]. by destruct (lines s).
Qed.

Lemma lines_oneLine (s : string) : Forall oneLine (lines s).
Proof.
  induction s as [|c s IH]; simpl.
  - repeat constructor. unfold oneLine. simpl. apply not_elem_of_nil.
  - case_bool_decide as Hc.
    + constructor; [|done]. unfold oneLine. simpl. apply not_elem_of_nil.
    + destruct (lines s) as [|line rest].
      * repeat constructor. unfold oneLine. simpl.
        intros [?|?%elem_of_nil]%elem_of_cons; [congruence|done].
      * apply Forall_cons in IH as [Hl Hr]. constructor; [|done].
        unfold oneLine in *. simpl.
        intros [?|?]%elem_of_cons; [congruence|done].
Qed.

Lemma concat_cons_head (c : ascii) (line : string) (rest : list string) :
  String.concat lineFeed (String c line :: rest)
  = String c (String.concat lineFeed (line :: rest)).
Proof. by destruct rest. Qed.

Lemma concat_empty_head (ls : list string) :
  ls ≠ [] →
  String.concat lineFeed ("" :: ls)
  = String GoRegexp.newline (String.concat lineFeed ls).
Proof. by destruct ls. Qed.

(** Joining the lines of a text gives the text back. *)
Lemma Join_lines (s : string) : Join (lines s) lineFeed = s.
Proof.
  unfold Join. induction s as [|c s IH]; [done|]. cbn [lines].
  pose proof (lines_nonempty s) as Hne.
  case_bool_decide as Hc.
  - subst c. rewrite concat_empty_head by done. by rewrite IH.
  - destruct (lines s) as [|line rest]; [done|].
    rewrite concat_cons_head. by rewrite IH.
Qed.

Lemma lines_app (l t : string) :
  oneLine l →
  lines (l +:+ t)
  = match lines t with
    | line :: rest => (l +:+ line) :: rest
    | [] => [l]
    end.
Proof.
  unfold oneLine. induction l as [|c l IH]; intros Hl.
  - change (lines ("" +:+ t)) with (lines t).
    pose proof (lines_nonempty t). destruct (lines t); [congruence|reflexivity].
  - change (lines (String c l +:+ t))
      with (if bool_decide (c = GoRegexp.newline) then "" :: lines (l +:+ t)
            else match lines (l +:+ t) with
                 | line :: rest => String c line :: rest
                 | [] => [String c ""]
                 end).
    simpl in Hl.
    rewrite bool_decide_eq_false_2.
    2:{ intros Hc. apply Hl. rewrite Hc. left. }
    rewrite IH.
    2:{ intros Hin. apply Hl. by right. }
    pose proof (lines_nonempty t).
    destruct (lines t); [congruence|reflexivity].
Qed.

Lemma append_empty_r (s : string) : s +:+ "" = s.
Proof.
  induction s as [|c s IH]; [done|].
  change (String c (s +:+ "") = String c s). by rewrite IH.
Qed.

(** The lines of a join of texts without line feeds are those texts. *)
Lemma lines_Join (ls : list string) :
  ls ≠ [] → Forall oneLine ls → lines (Join ls lineFeed) = ls.
Proof.
  unfold Join. intros Hne Hall.
  induction Hall as [|l ls Hl Hall IH]; [done|].
  destruct ls as [|l' ls].
  - cbn [String.concat]. rewrite <- (append_empty_r l) at 1.
    rewrite lines_app by done. cbn [lines].
    by rewrite append_empty_r.
  - cbn [String.concat]. rewrite lines_app by done.
    change (lineFeed +:+ ?t) with (String GoRegexp.newline t).
    cbn [lines]. rewrite bool_decide_eq_true_2 by done.
    cbn [String.concat] in IH. rewrite IH by done.
    by rewrite append_empty_r.
Qed.

Lemma Repeat_space_oneLine (n : nat) : oneLine (Repeat " " n).
Proof.
  unfold oneLine. induction n as [|n IH]; simpl.
  - apply not_elem_of_nil.
  - by intros [?|?]%elem_of_cons.
Qed.

Lemma oneLine_app (s t : string) : oneLine s → oneLine t → oneLine (s +:+ t).
Proof.
  unfold oneLine. rewrite bytes_app, elem_of_app. tauto.
Qed.

Lemma padLine_oneLine (spaces : Z) (line : string) :
  oneLine line → oneLine (padLine spaces line).
Proof.
  intros Hl. unfold padLine. case_bool_decide; [by subst|].
  apply oneLine_app; [apply Repeat_space_oneLine|done].
Qed.

Lemma indent_padLine (input : string) (spaces : Z) :
  input ≠ "" → (0 < spaces)%Z →
  indent input spaces
  = Join (padLine spaces <$> lines input) lineFeed.
Proof.
  intros Hi Hs. unfold indent.
  rewrite bool_decide_eq_false_2 by done.
  rewrite bool_decide_eq_false_2 by lia.
  rewrite Split_lines. f_equal. apply list_fmap_ext.
  intros _ line _. unfold padLine.
  by repeat case_bool_decide.
Qed.

Lemma padLine_zero (spaces : Z) (line : string) :
  (spaces ≤ 0)%Z → padLine spaces line = line.
Proof.
  intros Hs. unfold padLine. case_bool_decide; [done|].
  by replace (Z.to_nat spaces) with 0%nat by lia.
Qed.

Lemma lines_indent (input : string) (spaces : Z) :
  lines (indent input spaces) = padLine spaces <$> lines input.
Proof.
  destruct (decide (input = "")) as [->|Hi]; [done|].
  destruct (decide (spaces ≤ 0)%Z) as [Hs|Hs].
  - unfold indent. rewrite bool_decide_eq_false_2 by done.
    rewrite bool_decide_eq_true_2 by done.
    rewrite <- (list_fmap_id (lines input)) at 1.
    apply list_fmap_ext. intros _ line _. by rewrite padLine_zero.
  - rewrite indent_padLine by (done || lia).
    apply lines_Join.
    + pose proof (lines_nonempty input). by destruct (lines input).
    + apply Forall_fmap. eapply Forall_impl; [apply lines_oneLine|].
      intros line Hl. by apply padLine_oneLine.
Qed.

End Lines.

(** X13: [indent] works line by line: the lines of the result are the
    lines of the input, each line that is not empty with the padding
    before it and each empty line left empty.  So no line is added or
    lost, and nothing is done to an empty input or for a number of spaces
    that is not positive. *)
Theorem indent_lines (input : string) (spaces : Z) :
  GoLib.Split (indent input spaces) lineFeed
  = padLine spaces <$> GoLib.Split input lineFeed
  ∧ length (GoLib.Split (indent input spaces) lineFeed)
    = length (GoLib.Split input lineFeed)
  ∧ indent "" spaces = ""
  ∧ ((spaces ≤ 0)%Z → indent input spaces = input).
Proof.
  rewrite !Split_lines, lines_indent, length_fmap.
  split; [done|]. split; [done|]. split; [done|].
  intros Hs. unfold indent. rewrite (bool_decide_eq_true_2 _ Hs).
  by case_bool_decide.
Qed.

Section IndentAlgebra.
Import GoStrings GoLib.

Lemma indent_Join (input : string) (spaces : Z) :
  indent input spaces = Join (padLine spaces <$> lines input) lineFeed.
Proof. by rewrite <- lines_indent, Join_lines. Qed.

Lemma append_assoc (a b c : string) : (a +:+ b) +:+ c = a +:+ (b +:+ c).
Proof.
  induction a as [|x a IH]; [done|].
  change (String x ((a +:+ b) +:+ c) = String x (a +:+ (b +:+ c))).
  by rewrite IH.
Qed.

Lemma Repeat_add (s : string) (a b : nat) :
  Repeat s (a + b) = Repeat s a +:+ Repeat s b.
Proof.
  induction a as [|a IH]; [done|].
  cbn [Nat.add Repeat]. by rewrite IH, append_assoc.
Qed.

Lemma append_empty (a b : string) : a +:+ b = "" → b = "".
Proof. by destruct a. Qed.

Lemma padLine_padLine (m n : Z) (line : string) :
  (0 ≤ m)%Z → (0 ≤ n)%Z →
  padLine n (padLine m line) = padLine (m + n) line.
Proof.
  intros Hm Hn. destruct (decide (line = "")) as [->|Hl]; [done|].
  unfold padLine. rewrite (bool_decide_eq_false_2 (line = "")) by done.
  rewrite bool_decide_eq_false_2 by (by intros ?%append_empty).
  replace (Z.to_nat (m + n)) with (Z.to_nat n + Z.to_nat m)%nat by lia.
  by rewrite Repeat_add, append_assoc.
Qed.

Lemma padLine_inj (spaces : Z) (a b : string) :
  padLine spaces a = padLine spaces b → a = b.
Proof.
  unfold padLine. repeat case_bool_decide; subst; try done.
  - by intros ?%eq_sym%append_empty.
  - by intros ?%append_empty.
  - by intros ?%(inj (String.app _)).
Qed.

Lemma fmap_padLine_inj (spaces : Z) (l l' : list string) :
  padLine spaces <$> l = padLine spaces <$> l' → l = l'.
Proof.
  revert l'. induction l as [|a l IH]; intros [|b l']; simpl; try done.
  intros [= Hab Hl]. f_equal; [by eapply padLine_inj|by apply IH].
Qed.

End IndentAlgebra.

(** X14: indenting twice is indenting once by the sum, for numbers of
    spaces that are not negative. *)
Theorem indent_indent (input : string) (m n : Z) :
  (0 ≤ m)%Z → (0 ≤ n)%Z →
  indent (indent input m) n = indent input (m + n).
Proof.
  intros Hm Hn. rewrite (indent_Join (indent input m)), lines_indent.
  rewrite (indent_Join input (m + n)), <- list_fmap_compose.
  f_equal. apply list_fmap_ext. intros _ line _. simpl.
  by apply padLine_padLine.
Qed.

Lemma indent_indent_witness :
  indent (indent ("a" +:+ lineFeed +:+ lineFeed +:+ " b") 2) 1
  = "   a" +:+ lineFeed +:+ lineFeed +:+ "    b".
Proof.
  rewrite (indent_indent ("a" +:+ lineFeed +:+ lineFeed +:+ " b") 2 1)
    by done.
  by vm_compute.
Defined.

(** X15: [indent] loses nothing: two inputs have the same indented text,
    for the same number of spaces, only when they are the same input. *)
Theorem indent_inj (input input' : string) (spaces : Z) :
  indent input spaces = indent input' spaces ↔ input = input'.
Proof.
  split; [|by intros ->].
  intros Heq. apply (f_equal lines) in Heq.
  rewrite !lines_indent in Heq. apply fmap_padLine_inj in Heq.
  by rewrite <- (Join_lines input), <- (Join_lines input'), Heq.
Qed.

(** ** Exact and prefix wild-card patterns *)

Section ExactPrefix.
Import GoStrings GoRegexp.

Lemma first_dot_unique (l l' r r' : list ascii) :
  "."%char ∉ l → "."%char ∉ l' →
  l ++ "."%char :: r = l' ++ "."%char :: r' → l = l' ∧ r = r'.
Proof.
  revert l'. induction l as [|c l IH]; intros [|c' l'] Hl Hl' Heq;
    simpl in Heq.
  - by injection Heq as ->.
  - injection Heq as <- _. exfalso. apply Hl'. left.
  - injection Heq as -> _. exfalso. apply Hl. left.
  - injection Heq as -> Heq.
    destruct (IH l') as [-> ->]; [| |done|done].
    + intros Hin. apply Hl. by right.
    + intros Hin. apply Hl'. by right.
Qed.

End ExactPrefix.

(** X16: for one host name and path, the pattern for the exact path
    accepts less than the pattern for the path prefix: every text the
    first matches the second matches too, and such a text followed by a
    slash is matched by the second only. *)
Theorem genSubdomainWildcardRegexp_exact_prefix `{RouteAPIHelpers}
  (hostname path : string) :
  GetDomainForHost hostname ≠ "" →
  asciiText (GetDomainForHost hostname +:+ path) →
  ∃ exact pre,
    GoRegexp.compile (genSubdomainWildcardRegexp hostname path true)
    = inl exact
    ∧ GoRegexp.compile (genSubdomainWildcardRegexp hostname path false)
      = inl pre
    ∧ ∀ candidate,
        GoRegexp.matchString exact candidate = true →
        GoRegexp.matchString pre candidate = true
        ∧ GoRegexp.matchString pre (candidate +:+ "/") = true
        ∧ GoRegexp.matchString exact (candidate +:+ "/") = false.
Proof.
  intros Hne Hascii.
  set (lit := GoStrings.bytes (GetDomainForHost hostname +:+ path)).
  exists (wildcardRe ("."%char :: lit) true),
         (wildcardRe ("."%char :: lit) false).
  assert (∀ exactPath,
            GoRegexp.compile
              (genSubdomainWildcardRegexp hostname path exactPath)
            = inl (wildcardRe ("."%char :: lit) exactPath)) as Hc.
  { intros exactPath. unfold genSubdomainWildcardRegexp.
    rewrite bool_decide_eq_false_2
      by (by destruct (GetDomainForHost hostname)).
    pose proof (compile_wildcard
                  ("." +:+ GetDomainForHost hostname +:+ path) exactPath)
      as Hw.
    destruct exactPath; apply Hw; try done; by constructor. }
  split; [apply Hc|]. split; [apply Hc|].
  intros candidate (l & sfx & Hb & Hdot & Hsfx)%wildcardRe_matches.
  destruct Hsfx as [->|[? _]]; [|done]. rewrite app_nil_r in Hb.
  split; [|split].
  - apply wildcardRe_matches. exists l, []. rewrite app_nil_r. auto.
  - apply wildcardRe_matches. exists l, ["/"%char].
    split; [by rewrite bytes_app, Hb, <- app_assoc|].
    split; [done|]. right. split; [done|]. exists [].
    split; [done|]. apply not_elem_of_nil.
  - apply not_true_is_false.
    intros (l' & sfx' & Hb' & Hdot' & Hsfx')%wildcardRe_matches.
    destruct Hsfx' as [->|[? _]]; [|done].
    rewrite app_nil_r, bytes_app, Hb, <- app_assoc in Hb'.
    simpl in Hb'.
    apply first_dot_unique in Hb' as [_ Hb']; [|done..].
    apply (f_equal length) in Hb'. rewrite length_app in Hb'.
    simpl in Hb'. lia.
Qed.

Lemma genSubdomainWildcardRegexp_exact_prefix_witness :
  ∃ exact pre,
    GoRegexp.compile
      (genSubdomainWildcardRegexp (H := ExampleRoute.helpers)
         "www.example.com" "/app" true) = inl exact
    ∧ GoRegexp.compile
        (genSubdomainWildcardRegexp (H := ExampleRoute.helpers)
           "www.example.com" "/app" false) = inl pre
    ∧ ∀ candidate,
        GoRegexp.matchString exact candidate = true →
        GoRegexp.matchString pre candidate = true
        ∧ GoRegexp.matchString pre (candidate +:+ "/") = true
        ∧ GoRegexp.matchString exact (candidate +:+ "/") = false.
Proof.
  apply (genSubdomainWildcardRegexp_exact_prefix (H := ExampleRoute.helpers)
           "www.example.com" "/app").
  - vm_compute. discriminate.
  - unfold asciiText. vm_compute. repeat constructor.
Defined.

(** ** Lists of addresses that are already clean *)

Section Words.
Import GoStrings.

(** Two prefixes of one list of runes with the same bytes are the same. *)
Lemma prefix_concat_eq (X X' Y Y' : list (list ascii)) :
  X ++ Y = X' ++ Y' → Forall (λ r, r ≠ []) (X ++ Y) →
  concat X = concat X' → X = X'.
Proof.
  revert X'. induction X as [|x X IH]; intros [|x' X'] Heq Hne Hc;
    simpl in *.
  - done.
  - exfalso. rewrite Heq in Hne. apply Forall_cons in Hne as [Hx _].
    symmetry in Hc. apply app_eq_nil in Hc as [? _]. done.
  - exfalso. apply Forall_cons in Hne as [Hx _].
    apply app_eq_nil in Hc as [? _]. done.
  - injection Heq as -> Heq. apply Forall_cons in Hne as [_ Hne].
    apply app_inv_head in Hc. f_equal. by apply (IH X').
Qed.

Lemma runes_all_nonempty (s : list ascii) : Forall (λ r, r ≠ []) (runes s).
Proof. apply Forall_forall. intros r. apply runes_nonempty. Qed.

(** The tokens of [splitRunes] are words: [cur] is the bytes of the runes
    [curRunes], none a space, read so far. *)
Lemma splitRunes_words (rs curRunes : list (list ascii)) :
  Forall (λ r, isSpaceRune r = false) curRunes →
  runes (concat curRunes ++ concat rs) = curRunes ++ rs →
  Forall word (splitRunes (concat curRunes) rs).
Proof.
  revert curRunes. induction rs as [|r rs IH]; intros curRunes Hns Hr.
  - simpl in *. rewrite !app_nil_r in Hr.
    unfold flush. destruct (concat curRunes) eqn:Hc; [constructor|].
    constructor; [|constructor]. split; [done|]. by rewrite Hr.
  - cbn [splitRunes]. destruct (isSpaceRune r) eqn:Hsp.
    + cbn [concat] in Hr.
      destruct (isSpaceRune_start r Hsp) as (c & w' & -> & Hc).
      cbn [app] in Hr.
      pose proof Hr as Hr'.
      rewrite runes_app in Hr' by done.
      change (c :: w' ++ concat rs) with ((c :: w') ++ concat rs) in Hr'.
      rewrite runes_space_head in Hr' by done.
      assert (runes (concat curRunes) = curRunes) as Hcur.
      { apply (prefix_concat_eq _ _ ((c :: w') :: runes (concat rs))
                 ((c :: w') :: rs)); [done| |by rewrite runes_concat].
        rewrite Hr', <- Hr. apply runes_all_nonempty. }
      rewrite Hcur in Hr'. apply app_inv_head in Hr'.
      injection Hr' as Hrs.
      apply Forall_app. split.
      * unfold flush. destruct (concat curRunes) eqn:Hcc; [constructor|].
        constructor; [|constructor]. split; [done|]. by rewrite Hcur.
      * apply (IH []); [constructor|]. simpl. by rewrite Hrs.
    + replace (concat curRunes ++ r) with (concat (curRunes ++ [r])).
      2:{ rewrite concat_app. simpl. by rewrite app_nil_r. }
      apply IH.
      * apply Forall_app. split; [done|]. by constructor.
      * rewrite concat_app. simpl. rewrite app_nil_r, <- !app_assoc.
        simpl. done.
Qed.

Lemma Fields_words (s : string) :
  Forall word (splitRunes [] (runes (bytes s))).
Proof.
  apply (splitRunes_words _ []); [constructor|].
  simpl. by rewrite runes_concat.
Qed.

Lemma splitRunes_nonspace (cur : list ascii) (rs rest : list (list ascii)) :
  Forall (λ r, isSpaceRune r = false) rs →
  splitRunes cur (rs ++ rest) = splitRunes (cur ++ concat rs) rest.
Proof.
  intros Hns. revert cur. induction Hns as [|r rs Hr _ IH]; intros cur.
  - simpl. by rewrite app_nil_r.
  - simpl. rewrite Hr, IH. by rewrite <- app_assoc.
Qed.

Lemma runes_joinWords (t : list ascii) (ts : list (list ascii)) :
  ts ≠ [] →
  runes (joinWords (t :: ts))
  = runes t ++ [" "%char] :: runes (joinWords ts).
Proof.
  intros Hne. destruct ts as [|t' ts]; [done|].
  cbn [joinWords]. rewrite runes_app by done.
  change (" "%char :: ?x) with ([" "%char] ++ x).
  by rewrite runes_space_head.
Qed.

(** The fields of words joined by single spaces are the words. *)
Lemma splitRunes_joinWords (ts : list (list ascii)) :
  Forall word ts → splitRunes [] (runes (joinWords ts)) = ts.
Proof.
  induction 1 as [|t ts [Ht Hns] _ IH]; [done|].
  destruct ts as [|t' ts].
  - cbn [joinWords]. rewrite <- (app_nil_r (runes t)).
    rewrite splitRunes_nonspace by done. rewrite runes_concat. simpl.
    unfold flush. by destruct t.
  - rewrite runes_joinWords by done.
    rewrite splitRunes_nonspace by done. rewrite runes_concat.
    cbn [splitRunes app]. change (isSpaceRune [" "%char]) with true.
    cbv iota. rewrite IH. unfold flush. by destruct t.
Qed.

(** Words joined by single spaces start and end with no white space. *)
Lemma runes_joinWords_head (t : list ascii) (ts : list (list ascii)) :
  word t → ∃ r rs, runes (joinWords (t :: ts)) = r :: rs
                   ∧ isSpaceRune r = false.
Proof.
  intros [Ht Hns].
  assert (∃ r rs, runes t = r :: rs ∧ isSpaceRune r = false)
    as (r & rs & Hr & Hsp).
  { destruct (runes t) as [|r rs] eqn:Hr.
    - exfalso. apply Ht. by rewrite <- (runes_concat t), Hr.
    - apply Forall_cons in Hns as [? _]. eauto. }
  destruct ts as [|t' ts]; [by eauto|].
  rewrite runes_joinWords by done. rewrite Hr. simpl. eauto.
Qed.

Lemma runes_joinWords_last (ts : list (list ascii)) :
  Forall word ts → ts ≠ [] →
  ∃ rs r, runes (joinWords ts) = rs ++ [r] ∧ isSpaceRune r = false.
Proof.
  induction 1 as [|t0 ts [Ht Hns] Hall IH]; [done|]. intros _.
  destruct ts as [|t' ts].
  - cbn [joinWords].
    destruct (runes t0) as [|r rs _] eqn:Hr using rev_ind.
    + exfalso. apply Ht. by rewrite <- (runes_concat t0), Hr.
    + apply Forall_app in Hns as [_ [? _]%Forall_cons]. eauto.
  - destruct IH as (rs & r & Hr & Hsp); [done|].
    rewrite runes_joinWords by done. rewrite Hr.
    exists (runes t0 ++ [" "%char] :: rs), r.
    split; [|done]. by rewrite <- app_assoc.
Qed.

Lemma bytes_Join_words (ts : list string) :
  bytes (Join ts " ") = joinWords (bytes <$> ts).
Proof.
  unfold Join. induction ts as [|t ts IH]; [done|].
  destruct ts as [|t' ts]; [done|].
  change (String.concat " " (t :: t' :: ts))
    with (t +:+ " " +:+ String.concat " " (t' :: ts)).
  rewrite !bytes_app, IH. done.
Qed.

End Words.

Section CleanLists.
Import GoStrings.
Context `{NetLib}.

Lemma parseIPList_body (l : string) :
  parseIPList l
  = if bool_decide (TrimSpace l = "") then ""
    else if bool_decide (TrimSpace l ≠ l) then ""
    else Join (List.filter validIPOrCIDR (Fields l)) " ".
Proof.
  unfold parseIPList. rewrite foldl_append_filter. cbn [app].
  case_bool_decide; [done|]. case_bool_decide; [done|].
  by destruct (List.filter _ _).
Qed.

Lemma Fields_word_tokens (s : string) :
  Forall (λ t, word (bytes t)) (Fields s).
Proof.
  unfold Fields. apply Forall_fmap.
  eapply Forall_impl; [apply Fields_words|].
  intros t Ht. simpl. by rewrite bytes_str.
Qed.

Lemma filter_words (p : string → bool) (ts : list string) :
  Forall (λ t, word (bytes t)) ts →
  Forall (λ t, word (bytes t)) (List.filter p ts).
Proof.
  induction 1 as [|t ts Ht _ IH]; simpl; [constructor|].
  destruct (p t); [by constructor|done].
Qed.

Lemma filter_all (p : string → bool) (ts : list string) :
  Forall (λ t, p t = true) (List.filter p ts).
Proof.
  induction ts as [|t ts IH]; simpl; [constructor|].
  destruct (p t) eqn:Hp; [by constructor|done].
Qed.

Lemma filter_id (p : string → bool) (ts : list string) :
  Forall (λ t, p t = true) ts → List.filter p ts = ts.
Proof.
  induction 1 as [|t ts Ht _ IH]; simpl; [done|]. by rewrite Ht, IH.
Qed.

Lemma filter_sublist (p : string → bool) (ts : list string) :
  sublist (List.filter p ts) ts.
Proof.
  induction ts as [|t ts IH]; simpl; [constructor|].
  destruct (p t); [by apply sublist_skip|by apply sublist_cons].
Qed.

Lemma Fields_Join (ts : list string) :
  Forall (λ t, word (bytes t)) ts → Fields (Join ts " ") = ts.
Proof.
  intros Hw. unfold Fields. rewrite bytes_Join_words.
  rewrite splitRunes_joinWords by (by apply Forall_fmap).
  rewrite <- list_fmap_compose.
  rewrite <- (list_fmap_id ts) at 2. apply list_fmap_ext.
  intros _ t _. simpl. apply str_bytes.
Qed.

Lemma TrimSpace_Join (ts : list string) :
  Forall (λ t, word (bytes t)) ts → ts ≠ [] →
  TrimSpace (Join ts " ") = Join ts " " ∧ Join ts " " ≠ "".
Proof.
  intros Hw Hne.
  assert (Forall word (bytes <$> ts)) as Hw' by (by apply Forall_fmap).
  assert (bytes <$> ts ≠ []) as Hne' by (by destruct ts).
  split.
  - destruct (decide (TrimSpace (Join ts " ") = Join ts " ")) as [|Hch];
      [done|].
    exfalso. apply TrimSpace_changes in Hch as [Hl|Ht].
    + apply hasLeadingSpace_runes in Hl as (w & rs & Hsp & Hr).
      rewrite bytes_Join_words in Hr.
      destruct (bytes <$> ts) as [|t ts']; [done|].
      apply Forall_cons in Hw' as [Ht _].
      destruct (runes_joinWords_head t ts' Ht) as (r & rs' & Hr' & Hns).
      congruence.
    + apply hasTrailingSpace_runes in Ht as (rs & w & Hsp & Hr).
      rewrite bytes_Join_words in Hr.
      destruct (runes_joinWords_last _ Hw' Hne')
        as (rs' & r & Hr' & Hns).
      rewrite Hr in Hr'. apply app_inj_tail in Hr' as [_ ->]. congruence.
  - intros Hj. apply (f_equal bytes) in Hj.
    rewrite bytes_Join_words in Hj.
    destruct (runes_joinWords_last _ Hw' Hne') as (rs' & r & Hr' & _).
    rewrite Hj in Hr'. by destruct rs'.
Qed.

End CleanLists.

(** X17: [parseIPList] changes nothing in a list it has returned: its
    result, parsed again, is returned as it is. *)
Theorem parseIPList_idempotent `{NetLib} (list : string) :
  parseIPList (parseIPList list) = parseIPList list.
Proof.
  rewrite (parseIPList_body list).
  case_bool_decide; [by rewrite parseIPList_body|].
  case_bool_decide; [by rewrite parseIPList_body|].
  pose proof (filter_words validIPOrCIDR _ (Fields_word_tokens list)) as Hw.
  destruct (List.filter validIPOrCIDR (GoStrings.Fields list))
    as [|v vs] eqn:Hf; [by rewrite parseIPList_body|].
  destruct (TrimSpace_Join (v :: vs) Hw) as [Ht Hne]; [done|].
  rewrite parseIPList_body, Ht.
  rewrite bool_decide_eq_false_2 by done.
  rewrite bool_decide_eq_false_2 by (by intros []).
  rewrite Fields_Join by done.
  rewrite filter_id; [done|]. rewrite <- Hf. apply filter_all.
Qed.

(** X18: what [parseIPList] returns is clean: its fields are fields of the
    input, in their order, and every one of them parses as an address or a
    CIDR block; it is these fields joined by single spaces, and it has no
    white space at its ends. *)
Theorem parseIPList_clean `{NetLib} (list : string) :
  Forall (λ ip, validIPOrCIDR ip = true)
         (GoStrings.Fields (parseIPList list))
  ∧ sublist (GoStrings.Fields (parseIPList list)) (GoStrings.Fields list)
  ∧ GoStrings.Join (GoStrings.Fields (parseIPList list)) " "
    = parseIPList list
  ∧ GoStrings.TrimSpace (parseIPList list) = parseIPList list.
Proof.
  assert (GoStrings.Fields "" = []) as He by done.
  assert (parseIPList list = ""
          ∨ ∃ v vs, List.filter validIPOrCIDR (GoStrings.Fields list)
                    = v :: vs
                    ∧ parseIPList list = GoStrings.Join (v :: vs) " ")
    as [->|(v & vs & Hf & ->)].
  { rewrite parseIPList_body. repeat case_bool_decide; auto.
    destruct (List.filter _ _) as [|v vs]; [by left|right; eauto]. }
  - rewrite He. split; [constructor|]. split; [apply sublist_nil_l|].
    split; by vm_compute.
  - pose proof (filter_words validIPOrCIDR _ (Fields_word_tokens list))
      as Hw.
    rewrite Hf in Hw. rewrite Fields_Join by done.
    split; [rewrite <- Hf; apply filter_all|].
    split; [rewrite <- Hf; apply filter_sublist|].
    split; [done|]. by apply TrimSpace_Join.
Qed.

Example parseIPList_idempotent_example :
  parseIPList (H := ExampleNet.lib)
    (parseIPList (H := ExampleNet.lib) "10.0.0.1   bogus 10.0.0.0/8")
  = "10.0.0.1 10.0.0.0/8".
Proof. by vm_compute. Qed.

(** ** Anchored patterns match whole texts *)

Section Anchoring.
Import GoStrings GoRegexp RegexpSem.

Lemma lex_lexRun (st : lexSt) (s : list ascii) :
  lex st s
  = '(st', toks) ← lexRun st s; fin ← lex st' []; Some (toks ++ fin).
Proof.
  revert st. induction s as [|c s IH]; intros st.
  - simpl. by destruct (match st with LTop => _ | _ => _ end).
  - cbn [lex lexRun]. destruct (lexStep st c) as [[st' toks]|]; [|done].
    simpl. rewrite IH. destruct (lexRun st' s) as [[st'' rest]|]; [|done].
    destruct st''; simpl; by rewrite ?app_assoc.
Qed.

Lemma lexRun_app (st : lexSt) (a b : list ascii) :
  lexRun st (a ++ b)
  = '(st1, t1) ← lexRun st a;
    '(st2, t2) ← lexRun st1 b;
    Some (st2, t1 ++ t2).
Proof.
  revert st. induction a as [|c a IH]; intros st.
  - simpl. by destruct (lexRun st b) as [[st2 t2]|].
  - cbn [app lexRun]. destruct (lexStep st c) as [[st' toks]|]; [|done].
    simpl. rewrite IH. destruct (lexRun st' a) as [[st1 t1]|]; [|done].
    simpl. destruct (lexRun st1 b) as [[st2 t2]|]; [|done]. simpl.
    by rewrite app_assoc.
Qed.

Lemma parse_parseRun (toks : list token) (stack : list frame) (f : frame) :
  parse toks stack f
  = '(stack', f') ← parseRun toks stack f;
    match stack' with [] => Some (closeFrame f') | _ => None end.
Proof.
  revert stack f. induction toks as [|t toks IH]; intros stack f; [done|].
  destruct t; cbn [parse parseRun]; try apply IH.
  - destruct (cur f); [done|]. destruct (repeated f); [done|]. apply IH.
  - destruct stack; [done|]. apply IH.
Qed.

Lemma parseRun_app (a b : list token) (stack : list frame) (f : frame) :
  parseRun (a ++ b) stack f
  = '(stack', f') ← parseRun a stack f; parseRun b stack' f'.
Proof.
  revert stack f. induction a as [|t a IH]; intros stack f; [done|].
  destruct t; cbn [app parseRun]; try apply IH.
  - destruct (cur f); [done|]. destruct (repeated f); [done|]. apply IH.
  - destruct stack; [done|]. apply IH.
Qed.

(** Frames below those the tokens were parsed with are left alone. *)
Lemma parseRun_base (toks : list token) (stack stack' base : list frame)
  (f f' : frame) :
  parseRun toks stack f = Some (stack', f') →
  parseRun toks (stack ++ base) f = Some (stack' ++ base, f').
Proof.
  revert stack f. induction toks as [|t toks IH]; intros stack f.
  - by intros [= -> ->].
  - destruct t; cbn [parseRun]; try apply IH.
    + destruct (cur f); [done|]. destruct (repeated f); [done|]. apply IH.
    + destruct stack as [|p stack'']; [done|]. apply IH.
Qed.

(** A pattern that compiles ends outside brackets, escapes and group
    openers. *)
Lemma parseRun_open_end (toks : list token) (stack : list frame)
  (f : frame) :
  parse (toks ++ [TOpen]) stack f = None.
Proof.
  rewrite parse_parseRun, parseRun_app.
  destruct (parseRun toks stack f) as [[stack' f']|]; [|done]. done.
Qed.

Lemma compile_inv (pattern : string) (r : re) :
  compile pattern = inl r →
  ∃ toks f,
    lexRun LTop (bytes pattern) = Some (LTop, toks)
    ∧ parseRun toks [] emptyFrame = Some ([], f)
    ∧ closeFrame f = r.
Proof.
  unfold compile. rewrite lex_lexRun.
  destruct (lexRun LTop (bytes pattern)) as [[st toks]|]; [|done].
  simpl. destruct st; simpl; try done.
  - rewrite app_nil_r, parse_parseRun.
    destruct (parseRun toks [] emptyFrame) as [[stack f]|] eqn:Hp; simpl;
      [|discriminate].
    destruct stack; simpl; [|discriminate]. intros [= <-].
    by exists toks, f.
  - by rewrite parseRun_open_end.
Qed.

(** The anchored pattern compiles to the compiled pattern between the
    two ends of the text. *)
Lemma compile_anchored (pattern : string) (r : re) :
  compile pattern = inl r →
  compile (anchored pattern) = inl (Cat BeginText (Cat r EndText)).
Proof.
  intros (toks & f & Hlex & Hparse & Hr)%compile_inv.
  unfold compile, anchored. rewrite lex_lexRun, !bytes_app.
  rewrite lexRun_app.
  change (lexRun LTop (bytes "\A(?:"))
    with (Some (LTop, [TAtom BeginText; TOpen])).
  cbn [mbind option_bind]. rewrite lexRun_app, Hlex.
  cbn [mbind option_bind].
  change (lexRun LTop (bytes ")\z"))
    with (Some (LTop, [TClose; TAtom EndText])).
  cbn [mbind option_bind lex]. rewrite app_nil_r.
  rewrite parse_parseRun.
  cbn [app parseRun]. rewrite parseRun_app.
  pose proof (parseRun_base toks [] [] [push BeginText emptyFrame]
                emptyFrame f Hparse) as Hb.
  cbn [app] in Hb. rewrite Hb.
  cbn [mbind option_bind app parseRun]. rewrite Hr. done.
Qed.

Lemma matchString_anchored (r : re) (s : string) :
  matchString (Cat BeginText (Cat r EndText)) s = true
  ↔ Matches (length (bytes s)) r (bytes s) [].
Proof.
  rewrite matchString_begin. split.
  - intros (s' & Hm).
    inversion Hm as [| | | | | |? ? ? s1 ? Hr He| | | |]; subst.
    by inversion He; subst.
  - intros Hm. exists []. econstructor; [done|constructor].
Qed.

End Anchoring.

(** X19: in the regexp model, for a pattern that compiles, [matchPattern]
    accepts exactly the texts that the pattern matches from their first
    byte to their last, while [matchString] accepts the texts in which the
    pattern matches somewhere. *)
Theorem matchPattern_full_match (pattern s : string) (r : GoRegexp.re)
  (st : CacheState (H := GoRegexp.model)) :
  consistent st →
  GoRegexp.compile pattern = inl r →
  ((matchPattern pattern s st).1 = true
   ↔ RegexpSem.Matches (length (GoStrings.bytes s)) r (GoStrings.bytes s) [])
  ∧ ((matchString pattern s st).1 = (true, None)
     ↔ RegexpSem.MatchesIn r s).
Proof.
  intros Hc Hr. rewrite matchPattern_run, matchString_run. cbn [fst snd].
  rewrite !cachedRegexpCompile_result by done.
  change (regexp_Compile (anchored pattern))
    with (GoRegexp.compile (anchored pattern)).
  change (regexp_Compile pattern) with (GoRegexp.compile pattern).
  rewrite (compile_anchored _ _ Hr), Hr. split.
  - apply matchString_anchored.
  - rewrite <- matchString_spec. split.
    + intros [= Hm]. exact Hm.
    + intros Hm. f_equal. exact Hm.
Qed.

Lemma matchPattern_full_match_witness :
  RegexpSem.Matches 1 (GoRegexp.Alt (GoRegexp.Lit "a") (GoRegexp.Lit "b"))
    ["b"%char] [].
Proof.
  apply (proj1 (matchPattern_full_match "a|b" "b"
                  (GoRegexp.Alt (GoRegexp.Lit "a") (GoRegexp.Lit "b"))
                  emptyCache consistent_empty eq_refl)).
  by vm_compute.
Defined.

(** X20: the anchoring is done on the text of the pattern, and a pattern
    can leave the group it is put in.  For two patterns that compile,
    the first, then [)(?:], then the second is a pattern that does not
    compile; yet [matchPattern] does not answer false for it: anchored, it
    compiles, and [matchPattern] accepts the texts made of a match of the
    first pattern followed by a match of the second. *)
Theorem matchPattern_unbalanced (p q s : string) (r1 r2 : GoRegexp.re)
  (st : CacheState (H := GoRegexp.model)) :
  consistent st →
  GoRegexp.compile p = inl r1 →
  GoRegexp.compile q = inl r2 →
  let pattern := p +:+ ")(?:" +:+ q in
  GoRegexp.compile pattern = inr ("error parsing regexp: " +:+ pattern)
  ∧ GoRegexp.compile (anchored pattern)
    = inl (GoRegexp.Cat GoRegexp.BeginText
             (GoRegexp.Cat r1 (GoRegexp.Cat r2 GoRegexp.EndText)))
  ∧ ((matchPattern pattern s st).1 = true
     ↔ ∃ mid,
         RegexpSem.Matches (length (GoStrings.bytes s)) r1
           (GoStrings.bytes s) mid
         ∧ RegexpSem.Matches (length (GoStrings.bytes s)) r2 mid []).
Proof.
  intros Hc (tp & f1 & Hlp & Hpp & Hr1)%compile_inv
         (tq & f2 & Hlq & Hpq & Hr2)%compile_inv pattern.
  assert (lexRun GoRegexp.LTop (GoStrings.bytes pattern)
          = Some (GoRegexp.LTop,
                  tp ++ [GoRegexp.TClose; GoRegexp.TOpen] ++ tq)) as Hlex.
  { unfold pattern. rewrite !bytes_app, lexRun_app, Hlp.
    cbn [mbind option_bind]. rewrite lexRun_app.
    change (lexRun GoRegexp.LTop (GoStrings.bytes ")(?:"))
      with (Some (GoRegexp.LTop, [GoRegexp.TClose; GoRegexp.TOpen])).
    cbn [mbind option_bind]. by rewrite Hlq. }
  assert (GoRegexp.compile (anchored pattern)
          = inl (GoRegexp.Cat GoRegexp.BeginText
                   (GoRegexp.Cat r1 (GoRegexp.Cat r2 GoRegexp.EndText))))
    as Hanch.
  { unfold GoRegexp.compile, anchored.
    rewrite lex_lexRun, !bytes_app, lexRun_app.
    change (lexRun GoRegexp.LTop (GoStrings.bytes "\A(?:"))
      with (Some (GoRegexp.LTop,
                  [GoRegexp.TAtom GoRegexp.BeginText; GoRegexp.TOpen])).
    cbn [mbind option_bind]. rewrite lexRun_app.
    fold pattern. rewrite Hlex. cbn [mbind option_bind].
    change (lexRun GoRegexp.LTop (GoStrings.bytes ")\z"))
      with (Some (GoRegexp.LTop,
                  [GoRegexp.TClose; GoRegexp.TAtom GoRegexp.EndText])).
    cbn [mbind option_bind GoRegexp.lex]. rewrite app_nil_r.
    rewrite parse_parseRun. cbn [app parseRun].
    rewrite <- !app_assoc, parseRun_app.
    pose proof (parseRun_base tp [] []
                  [GoRegexp.push GoRegexp.BeginText GoRegexp.emptyFrame]
                  GoRegexp.emptyFrame f1 Hpp) as Hb1.
    cbn [app] in Hb1. rewrite Hb1.
    cbn [mbind option_bind app parseRun]. rewrite parseRun_app.
    pose proof (parseRun_base tq [] []
                  [GoRegexp.push (GoRegexp.closeFrame f1)
                     (GoRegexp.push GoRegexp.BeginText GoRegexp.emptyFrame)]
                  GoRegexp.emptyFrame f2 Hpq) as Hb2.
    cbn [app] in Hb2. rewrite Hb2.
    cbn [mbind option_bind app parseRun]. rewrite Hr1, Hr2. done. }
  split; [|split; [done|]].
  - unfold GoRegexp.compile. rewrite lex_lexRun, Hlex.
    cbn [mbind option_bind GoRegexp.lex]. rewrite app_nil_r.
    rewrite parse_parseRun, parseRun_app, Hpp. done.
  - rewrite matchPattern_run. cbn [fst snd].
    rewrite cachedRegexpCompile_result by done.
    change (regexp_Compile (anchored pattern))
      with (GoRegexp.compile (anchored pattern)).
    rewrite Hanch.
    cbn [MatchString GoRegexp.model].
    rewrite matchString_begin. split.
    + intros (s' & Hm).
      inversion Hm as [| | | | | |? ? ? mid ? Hm1 Hm2| | | |]; subst.
      inversion Hm2 as [| | | | | |? ? ? s2 ? Hm3 He| | | |]; subst.
      inversion He; subst. eauto.
    + intros (mid & Hm1 & Hm2). exists [].
      econstructor; [done|]. econstructor; [done|constructor].
Qed.

Lemma matchPattern_unbalanced_witness :
  GoRegexp.compile "a)(?:b" = inr "error parsing regexp: a)(?:b"
  ∧ (matchPattern (H := GoRegexp.model) "a)(?:b" "ab" emptyCache).1 = true.
Proof.
  destruct (matchPattern_unbalanced "a" "b" "ab"
              (GoRegexp.Lit "a") (GoRegexp.Lit "b") emptyCache
              consistent_empty eq_refl eq_refl) as (Herr & _ & Hm).
  split; [exact Herr|]. apply Hm. exists ["b"%char].
  split; constructor.
Defined.

(** The same in Go's words: the pattern ["a)(b"] is rejected by
    [regexp.Compile], and [firstMatch] returns a value for it. *)
Example firstMatch_unbalanced_example :
  GoRegexp.compile "a)(b" = inr "error parsing regexp: a)(b"
  ∧ (firstMatch (H := GoRegexp.model) "a)(b" ["b"; "ab"] emptyCache).1 = "ab".
Proof. by vm_compute. Qed.
